(** * Focus groups, group containers and the constrained tree walk

    A shallow embedding of [core/src/Focusable.ts]: the classes
    [FocusableGroupContainer], [FocusableGroup] and [Focusable] become
    functions over an explicit [World] (the host tree, the per-node side
    table, the two object heaps and the module-level variables), and the
    properties of the focus-group state machine are proved about them. *)

From stdpp Require Import base option list gmap strings.

(** ** References

    The source identifies a group by the object itself and by its [id]
    ('fg' + a fresh number); a container likewise ('fgc' + number).  Ids are
    unique per object, so a reference is modelled by the number in its id. *)

Definition HTMLElement := nat.
Definition GroupRef := nat.
Definition ContainerRef := nat.

(** ** JavaScript objects used as maps

    [Object.keys] enumerates string keys in insertion order, and the source
    iterates over them, so such an object is an association list with unique
    keys kept in insertion order. *)

Definition JsObj (V : Type) := list (nat * V).

Fixpoint obj_get {V} (k : nat) (o : JsObj V) : option V :=
  match o with
  | [] => None
  | (k', v) :: o' => if decide (k = k') then Some v else obj_get k o'
  end.

(** [o[k] = v]: overwrites in place, or appends a new key. *)
Fixpoint obj_set {V} (k : nat) (v : V) (o : JsObj V) : JsObj V :=
  match o with
  | [] => [(k, v)]
  | (k', v') :: o' =>
      if decide (k = k') then (k, v) :: o' else (k', v') :: obj_set k v o'
  end.

(** [delete o[k]]. *)
Fixpoint obj_delete {V} (k : nat) (o : JsObj V) : JsObj V :=
  match o with
  | [] => []
  | (k', v) :: o' =>
      if decide (k = k') then obj_delete k o' else (k', v) :: obj_delete k o'
  end.

Definition obj_keys {V} (o : JsObj V) : list nat := o.*1.

(** [k in o]. *)
Definition obj_has {V} (k : nat) (o : JsObj V) : bool :=
  match obj_get k o with Some _ => true | None => false end.

(** ** Declarations of [Types.ts] *)

Module Types.

(** Modelled from the spec: the enum [ElementVisibility] of [Types.ts],
    not-visible / partially-visible / fully-visible.  [Invisible] is the
    falsy member: the source writes [x || Invisible] for a missing entry. *)
Inductive ElementVisibility := Invisible | PartiallyVisible | Visible.

(** Modelled from the spec: the enum [FocusableGroupFocusLimit] of
    [Types.ts], focusLimitMode: enum{Unlimited, Limited, LimitedTrapFocus}. *)
Inductive FocusableGroupFocusLimit := Unlimited | Limited | LimitedTrapFocus.

#[global] Instance ElementVisibility_eq_dec : EqDecision ElementVisibility.
Proof. solve_decision. Defined.

#[global] Instance FocusableGroupFocusLimit_eq_dec :
  EqDecision FocusableGroupFocusLimit.
Proof. solve_decision. Defined.

(** Modelled from the spec: the declarative properties of a group that the
    modelled methods read.  Every property is optional in the source;
    [onChange] records whether a change callback is registered (the
    callback is an observer: its invocations are recorded in the world's
    trace), [memorizeCurrent] is read for its truthiness only. *)
Module FocusableGroupProps.
Record t := {
  isLimited : option FocusableGroupFocusLimit;
  lookupVisibility : option ElementVisibility;
  memorizeCurrent : bool;
  onChange : bool
}.
(** [props || {}] *)
Definition empty : t :=
  {| isLimited := None; lookupVisibility := None;
     memorizeCurrent := false; onChange := false |}.
End FocusableGroupProps.

(** Modelled from the spec: the derived state of a group,
    [isCurrent] being [boolean | undefined]. *)
Module FocusableGroupState.
Record t := {
  isCurrent : option bool;
  isPrevious : bool;
  isNext : bool;
  isFirst : bool;
  isLast : bool;
  isVisible : ElementVisibility;
  hasFocus : bool;
  siblingHasFocus : bool;
  isLimited : bool
}.
End FocusableGroupState.

(** The declarative properties of a focusable element, as [getProps]
    returns them. *)
Module FocusableProps.
Record t := {
  isDefault : bool;
  isIgnored : bool
}.
End FocusableProps.

(** [Partial<Types.FocusableProps>]: a property is absent ([None]) or
    present; a present value is read for its truthiness only ([!!v]). *)
Module PartialFocusableProps.
Record t := {
  isDefault : option bool;
  isIgnored : option bool
}.
End PartialFocusableProps.

#[global] Instance FocusableGroupState_eq_dec :
  EqDecision FocusableGroupState.t.
Proof. solve_decision. Defined.

End Types.

Import Types.

(** ** The host tree

    Raw node-tree primitives belong to the host.  The document is a forest of
    element nodes (the document tree, and any detached subtrees); the
    primitives the source uses are read off it. *)

Local Unset Elimination Schemes.
Inductive DomNode := Node (el : HTMLElement) (kids : list DomNode).
Local Set Elimination Schemes.

Definition Document := list DomNode.

Definition nodeElement (t : DomNode) : HTMLElement :=
  let 'Node e _ := t in e.

Definition nodeKids (t : DomNode) : list DomNode :=
  let 'Node _ ks := t in ks.

(** The inclusive ancestors of [e] inside [t], nearest first:
    [e], [e.parentElement], ... up to the root of [t]. *)
Fixpoint pathTo (e : HTMLElement) (t : DomNode) : option (list HTMLElement) :=
  let 'Node i ks := t in
  if decide (i = e) then Some [i]
  else
    (fix inKids (ks : list DomNode) : option (list HTMLElement) :=
       match ks with
       | [] => None
       | k :: ks' =>
           match pathTo e k with
           | Some p => Some (p ++ [i])
           | None => inKids ks'
           end
       end) ks.

Fixpoint pathIn (e : HTMLElement) (d : Document) : option (list HTMLElement) :=
  match d with
  | [] => None
  | t :: d' =>
      match pathTo e t with
      | Some p => Some p
      | None => pathIn e d'
      end
  end.

(** The node of element [e]. *)
Fixpoint subtree (e : HTMLElement) (t : DomNode) : option DomNode :=
  let 'Node i ks := t in
  if decide (i = e) then Some t
  else
    (fix inKids (ks : list DomNode) : option DomNode :=
       match ks with
       | [] => None
       | k :: ks' =>
           match subtree e k with
           | Some r => Some r
           | None => inKids ks'
           end
       end) ks.

Fixpoint subtreeIn (e : HTMLElement) (d : Document) : option DomNode :=
  match d with
  | [] => None
  | t :: d' =>
      match subtree e t with
      | Some r => Some r
      | None => subtreeIn e d'
      end
  end.

(** The elements visited by [for (el = e; el; el = el.parentElement)].
    An element outside the forest is a detached element without parent. *)
Definition inclusiveAncestors (d : Document) (e : HTMLElement)
  : list HTMLElement :=
  default [e] (pathIn e d).

Definition parentElement (d : Document) (e : HTMLElement)
  : option HTMLElement :=
  match inclusiveAncestors d e with
  | _ :: p :: _ => Some p
  | _ => None
  end.

(** The elements visited by
    [for (c = e.firstElementChild; c; c = c.nextElementSibling)]. *)
Definition childElements (d : Document) (e : HTMLElement)
  : list HTMLElement :=
  match subtreeIn e d with
  | Some t => nodeElement <$> nodeKids t
  | None => []
  end.

Definition firstElementChild (d : Document) (e : HTMLElement)
  : option HTMLElement := head (childElements d e).

Definition lastElementChild (d : Document) (e : HTMLElement)
  : option HTMLElement := last (childElements d e).

(** The elements after the first occurrence of [e] in [l]. *)
Fixpoint elementsAfter (e : HTMLElement) (l : list HTMLElement)
  : list HTMLElement :=
  match l with
  | [] => []
  | x :: l' => if decide (x = e) then l' else elementsAfter e l'
  end.

(** The elements before the first occurrence of [e] in [l], nearest to [e]
    first; [acc] accumulates them. *)
Fixpoint elementsBefore (e : HTMLElement) (l acc : list HTMLElement)
  : list HTMLElement :=
  match l with
  | [] => []
  | x :: l' => if decide (x = e) then acc else elementsBefore e l' (x :: acc)
  end.

Definition siblingsOf (d : Document) (e : HTMLElement) : list HTMLElement :=
  match parentElement d e with
  | Some p => childElements d p
  | None => []
  end.

(** The elements visited by
    [for (s = e.nextElementSibling; s; s = s.nextElementSibling)]. *)
Definition nextSiblings (d : Document) (e : HTMLElement)
  : list HTMLElement := elementsAfter e (siblingsOf d e).

(** The elements visited by
    [for (s = e.previousElementSibling; s; s = s.previousElementSibling)]. *)
Definition previousSiblings (d : Document) (e : HTMLElement)
  : list HTMLElement := elementsBefore e (siblingsOf d e) [].

Definition nextElementSibling (d : Document) (e : HTMLElement)
  : option HTMLElement := head (nextSiblings d e).

Definition previousElementSibling (d : Document) (e : HTMLElement)
  : option HTMLElement := head (previousSiblings d e).

(** [a.contains(b)]: [a] is an inclusive ancestor of [b];
    [a.contains(null)] is false. *)
Definition contains (d : Document) (a : HTMLElement) (b : option HTMLElement)
  : bool :=
  match b with
  | Some b => bool_decide (a ∈ inclusiveAncestors d b)
  | None => false
  end.

(** The elements of a node in document order. *)
Fixpoint nodeElements (t : DomNode) : list HTMLElement :=
  let 'Node e ks := t in
  e :: (fix all (ks : list DomNode) : list HTMLElement :=
          match ks with
          | [] => []
          | k :: ks' => nodeElements k ++ all ks'
          end) ks.

(** The proper descendants of [e] in document order. *)
Definition descendants (d : Document) (e : HTMLElement) : list HTMLElement :=
  match subtreeIn e d with
  | Some t => mjoin (nodeElements <$> nodeKids t)
  | None => []
  end.

(** Every element occurs once in the forest. *)
Definition wellFormed (d : Document) : Prop :=
  NoDup (mjoin (nodeElements <$> d)).

(** In the forest [d] a child has the path of its parent behind it. *)
Definition childPathIn (d : list DomNode) : Prop :=
  ∀ p t' k, subtreeIn p d = Some t' → k ∈ nodeKids t' →
    ∃ rest, pathIn p d = Some (p :: rest)
            ∧ pathIn (nodeElement k) d = Some (nodeElement k :: p :: rest).

(** The number of elements of the forest. *)
Fixpoint nodeCount (t : DomNode) : nat :=
  let 'Node _ ks := t in
  S ((fix sum (ks : list DomNode) : nat :=
        match ks with
        | [] => 0
        | k :: ks' => nodeCount k + sum ks'
        end) ks).

Definition elementCount (d : Document) : nat :=
  foldr (λ t n, nodeCount t + n) 0 d.

(** ** Objects and the world *)

(** Modelled from the spec: the per-node side table of [Instance.ts]
    ([getAbilityHelpersOnElement] / [setAbilityHelpersOnElement]), "an
    explicit node-keyed mapping" with lookup, attach and detach.  Only the
    two entries this file reads and writes for groups are kept. *)
Record AbilityHelpersOnElement := {
  focusableGroup : option GroupRef;
  focusableGroupContainer : option ContainerRef
}.

(** Modelled from the spec: what [ModalityLayer.getLayerFor] resolves for a
    node, [{layer, root} | undefined], read only through [layer.userId],
    [layer.isAlwaysAccessible()] and [root.getCurrentLayerId()]. *)
Record LayerInfo := {
  layer_userId : string;
  layer_isAlwaysAccessible : bool;
  root_getCurrentLayerId : option string
}.

Module GroupObject.
(** The fields of a [FocusableGroup] instance; its [id] is its reference. *)
Record t := {
  _element : HTMLElement;
  _container : option ContainerRef;
  _props : FocusableGroupProps.t
}.
End GroupObject.

Module ContainerObject.
(** The fields of a [FocusableGroupContainer] instance.  [_visibleGroups]
    and [_prevVisibleGroups] hold references to objects that the source
    compares by identity and mutates in place; [visObjects] is the store of
    those objects and [nextVisObject] the next free reference.  A timer
    field is true while a timeout is pending. *)
Record t := Build {
  _element : HTMLElement;
  _current : option GroupRef;
  _prev : option GroupRef;
  _next : option GroupRef;
  _first : option GroupRef;
  _last : option GroupRef;
  _focused : option GroupRef;
  _unlimited : option GroupRef;
  _visibleGroups : nat;
  _hasFullyVisibleGroup : bool;
  _prevCurrent : option GroupRef;
  _prevPrev : option GroupRef;
  _prevNext : option GroupRef;
  _prevFirst : option GroupRef;
  _prevLast : option GroupRef;
  _prevFocused : option GroupRef;
  _prevUnlimited : option GroupRef;
  _prevVisibleGroups : nat;
  _onChangeTimer : bool;
  _updateVisibleTimer : bool;
  _groups : JsObj GroupRef;
  visObjects : gmap nat (JsObj ElementVisibility);
  nextVisObject : nat
}.

Definition set_current v c :=
  let 'Build a _ b2 b3 b4 b5 b6 b7 c1 c2 p1 p2 p3 p4 p5 p6 p7 p8 t1 t2 g s n := c in
  Build a v b2 b3 b4 b5 b6 b7 c1 c2 p1 p2 p3 p4 p5 p6 p7 p8 t1 t2 g s n.
Definition set_prev v c :=
  let 'Build a b1 _ b3 b4 b5 b6 b7 c1 c2 p1 p2 p3 p4 p5 p6 p7 p8 t1 t2 g s n := c in
  Build a b1 v b3 b4 b5 b6 b7 c1 c2 p1 p2 p3 p4 p5 p6 p7 p8 t1 t2 g s n.
Definition set_next v c :=
  let 'Build a b1 b2 _ b4 b5 b6 b7 c1 c2 p1 p2 p3 p4 p5 p6 p7 p8 t1 t2 g s n := c in
  Build a b1 b2 v b4 b5 b6 b7 c1 c2 p1 p2 p3 p4 p5 p6 p7 p8 t1 t2 g s n.
Definition set_first v c :=
  let 'Build a b1 b2 b3 _ b5 b6 b7 c1 c2 p1 p2 p3 p4 p5 p6 p7 p8 t1 t2 g s n := c in
  Build a b1 b2 b3 v b5 b6 b7 c1 c2 p1 p2 p3 p4 p5 p6 p7 p8 t1 t2 g s n.
Definition set_last v c :=
  let 'Build a b1 b2 b3 b4 _ b6 b7 c1 c2 p1 p2 p3 p4 p5 p6 p7 p8 t1 t2 g s n := c in
  Build a b1 b2 b3 b4 v b6 b7 c1 c2 p1 p2 p3 p4 p5 p6 p7 p8 t1 t2 g s n.
Definition set_focused v c :=
  let 'Build a b1 b2 b3 b4 b5 _ b7 c1 c2 p1 p2 p3 p4 p5 p6 p7 p8 t1 t2 g s n := c in
  Build a b1 b2 b3 b4 b5 v b7 c1 c2 p1 p2 p3 p4 p5 p6 p7 p8 t1 t2 g s n.
Definition set_unlimited v c :=
  let 'Build a b1 b2 b3 b4 b5 b6 _ c1 c2 p1 p2 p3 p4 p5 p6 p7 p8 t1 t2 g s n := c in
  Build a b1 b2 b3 b4 b5 b6 v c1 c2 p1 p2 p3 p4 p5 p6 p7 p8 t1 t2 g s n.
Definition set_visibleGroups v c :=
  let 'Build a b1 b2 b3 b4 b5 b6 b7 _ c2 p1 p2 p3 p4 p5 p6 p7 p8 t1 t2 g s n := c in
  Build a b1 b2 b3 b4 b5 b6 b7 v c2 p1 p2 p3 p4 p5 p6 p7 p8 t1 t2 g s n.
Definition set_hasFullyVisibleGroup v c :=
  let 'Build a b1 b2 b3 b4 b5 b6 b7 c1 _ p1 p2 p3 p4 p5 p6 p7 p8 t1 t2 g s n := c in
  Build a b1 b2 b3 b4 b5 b6 b7 c1 v p1 p2 p3 p4 p5 p6 p7 p8 t1 t2 g s n.
Definition set_prevCurrent v c :=
  let 'Build a b1 b2 b3 b4 b5 b6 b7 c1 c2 _ p2 p3 p4 p5 p6 p7 p8 t1 t2 g s n := c in
  Build a b1 b2 b3 b4 b5 b6 b7 c1 c2 v p2 p3 p4 p5 p6 p7 p8 t1 t2 g s n.
Definition set_prevPrev v c :=
  let 'Build a b1 b2 b3 b4 b5 b6 b7 c1 c2 p1 _ p3 p4 p5 p6 p7 p8 t1 t2 g s n := c in
  Build a b1 b2 b3 b4 b5 b6 b7 c1 c2 p1 v p3 p4 p5 p6 p7 p8 t1 t2 g s n.
Definition set_prevNext v c :=
  let 'Build a b1 b2 b3 b4 b5 b6 b7 c1 c2 p1 p2 _ p4 p5 p6 p7 p8 t1 t2 g s n := c in
  Build a b1 b2 b3 b4 b5 b6 b7 c1 c2 p1 p2 v p4 p5 p6 p7 p8 t1 t2 g s n.
Definition set_prevFirst v c :=
  let 'Build a b1 b2 b3 b4 b5 b6 b7 c1 c2 p1 p2 p3 _ p5 p6 p7 p8 t1 t2 g s n := c in
  Build a b1 b2 b3 b4 b5 b6 b7 c1 c2 p1 p2 p3 v p5 p6 p7 p8 t1 t2 g s n.
Definition set_prevLast v c :=
  let 'Build a b1 b2 b3 b4 b5 b6 b7 c1 c2 p1 p2 p3 p4 _ p6 p7 p8 t1 t2 g s n := c in
  Build a b1 b2 b3 b4 b5 b6 b7 c1 c2 p1 p2 p3 p4 v p6 p7 p8 t1 t2 g s n.
Definition set_prevFocused v c :=
  let 'Build a b1 b2 b3 b4 b5 b6 b7 c1 c2 p1 p2 p3 p4 p5 _ p7 p8 t1 t2 g s n := c in
  Build a b1 b2 b3 b4 b5 b6 b7 c1 c2 p1 p2 p3 p4 p5 v p7 p8 t1 t2 g s n.
Definition set_prevUnlimited v c :=
  let 'Build a b1 b2 b3 b4 b5 b6 b7 c1 c2 p1 p2 p3 p4 p5 p6 _ p8 t1 t2 g s n := c in
  Build a b1 b2 b3 b4 b5 b6 b7 c1 c2 p1 p2 p3 p4 p5 p6 v p8 t1 t2 g s n.
Definition set_prevVisibleGroups v c :=
  let 'Build a b1 b2 b3 b4 b5 b6 b7 c1 c2 p1 p2 p3 p4 p5 p6 p7 _ t1 t2 g s n := c in
  Build a b1 b2 b3 b4 b5 b6 b7 c1 c2 p1 p2 p3 p4 p5 p6 p7 v t1 t2 g s n.
Definition set_onChangeTimer v c :=
  let 'Build a b1 b2 b3 b4 b5 b6 b7 c1 c2 p1 p2 p3 p4 p5 p6 p7 p8 _ t2 g s n := c in
  Build a b1 b2 b3 b4 b5 b6 b7 c1 c2 p1 p2 p3 p4 p5 p6 p7 p8 v t2 g s n.
Definition set_updateVisibleTimer v c :=
  let 'Build a b1 b2 b3 b4 b5 b6 b7 c1 c2 p1 p2 p3 p4 p5 p6 p7 p8 t1 _ g s n := c in
  Build a b1 b2 b3 b4 b5 b6 b7 c1 c2 p1 p2 p3 p4 p5 p6 p7 p8 t1 v g s n.
Definition set_groups v c :=
  let 'Build a b1 b2 b3 b4 b5 b6 b7 c1 c2 p1 p2 p3 p4 p5 p6 p7 p8 t1 t2 _ s n := c in
  Build a b1 b2 b3 b4 b5 b6 b7 c1 c2 p1 p2 p3 p4 p5 p6 p7 p8 t1 t2 v s n.
Definition set_visObjects v c :=
  let 'Build a b1 b2 b3 b4 b5 b6 b7 c1 c2 p1 p2 p3 p4 p5 p6 p7 p8 t1 t2 g _ n := c in
  Build a b1 b2 b3 b4 b5 b6 b7 c1 c2 p1 p2 p3 p4 p5 p6 p7 p8 t1 t2 g v n.
Definition set_nextVisObject v c :=
  let 'Build a b1 b2 b3 b4 b5 b6 b7 c1 c2 p1 p2 p3 p4 p5 p6 p7 p8 t1 t2 g s _ := c in
  Build a b1 b2 b3 b4 b5 b6 b7 c1 c2 p1 p2 p3 p4 p5 p6 p7 p8 t1 t2 g s v.
End ContainerObject.

(** The world: the host tree and what the host answers about it, the side
    table, the two object heaps, the module-level variables of the file and
    the trace of the change callbacks invoked so far. *)
Record World := BuildWorld {
  document : Document;
  abilityHelpers : gmap HTMLElement AbilityHelpersOnElement;
  groupObjects : gmap GroupRef GroupObject.t;
  containerObjects : gmap ContainerRef ContainerObject.t;
  (** [FocusableGroupContainer._containers] *)
  _containers : JsObj ContainerRef;
  _focusedGroups : JsObj GroupRef;
  _lastId : nat;
  (** [Focusable._body], the default context of the find operations *)
  _body : option HTMLElement;
  (** Modelled from the spec: [ModalityLayer.getLayerFor] of
      [ModalityLayer.ts], "getLayerFor(node) -> {layer, root} | undefined". *)
  getLayerFor : HTMLElement → option LayerInfo;
  (** Modelled from the spec: the Visibility Classifier of [Utils.ts]. *)
  isElementVisibleInContainer : HTMLElement → ElementVisibility;
  (** whether [_init] has registered [_onMutation] on the document *)
  mutationListener : bool;
  onChangeCalls : list (GroupRef * FocusableGroupState.t)
}.

Definition set_abilityHelpers v w :=
  let 'BuildWorld d _ g c r f l b y z m t := w in
  BuildWorld d v g c r f l b y z m t.
Definition set_groupObjects v w :=
  let 'BuildWorld d a _ c r f l b y z m t := w in
  BuildWorld d a v c r f l b y z m t.
Definition set_containerObjects v w :=
  let 'BuildWorld d a g _ r f l b y z m t := w in
  BuildWorld d a g v r f l b y z m t.
Definition set_containers v w :=
  let 'BuildWorld d a g c _ f l b y z m t := w in
  BuildWorld d a g c v f l b y z m t.
Definition set_focusedGroups v w :=
  let 'BuildWorld d a g c r _ l b y z m t := w in
  BuildWorld d a g c r v l b y z m t.
Definition set_lastId v w :=
  let 'BuildWorld d a g c r f _ b y z m t := w in
  BuildWorld d a g c r f v b y z m t.
Definition set_onChangeCalls v w :=
  let 'BuildWorld d a g c r f l b y z m _ := w in
  BuildWorld d a g c r f l b y z m v.

(** [ah && ah.focusableGroup] for [ah = getAbilityHelpersOnElement(e)]. *)
Definition groupOn (w : World) (e : HTMLElement) : option GroupRef :=
  abilityHelpers w !! e ≫= focusableGroup.

(** [ah && ah.focusableGroupContainer]. *)
Definition containerOn (w : World) (e : HTMLElement) : option ContainerRef :=
  abilityHelpers w !! e ≫= focusableGroupContainer.

Definition noHelpers : AbilityHelpersOnElement :=
  {| focusableGroup := None; focusableGroupContainer := None |}.

(** [setAbilityHelpersOnElement(e, { focusableGroup: v })]. *)
Definition setGroupOn (e : HTMLElement) (v : option GroupRef) (w : World)
  : World :=
  let ah := default noHelpers (abilityHelpers w !! e) in
  set_abilityHelpers
    (<[e := {| focusableGroup := v;
               focusableGroupContainer := focusableGroupContainer ah |}]>
       (abilityHelpers w)) w.

(** [setAbilityHelpersOnElement(e, { focusableGroupContainer: v })]. *)
Definition setContainerOn (e : HTMLElement) (v : option ContainerRef)
  (w : World) : World :=
  let ah := default noHelpers (abilityHelpers w !! e) in
  set_abilityHelpers
    (<[e := {| focusableGroup := focusableGroup ah;
               focusableGroupContainer := v |}]>
       (abilityHelpers w)) w.

(** [g.getElement()] and [g.getProps()] through the heap. *)
Definition getElement (w : World) (g : GroupRef) : option HTMLElement :=
  GroupObject._element <$> groupObjects w !! g.

Definition getProps (w : World) (g : GroupRef) : FocusableGroupProps.t :=
  default FocusableGroupProps.empty (GroupObject._props <$> groupObjects w !! g).

(** ** class FocusableGroupContainer

    A method that only touches its own instance is a function from the
    instance to the instance; the world is read for the host tree, the side
    table and the group objects. *)

Module FocusableGroupContainer.
Import ContainerObject.

(** [new FocusableGroupContainer(element, props)]: the instance itself
    (the registration on the element is done by [construct] below). *)
Definition create (element : HTMLElement) : t :=
  {| _element := element;
     _current := None; _prev := None; _next := None;
     _first := None; _last := None; _focused := None; _unlimited := None;
     _visibleGroups := 0; _hasFullyVisibleGroup := false;
     _prevCurrent := None; _prevPrev := None; _prevNext := None;
     _prevFirst := None; _prevLast := None; _prevFocused := None;
     _prevUnlimited := None;
     _prevVisibleGroups := 1;
     _onChangeTimer := false; _updateVisibleTimer := false;
     _groups := [];
     visObjects := {[ 0 := []; 1 := [] ]};
     nextVisObject := 2 |}.

(** The object behind a reference of the visibility store. *)
Definition visObject (c : t) (r : nat) : JsObj ElementVisibility :=
  default [] (visObjects c !! r).

(** [delete obj[id]] on the object behind [r]. *)
Definition visDelete (id : GroupRef) (r : nat) (c : t) : t :=
  set_visObjects (<[r := obj_delete id (visObject c r)]> (visObjects c)) c.

(** [_processOnChange]: arms the change-propagation timeout unless one is
    pending; the body of the timeout is [onChangeTimeout] below. *)
Definition _processOnChange (c : t) : t :=
  if _onChangeTimer c then c else set_onChangeTimer true c.

(** [_updateVisible]: arms the visibility timeout unless one is pending;
    the body of the timeout is [updateVisibleTimeout] below. *)
Definition _updateVisible (c : t) : t :=
  if _updateVisibleTimer c then c else set_updateVisibleTimer true c.

(** The test of both loops of [_setFirstLast]:
    [ah && ah.focusableGroup && (ah.focusableGroup.id in this._groups)]. *)
Definition memberOn (w : World) (c : t) (e : HTMLElement)
  : option GroupRef :=
  g ← groupOn w e; if obj_has g (_groups c) then Some g else None.

Definition _setFirstLast (w : World) (c : t) : t :=
  let c := set_first None c in
  let c := set_last None c in
  let kids := childElements (document w) (_element c) in
  let c := set_first (head (omap (memberOn w c) kids)) c in
  let c := set_last (head (omap (memberOn w c) (reverse kids))) c in
  _processOnChange c.

Definition addGroup (w : World) (c : t) (group : GroupRef) : t :=
  let c := set_groups (obj_set group group (_groups c)) c in
  let c := _setFirstLast w c in
  _updateVisible c.

Definition removeGroup (w : World) (c : t) (group : GroupRef) : t :=
  let c := set_groups (obj_delete group (_groups c)) c in
  let c := visDelete group (_visibleGroups c) c in
  let c := visDelete group (_prevVisibleGroups c) c in
  let c := _setFirstLast w c in
  _updateVisible c.

Definition setFocusedGroup (c : t) (group : option GroupRef) : t :=
  if decide (group ≠ _focused c)
  then _processOnChange (set_focused group c)
  else c.

Definition setUnlimitedGroup (c : t) (group : option GroupRef) : t :=
  if decide (group ≠ _unlimited c)
  then _processOnChange (set_unlimited group c)
  else c.

Definition setCurrentGroup (w : World) (c : t) (group : GroupRef) : t :=
  let c := set_current
             (if obj_has group (_groups c) then Some group else None) c in
  let c := set_prev None c in
  let c := set_next None c in
  let curElement := _current c ≫= getElement w in
  let c :=
    match curElement with
    | Some curElement =>
        if decide (parentElement (document w) curElement = Some (_element c))
        then
          let c := set_prev
                     (head (omap (groupOn w)
                              (previousSiblings (document w) curElement))) c in
          set_next
            (head (omap (groupOn w)
                     (nextSiblings (document w) curElement))) c
        else c
    | None => c
    end in
  _processOnChange c.

(** Returns the instance too: a stale [_current] is reset by the read. *)
Definition getCurrentGroup (c : t) : t * option GroupRef :=
  match _current c with
  | Some g =>
      if obj_has g (_groups c) then (c, Some g)
      else (set_current None c, None)
  | None => (set_current None c, None)
  end.

Definition getGroupState (w : World) (c : t) (group : GroupRef)
  : FocusableGroupState.t :=
  let props := getProps w group in
  let isLimited := FocusableGroupProps.isLimited props in
  let isVisible :=
    default Invisible (obj_get group (visObject c (_visibleGroups c))) in
  let isCurrent :=
    match _current c with
    | Some cur => Some (bool_decide (cur = group))
    | None => None
    end in
  let isCurrent :=
    if bool_decide (isCurrent = None)
       && bool_decide (FocusableGroupProps.lookupVisibility props
                       ≠ Some Invisible)
    then
      if bool_decide (isVisible = Invisible)
         || (_hasFullyVisibleGroup c
             && bool_decide (isVisible = PartiallyVisible))
      then Some false
      else isCurrent
    else isCurrent in
  {| FocusableGroupState.isCurrent := isCurrent;
     FocusableGroupState.isPrevious := bool_decide (_prev c = Some group);
     FocusableGroupState.isNext := bool_decide (_next c = Some group);
     FocusableGroupState.isFirst := bool_decide (_first c = Some group);
     FocusableGroupState.isLast := bool_decide (_last c = Some group);
     FocusableGroupState.isVisible := isVisible;
     FocusableGroupState.hasFocus := bool_decide (_focused c = Some group);
     FocusableGroupState.siblingHasFocus :=
       bool_decide (_focused c ≠ None)
       && bool_decide (_focused c ≠ Some group);
     FocusableGroupState.isLimited :=
       if bool_decide (isLimited = Some Limited)
          || bool_decide (isLimited = Some LimitedTrapFocus)
       then bool_decide (_unlimited c ≠ Some group)
       else false |}.

Definition isEmpty (c : t) : bool :=
  bool_decide (length (obj_keys (_groups c)) = 0).

(** The body of the timeout armed by [_updateVisible]. *)
Definition updateVisibleTimeout (w : World) (c : t) : t :=
  let c := set_updateVisibleTimer false c in
  let step (acc : bool * JsObj ElementVisibility) (id : nat) :=
    let '(isChanged, visibleGroups) := acc in
    let isVisible :=
      match obj_get id (_groups c) ≫= getElement w with
      | Some e => isElementVisibleInContainer w e
      | None => Invisible
      end in
    let curIsVisible :=
      default Invisible (obj_get id (visObject c (_visibleGroups c))) in
    let visibleGroups :=
      if decide (isVisible ≠ Invisible)
      then obj_set id isVisible visibleGroups else visibleGroups in
    (if decide (curIsVisible ≠ isVisible) then true else isChanged,
     visibleGroups) in
  let '(isChanged, visibleGroups) :=
    foldl step (false, []) (obj_keys (_groups c)) in
  if isChanged then
    let r := nextVisObject c in
    let c := set_nextVisObject (S r) c in
    let c := set_visObjects (<[r := visibleGroups]> (visObjects c)) c in
    let c := set_prevVisibleGroups (_visibleGroups c) c in
    let c := set_visibleGroups r c in
    _processOnChange c
  else c.

(** [g.getState()] of class [FocusableGroup], placed here because the
    timeout below passes it to the change callback.  A group reference
    always denotes an object whose container, when set, exists. *)
Definition defaultState : FocusableGroupState.t :=
  {| FocusableGroupState.isCurrent := None;
     FocusableGroupState.isPrevious := false;
     FocusableGroupState.isNext := false;
     FocusableGroupState.isFirst := false;
     FocusableGroupState.isLast := false;
     FocusableGroupState.isVisible := Invisible;
     FocusableGroupState.hasFocus := false;
     FocusableGroupState.siblingHasFocus := false;
     FocusableGroupState.isLimited := false |}.

Definition groupGetState (w : World) (g : GroupRef)
  : FocusableGroupState.t :=
  match groupObjects w !! g ≫= GroupObject._container with
  | Some r =>
      match containerObjects w !! r with
      | Some c => getGroupState w c g
      | None => defaultState
      end
  | None => defaultState
  end.

(** One comparison of a pointer with its snapshot:
    [if (prev !== cur) { changed.push(prev); changed.push(cur); prev = cur; }]
    for the fields read by [prev] and [cur]. *)
Definition comparePointer (cur prev : t → option GroupRef)
  (setPrev : option GroupRef → t → t)
  (acc : t * list (option GroupRef)) : t * list (option GroupRef) :=
  let '(c, changed) := acc in
  if decide (prev c ≠ cur c)
  then (setPrev (cur c) c, changed ++ [prev c; cur c])
  else (c, changed).

(** The comparison of [_focused]: every member is collected, and the current
    group is forgotten when focus left a group that does not memorize it. *)
Definition compareFocused (w : World)
  (acc : t * list (option GroupRef)) : t * list (option GroupRef) :=
  let '(c, changed) := acc in
  if decide (_prevFocused c ≠ _focused c) then
    let changed :=
      changed ++ ((λ id, obj_get id (_groups c)) <$> obj_keys (_groups c)) in
    let c :=
      match _focused c, _prevFocused c with
      | None, Some pf =>
          if negb (FocusableGroupProps.memorizeCurrent (getProps w pf))
          then set_next None (set_prev None (set_current None c))
          else c
      | _, _ => c
      end in
    (set_prevFocused (_focused c) c, changed)
  else (c, changed).

(** Body of the loop over [Object.keys(this._visibleGroups)]. *)
Definition compareVisibleEntry (vis prevVis : JsObj ElementVisibility)
  (acc : t * list (option GroupRef)) (id : nat)
  : t * list (option GroupRef) :=
  let '(c, changed) := acc in
  let isVisible := obj_get id vis in
  let changed :=
    if decide (isVisible ≠ obj_get id prevVis)
    then changed ++ [obj_get id (_groups c)] else changed in
  let c :=
    if decide (isVisible = Some Visible)
    then set_hasFullyVisibleGroup true c else c in
  (c, changed).

(** Body of the loop over [Object.keys(this._prevVisibleGroups)]. *)
Definition comparePrevVisibleEntry (c : t)
  (vis prevVis : JsObj ElementVisibility)
  (changed : list (option GroupRef)) (id : nat) : list (option GroupRef) :=
  if decide (obj_get id vis ≠ obj_get id prevVis)
  then changed ++ [obj_get id (_groups c)] else changed.

(** The comparison of the two visibility objects, by identity first. *)
Definition compareVisible
  (acc : t * list (option GroupRef)) : t * list (option GroupRef) :=
  let '(c, changed) := acc in
  if decide (_visibleGroups c ≠ _prevVisibleGroups c) then
    let vis := visObject c (_visibleGroups c) in
    let prevVis := visObject c (_prevVisibleGroups c) in
    let c := set_hasFullyVisibleGroup false c in
    let '(c, changed) :=
      foldl (compareVisibleEntry vis prevVis) (c, changed) (obj_keys vis) in
    let changed :=
      foldl (comparePrevVisibleEntry c vis prevVis) changed
        (obj_keys prevVis) in
    (set_prevVisibleGroups (_visibleGroups c) c, changed)
  else (c, changed).

(** The first part of the timeout of [_processOnChange]: the comparisons
    with the snapshot.  Returns the updated instance and [changed]. *)
Definition collectChanged (w : World) (c : t)
  : t * list (option GroupRef) :=
  let acc := (set_onChangeTimer false c, []) in
  let acc := compareFocused w acc in
  let acc := comparePointer _current _prevCurrent set_prevCurrent acc in
  let acc := comparePointer _prev _prevPrev set_prevPrev acc in
  let acc := comparePointer _next _prevNext set_prevNext acc in
  let acc := comparePointer _first _prevFirst set_prevFirst acc in
  let acc := comparePointer _last _prevLast set_prevLast acc in
  let acc := comparePointer _unlimited _prevUnlimited set_prevUnlimited acc in
  compareVisible acc.

(** [changed.filter(c => (c && this._groups[c.id]))]. *)
Definition filterMembers (c : t) (changed : list (option GroupRef))
  : list GroupRef :=
  omap (λ x : option GroupRef,
          g ← x; if obj_has g (_groups c) then Some g else None) changed.

(** The final loop of the timeout: every group of the filtered list that
    is not yet in [processed] is marked and, when it has a change
    callback, the callback is invoked with [g.getState()].  Returns the
    invocations in order. *)
Fixpoint notify (w : World) (processed : list GroupRef)
  (gs : list GroupRef) : list (GroupRef * FocusableGroupState.t) :=
  match gs with
  | [] => []
  | g :: gs' =>
      if bool_decide (g ∈ processed) then notify w processed gs'
      else
        let calls := notify w (g :: processed) gs' in
        if FocusableGroupProps.onChange (getProps w g)
        then (g, groupGetState w g) :: calls
        else calls
  end.

(** The body of the timeout armed by [_processOnChange], run for the
    container behind [r]; the callbacks invoked are appended to the trace. *)
Definition onChangeTimeout (w : World) (r : ContainerRef) : World :=
  match containerObjects w !! r with
  | Some c =>
      let '(c, changed) := collectChanged w c in
      let w := set_containerObjects (<[r := c]> (containerObjects w)) w in
      set_onChangeCalls
        (onChangeCalls w ++ notify w [] (filterMembers c changed)) w
  | None => w
  end.

(** [new FocusableGroupContainer(element, props)] on the world: a fresh
    id, the registration on the element and in [_containers]. *)
Definition construct (w : World) (element : HTMLElement)
  : World * ContainerRef :=
  let id := S (_lastId w) in
  let w := set_lastId id w in
  let w := set_containerObjects
             (<[id := create element]> (containerObjects w)) w in
  let w := setContainerOn element (Some id) w in
  let w := set_containers (obj_set id id (_containers w)) w in
  (w, id).

(** [dispose()] of the container behind [r].  The instance stays in the
    heap: a group may still hold a reference to it. *)
Definition dispose (w : World) (r : ContainerRef) : World :=
  match containerObjects w !! r with
  | Some c =>
      let c := set_groups [] c in
      let c :=
        if _updateVisibleTimer c then set_updateVisibleTimer false c else c in
      let w := set_containerObjects (<[r := c]> (containerObjects w)) w in
      let w := setContainerOn (_element c) None w in
      set_containers (obj_delete r (_containers w)) w
  | None => w
  end.

(** The body of the inner loop of the static [updateVisible], for the
    scrolled node [s] and one entry of [_containers]. *)
Definition collectScrolled (w : World) (s : HTMLElement)
  (containers : JsObj ContainerRef) (entry : nat * ContainerRef)
  : JsObj ContainerRef :=
  match containerObjects w !! entry.2 with
  | Some container =>
      if contains (document w) s (Some (_element container))
      then obj_set entry.2 entry.2 containers
      else containers
  | None => containers
  end.

(** The static [updateVisible(scrolled)], for scrolled nodes that are
    elements. *)
Definition updateVisible (w : World) (scrolled : list HTMLElement) : World :=
  let containers :=
    foldl (λ containers s, foldl (collectScrolled w s) containers (_containers w))
          [] scrolled in
  foldl (λ w (entry : nat * ContainerRef),
           match containerObjects w !! entry.2 with
           | Some container =>
               set_containerObjects
                 (<[entry.2 := _updateVisible container]> (containerObjects w))
                 w
           | None => w
           end)
        w containers.

End FocusableGroupContainer.

(** Runs a method of the container behind [r] and stores the instance. *)
Definition onContainer (r : ContainerRef)
  (f : ContainerObject.t → ContainerObject.t) (w : World) : World :=
  match containerObjects w !! r with
  | Some c => set_containerObjects (<[r := f c]> (containerObjects w)) w
  | None => w
  end.

(** ** class FocusableGroup *)

Module FocusableGroup.
Import GroupObject.

Definition getState := FocusableGroupContainer.groupGetState.

Definition containerOf (w : World) (g : GroupRef) : option ContainerRef :=
  groupObjects w !! g ≫= _container.

Definition makeCurrent (w : World) (g : GroupRef) : World :=
  match containerOf w g with
  | Some r =>
      onContainer r (λ c, FocusableGroupContainer.setCurrentGroup w c g) w
  | None => w
  end.

Definition setFocused (w : World) (g : GroupRef) (focused : bool) : World :=
  match containerOf w g with
  | Some r =>
      onContainer r
        (λ c, FocusableGroupContainer.setFocusedGroup c
                (if focused then Some g else None)) w
  | None => w
  end.

(** The guard of [setUnlimited]:
    [isLimited === Limited || isLimited === LimitedTrapFocus]. *)
Definition limitedMode (w : World) (g : GroupRef) : bool :=
  bool_decide (FocusableGroupProps.isLimited (getProps w g) = Some Limited)
  || bool_decide (FocusableGroupProps.isLimited (getProps w g)
                  = Some LimitedTrapFocus).

Definition setUnlimited (w : World) (g : GroupRef) (unlimited : bool)
  : World :=
  match containerOf w g with
  | Some r =>
      if limitedMode w g then
        onContainer r
          (λ c, FocusableGroupContainer.setUnlimitedGroup c
                  (if unlimited then Some g else None)) w
      else w
  | None => w
  end.

Definition set_container (g : GroupRef) (v : option ContainerRef)
  (w : World) : World :=
  match groupObjects w !! g with
  | Some o =>
      set_groupObjects
        (<[g := {| _element := _element o; _container := v;
                   _props := _props o |}]> (groupObjects w)) w
  | None => w
  end.

Definition set_element (g : GroupRef) (v : HTMLElement) (w : World)
  : World :=
  match groupObjects w !! g with
  | Some o =>
      set_groupObjects
        (<[g := {| _element := v; _container := _container o;
                   _props := _props o |}]> (groupObjects w)) w
  | None => w
  end.

Definition setupContainer (w : World) (g : GroupRef) (remove : bool)
  : World :=
  match groupObjects w !! g with
  | None => w
  | Some o =>
      let containerElement := parentElement (document w) (_element o) in
      let curContainer := _container o in
      let '(w, container) :=
        match containerElement with
        | Some containerElement =>
            match containerOn w containerElement with
            | Some r => (w, Some r)
            | None =>
                if remove then (w, None)
                else
                  let '(w, r) :=
                    FocusableGroupContainer.construct w containerElement in
                  (w, Some r)
            end
        | None => (w, None)
        end in
      if decide (curContainer ≠ container) then
        let w :=
          match curContainer with
          | Some r =>
              onContainer r
                (λ c, FocusableGroupContainer.removeGroup w c g) w
          | None => w
          end in
        let w := set_container g container w in
        match container with
        | Some r =>
            if remove then w
            else onContainer r
                   (λ c, FocusableGroupContainer.addGroup w c g) w
        | None => w
        end
      else w
  end.

(** [new FocusableGroup(element, props)]. *)
Definition construct (w : World) (element : HTMLElement)
  (props : FocusableGroupProps.t) : World * GroupRef :=
  let id := S (_lastId w) in
  let w := set_lastId id w in
  let w := set_groupObjects
             (<[id := {| _element := element; _container := None;
                         _props := props |}]> (groupObjects w)) w in
  let w := setGroupOn element (Some id) w in
  (setupContainer w id false, id).

Definition dispose (w : World) (g : GroupRef) : World :=
  let w := setupContainer w g true in
  match getElement w g with
  | Some e => setGroupOn e None w
  | None => w
  end.

Definition moveTo (w : World) (g : GroupRef) (newElement : HTMLElement)
  : World :=
  if decide (getElement w g ≠ Some newElement) then
    let w := setupContainer w g true in
    let w := set_element g newElement w in
    setupContainer w g false
  else w.

End FocusableGroup.

(** ** The tree walker

    Modelled from the spec: the Tree Walker Adapter ([createElementTreeWalker]
    of [Utils.ts] over the host's TreeWalker), "a filtered forward cursor
    over nodes, given an accept/reject/skip predicate".  [nextNode] from the
    root visits the descendants in document order: an accepted node is
    returned, a rejected node is passed over with its subtree, a skipped node
    is passed over and its children are visited.  The filter may yield no
    result (see [_isInCurrentGroup]); then the walk yields none either. *)

Inductive FilterResult := FILTER_ACCEPT | FILTER_REJECT | FILTER_SKIP.

#[global] Instance FilterResult_eq_dec : EqDecision FilterResult.
Proof. solve_decision. Defined.

Fixpoint walkNode (filter : HTMLElement → option FilterResult) (t : DomNode)
  : option (option HTMLElement) :=
  let 'Node e ks := t in
  r ← filter e;
  match r with
  | FILTER_ACCEPT => Some (Some e)
  | FILTER_REJECT => Some None
  | FILTER_SKIP =>
      (fix walkKids (ks : list DomNode) : option (option HTMLElement) :=
         match ks with
         | [] => Some None
         | k :: ks' =>
             found ← walkNode filter k;
             match found with
             | Some x => Some (Some x)
             | None => walkKids ks'
             end
         end) ks
  end.

Fixpoint walkNodes (filter : HTMLElement → option FilterResult)
  (ks : list DomNode) : option (option HTMLElement) :=
  match ks with
  | [] => Some None
  | k :: ks' =>
      found ← walkNode filter k;
      match found with
      | Some x => Some (Some x)
      | None => walkNodes filter ks'
      end
  end.

(** [walker.nextNode()] of a fresh walker rooted at [root]. *)
Definition nextNodeFromRoot (d : Document)
  (filter : HTMLElement → option FilterResult) (root : HTMLElement)
  : option (option HTMLElement) :=
  match subtreeIn root d with
  | Some t => walkNodes filter (nodeKids t)
  | None => Some None
  end.

(** ** class Focusable *)

(** A thrown [Error], or a normal return. *)
Inductive Result (A : Type) := Ok (a : A) | Throw (message : string).
Arguments Ok {A} a.
Arguments Throw {A} message.

(** [this._ah.focusable]: the object of interface [Types.Focusable] held by
    the [AbilityHelpers] instance, which is built outside this file.  The
    two methods called through it read the world and return. *)
Record FocusableApi := {
  api_isFocusable :
    World → HTMLElement → ∀ includeProgrammaticallyFocusable : bool, bool;
  api_findFirst :
    World → HTMLElement →
    ∀ includeProgrammaticallyFocusable ignoreLayer ignoreGroup : bool,
      option HTMLElement
}.

(** What the host answers about an element to [isFocusable], [isVisible]
    and [isAccessible]. *)
Record Host := {
  (** [el.matches && el.matches(_focusableSelector)] *)
  host_matchesFocusable : HTMLElement → bool;
  host_tabIndex : HTMLElement → Z;
  host_offsetParent : HTMLElement → option HTMLElement;
  (** [el.ownerDocument && el.ownerDocument.defaultView] is truthy *)
  host_defaultView : HTMLElement → bool;
  (** [getComputedStyle(el).visibility] *)
  host_visibility : HTMLElement → string;
  host_getAttribute : HTMLElement → string → option string;
  (** Modelled from the spec: the [modalityLayer] entry of the side table,
      consumed through "layer.isActive()": [Some b] for an element that
      carries a layer whose [isActive()] answers [b]. *)
  host_modalityLayerIsActive : HTMLElement → option bool
}.

(** [String.prototype.toLowerCase] on the letters A to Z, which are the
    only characters that lowercase to a letter of ['true']. *)
Definition lowerAscii (c : Ascii.ascii) : Ascii.ascii :=
  let n := Ascii.nat_of_ascii c in
  if bool_decide (65 ≤ n ≤ 90) then Ascii.ascii_of_nat (n + 32) else c.

Fixpoint toLowerCase (s : string) : string :=
  match s with
  | EmptyString => EmptyString
  | String c s' => String (lowerAscii c) (toLowerCase s')
  end.

Module FocusableObject.
(** The fields of a [Focusable] instance that the scroll handler uses, and
    the timeouts of the main window that the handler has pending
    ([setTimeout] appends a fresh id, [clearTimeout] removes one;
    [_scrollTimer] holds the id of a timeout).  The handles of [setTimeout]
    are positive numbers, so that [if (this._scrollTimer)] tests whether the
    field holds a handle; the id [n] stands for the [n]-th handle handed
    out. *)
Record t := {
  _mainWindow : bool;
  _scrollTimer : option nat;
  _scrollTargets : list HTMLElement;
  pendingTimeouts : list nat;
  nextTimeout : nat
}.
End FocusableObject.

Module Focusable.

Section WithAbilityHelpers.

Variable ah_focusable : FocusableApi.

Definition _getGroupFirst (w : World) (groupElement : HTMLElement)
  (ignoreGroup : bool) : option HTMLElement :=
  if api_isFocusable ah_focusable w groupElement false
  then Some groupElement
  else api_findFirst ah_focusable w groupElement false false ignoreGroup.

Definition _findGroup (w : World) (element : HTMLElement)
  : option GroupRef :=
  head (omap (groupOn w) (inclusiveAncestors (document w) element)).

(** The [while (group)] loop of [_isInCurrentGroup].  The world is only
    read, and each round is determined by [group] alone
    ([groupElement] is [group.getElement()]), so a run that meets a
    group twice never ends; [fuel] bounds the rounds. *)
Fixpoint _isInCurrentGroup_loop (fuel : nat) (w : World)
  (unlimitedOnly isValidForLimited : bool)
  (group : GroupRef) (groupElement : HTMLElement) : option bool :=
  match fuel with
  | 0 => None
  | S fuel =>
      let state := FocusableGroup.getState w group in
      if decide (FocusableGroupState.isCurrent state = Some false)
      then Some false
      else if unlimitedOnly && FocusableGroupState.isLimited state
              && negb isValidForLimited
      then Some false
      else
        match parentElement (document w) groupElement with
        | None => Some true
        | Some parentEl =>
            match _findGroup w parentEl with
            | None => Some true
            | Some group =>
                groupElement ← getElement w group;
                _isInCurrentGroup_loop fuel w unlimitedOnly
                  isValidForLimited group groupElement
            end
        end
  end.

(** [Some b]: the source returns [b].  [None]: the loop did not end within
    the rounds allowed.  From its second round on the loop only meets groups
    owned by elements of the forest, so a run of more than
    [elementCount + 1] rounds meets a group twice. *)
Definition _isInCurrentGroup (w : World) (element : HTMLElement)
  (unlimitedOnly : bool) : option bool :=
  match _findGroup w element with
  | None => Some true
  | Some group =>
      groupElement ← getElement w group;
      let isValidForLimited :=
        if unlimitedOnly
        then contains (document w) element
               (_getGroupFirst w groupElement true)
        else false in
      _isInCurrentGroup_loop (S (S (elementCount (document w)))) w
        unlimitedOnly isValidForLimited group groupElement
  end.

Definition isInCurrentGroup (w : World) (element : HTMLElement)
  : option bool :=
  _isInCurrentGroup w element false.

Definition _acceptElement (w : World) (element : HTMLElement)
  (acceptCondition : HTMLElement → bool) (ignoreLayer ignoreGroup : bool)
  : option FilterResult :=
  let layerInfo := getLayerFor w element in
  let currentLayerId := layerInfo ≫= root_getCurrentLayerId in
  if ignoreLayer
     || bool_decide (layerInfo = None)
     || bool_decide (currentLayerId = None)
     || bool_decide (currentLayerId = layer_userId <$> layerInfo)
     || default false (layer_isAlwaysAccessible <$> layerInfo)
  then
    inGroup ← (if ignoreGroup then Some true
               else _isInCurrentGroup w element true);
    if negb inGroup then Some FILTER_REJECT
    else Some (if acceptCondition element
               then FILTER_ACCEPT else FILTER_SKIP)
  else
    Some (match layerInfo with
          | Some _ => FILTER_REJECT
          | None => FILTER_SKIP
          end).

(** [_findElement] with [currentElement = null] and [prev = false], the
    instance behind [findFirst] and [findDefault]: a fresh walker over
    the container, then [walker.nextNode()].  Every element has an owner
    document and the host provides the walker, so the early returns for
    their absence are left out. *)
Definition _findElement (w : World) (container : option HTMLElement)
  (includeProgrammaticallyFocusable ignoreLayer ignoreGroup : bool)
  (acceptCondition : option (HTMLElement → bool))
  : option (option HTMLElement) :=
  match container with
  | None => Some None
  | Some container =>
      let acceptCondition :=
        default (λ el, api_isFocusable ah_focusable w el
                         includeProgrammaticallyFocusable)
                acceptCondition in
      nextNodeFromRoot (document w)
        (λ node, _acceptElement w node acceptCondition
                   ignoreLayer ignoreGroup)
        container
  end.

Definition findFirst (w : World) (context : option HTMLElement)
  (includeProgrammaticallyFocusable ignoreLayer ignoreGroup : bool)
  : option (option HTMLElement) :=
  _findElement w (match context with Some c => Some c | None => _body w end)
    includeProgrammaticallyFocusable ignoreLayer ignoreGroup None.

(** The first loop of [_onFocus]: the enclosing groups of the element,
    from the element outward. *)
Definition newFocusedGroupsOf (w : World) (element : HTMLElement)
  : JsObj GroupRef :=
  foldl (λ acc el,
           match groupOn w el with
           | Some g => obj_set g g acc
           | None => acc
           end)
        [] (inclusiveAncestors (document w) element).

(** Body of the second loop, for a group that left the chain. *)
Definition leaveGroup (w : World) (g : GroupRef) : World :=
  let w := FocusableGroup.setFocused w g false in
  FocusableGroup.setUnlimited w g false.

(** Body of the third loop, for a group that entered the chain. *)
Definition enterGroup (element : HTMLElement) (w : World) (g : GroupRef)
  : World :=
  match getElement w g with
  | Some groupElement =>
      let w := FocusableGroup.setFocused w g true in
      if decide (Some element ≠ _getGroupFirst w groupElement false)
      then FocusableGroup.setUnlimited w g true
      else w
  | None => w
  end.

(** The second loop of [_onFocus], over [Object.keys(_focusedGroups)]. *)
Definition leaveGroups (w : World) (old newFocusedGroups : JsObj GroupRef)
  : World :=
  foldl (λ w (kv : nat * GroupRef),
           if obj_has kv.1 newFocusedGroups then w else leaveGroup w kv.2)
        w old.

(** The third loop of [_onFocus], over the keys of [newFocusedGroups]
    (here [entries], so that a prefix of the loop can be named). *)
Definition enterGroups (element : HTMLElement) (w : World)
  (old entries : JsObj GroupRef) : World :=
  foldl (λ w (kv : nat * GroupRef),
           if obj_has kv.1 old then w else enterGroup element w kv.2)
        w entries.

Definition _onFocus (w : World) (element : option HTMLElement) : World :=
  match element with
  | Some element =>
      let old := _focusedGroups w in
      let newFocusedGroups := newFocusedGroupsOf w element in
      let w := leaveGroups w old newFocusedGroups in
      let w := enterGroups element w old newFocusedGroups in
      set_focusedGroups newFocusedGroups w
  | None => w
  end.


End WithAbilityHelpers.

Definition _onMutation (w : World) (group : option GroupRef)
  (removed : bool) : World :=
  match group with
  | Some group => FocusableGroup.setupContainer w group removed
  | None => w
  end.

(** Modelled from the spec: [dispatchMutationEvent] of [MutationEvent.ts],
    the tree-mutation-affecting-a-group signal; it reaches [_onMutation]
    once [_init] has registered the listener. *)
Definition dispatchMutationEvent (w : World) (element : HTMLElement)
  (group : GroupRef) (removed : bool) : World :=
  if mutationListener w then _onMutation w (Some group) removed else w.

Definition addGroup (w : World) (element : HTMLElement)
  (props : FocusableGroupProps.t) : Result World :=
  match groupOn w element with
  | Some _ => Throw "The element already has a focus group"
  | None =>
      let '(w, group) := FocusableGroup.construct w element props in
      Ok (dispatchMutationEvent w element group false)
  end.

Definition removeGroup (w : World) (element : HTMLElement) : Result World :=
  match groupOn w element with
  | Some group =>
      let w := FocusableGroup.dispose w group in
      Ok (dispatchMutationEvent w element group true)
  | None => Ok w
  end.

Definition moveGroup (w : World) (from to : HTMLElement) : World :=
  if decide (from ≠ to) then
    match groupOn w from with
    | Some group =>
        let w := FocusableGroup.moveTo w group to in
        let w := dispatchMutationEvent w from group true in
        dispatchMutationEvent w to group false
    | None => w
    end
  else w.

Definition findGroup (w : World) (element : HTMLElement)
  : option HTMLElement :=
  _findGroup w element ≫= getElement w.

(** The [while (group)] loop of [setCurrentGroup]; [fuel] bounds the
    rounds, as in [_isInCurrentGroup_loop]. *)
Fixpoint setCurrentGroup_loop (fuel : nat) (w : World) (group : GroupRef)
  : option World :=
  match fuel with
  | 0 => None
  | S fuel =>
      let w := FocusableGroup.makeCurrent w group in
      groupElement ← getElement w group;
      match parentElement (document w) groupElement with
      | None => Some w
      | Some parentEl =>
          match _findGroup w parentEl with
          | None => Some w
          | Some group => setCurrentGroup_loop fuel w group
          end
      end
  end.

(** [Some w']: the source returns and leaves the world [w'].  [None]: the
    loop did not end within the rounds allowed (or it met a group reference
    that denotes no object, which a world built by the methods never
    holds). *)
Definition setCurrentGroup (w : World) (element : HTMLElement)
  : option World :=
  match _findGroup w element with
  | None => Some w
  | Some group =>
      setCurrentGroup_loop (S (S (elementCount (document w)))) w group
  end.

Section Navigation.

Variable ah_focusable : FocusableApi.
Variable host : Host.

Definition isVisible (el : HTMLElement) : bool :=
  if bool_decide (host_offsetParent host el = None) then false
  else if negb (host_defaultView host el) then false
  else if bool_decide (host_visibility host el = "hidden") then false
  else true.

(** [attrVal && (attrVal.toLowerCase() === 'true')] for
    [attrVal = e.getAttribute(name)]. *)
Definition attributeIsTrue (e : HTMLElement) (name : string) : bool :=
  match host_getAttribute host e name with
  | Some attrVal => bool_decide (toLowerCase attrVal = "true")
  | None => false
  end.

(** The loop of [isAccessible] over the elements it visits. *)
Fixpoint isAccessible_loop (l : list HTMLElement) : bool :=
  match l with
  | [] => true
  | e :: l' =>
      if bool_decide (host_modalityLayerIsActive host e = Some false)
      then true
      else if attributeIsTrue e "aria-hidden" then false
      else if attributeIsTrue e "aria-disabled" then false
      else isAccessible_loop l'
  end.

Definition isAccessible (w : World) (el : HTMLElement) : bool :=
  isAccessible_loop (inclusiveAncestors (document w) el).

Definition isFocusable (w : World) (el : HTMLElement)
  (includeProgrammaticallyFocusable noAccessibleCheck : bool) : bool :=
  if host_matchesFocusable host el
     && (includeProgrammaticallyFocusable
         || bool_decide (host_tabIndex host el ≠ (-1)%Z))
  then isVisible el
       && (if noAccessibleCheck then true else isAccessible w el)
  else false.

(** The test of the loop of [_findNextGroup] on a visited element: it owns
    a group, passes the accessibility check unless layers are ignored, and
    is focusable or has a focusable element inside. *)
Definition isGroupTarget (w : World) (ignoreLayer : bool) (el : HTMLElement)
  : bool :=
  bool_decide (groupOn w el ≠ None)
  && (ignoreLayer || isAccessible w el)
  && (api_isFocusable ah_focusable w el false
      || bool_decide (api_findFirst ah_focusable w el false false true
                      ≠ None)).

(** [next container initial] lists the elements that
    [for (el = next(container, cur); el; el = next(container, cur, el))]
    visits. *)
Definition _findNextGroup (w : World) (element : HTMLElement)
  (next : ContainerObject.t → HTMLElement → list HTMLElement)
  (ignoreLayer : bool) : option HTMLElement :=
  match findGroup w element with
  | Some cur =>
      match parentElement (document w) cur with
      | Some containerElement =>
          match containerOn w containerElement
                ≫= (λ r, containerObjects w !! r) with
          | Some container =>
              head (filter (λ el, isGroupTarget w ignoreLayer el = true)
                      (next container cur))
          | None => None
          end
      | None => None
      end
  | None => None
  end.

Definition findFirstGroup (w : World) (context : HTMLElement)
  (ignoreLayer : bool) : option HTMLElement :=
  _findNextGroup w context
    (λ container initial,
       childElements (document w) (ContainerObject._element container))
    ignoreLayer.

Definition findLastGroup (w : World) (context : HTMLElement)
  (ignoreLayer : bool) : option HTMLElement :=
  _findNextGroup w context
    (λ container initial,
       reverse (childElements (document w)
                  (ContainerObject._element container)))
    ignoreLayer.

Definition findNextGroup (w : World) (context : HTMLElement)
  (ignoreLayer : bool) : option HTMLElement :=
  _findNextGroup w context
    (λ container initial, nextSiblings (document w) initial)
    ignoreLayer.

Definition findPrevGroup (w : World) (context : HTMLElement)
  (ignoreLayer : bool) : option HTMLElement :=
  _findNextGroup w context
    (λ container initial, previousSiblings (document w) initial)
    ignoreLayer.

(** [getProps(element)] and [setProps(element, props)] on the [focusable]
    entries of the side table, [focusableOn]. *)
Definition getProps (focusableOn : gmap HTMLElement FocusableProps.t)
  (element : HTMLElement) : FocusableProps.t :=
  let props := focusableOn !! element in
  {| FocusableProps.isDefault :=
       match props with
       | Some props => FocusableProps.isDefault props
       | None => false
       end;
     FocusableProps.isIgnored :=
       match props with
       | Some props => FocusableProps.isIgnored props
       | None => false
       end |}.

Definition setProps (focusableOn : gmap HTMLElement FocusableProps.t)
  (element : HTMLElement) (props : option PartialFocusableProps.t)
  : gmap HTMLElement FocusableProps.t :=
  let curProps := focusableOn !! element in
  let newProps :=
    match props with
    | Some props =>
        Some {| FocusableProps.isDefault :=
                  match PartialFocusableProps.isDefault props with
                  | Some isDefault => isDefault
                  | None =>
                      match curProps with
                      | Some curProps => FocusableProps.isDefault curProps
                      | None => false
                      end
                  end;
                FocusableProps.isIgnored :=
                  match PartialFocusableProps.isIgnored props with
                  | Some isIgnored => isIgnored
                  | None =>
                      match curProps with
                      | Some curProps => FocusableProps.isIgnored curProps
                      | None => false
                      end
                  end |}
    | None => None
    end in
  match newProps with
  | Some newProps => <[element := newProps]> focusableOn
  | None => delete element focusableOn
  end.

Definition findDefault (w : World)
  (focusableOn : gmap HTMLElement FocusableProps.t)
  (context : option HTMLElement)
  (includeProgrammaticallyFocusable ignoreLayer ignoreGroup : bool)
  : option (option HTMLElement) :=
  _findElement ah_focusable w
    (match context with Some c => Some c | None => _body w end)
    includeProgrammaticallyFocusable ignoreLayer ignoreGroup
    (Some (λ el, api_isFocusable ah_focusable w el
                   includeProgrammaticallyFocusable
                 && FocusableProps.isDefault (getProps focusableOn el))).

End Navigation.

(** [_onScroll(e)] for an event whose target is the element [target], or
    is not a [Node] ([None]). *)
Definition _onScroll (this : FocusableObject.t) (target : option HTMLElement)
  : FocusableObject.t :=
  if negb (FocusableObject._mainWindow this) then this
  else
    let isKnownTarget :=
      bool_decide (target ∈ Some <$> FocusableObject._scrollTargets this) in
    let scrollTargets :=
      match target with
      | Some node =>
          if isKnownTarget then FocusableObject._scrollTargets this
          else FocusableObject._scrollTargets this ++ [node]
      | None => FocusableObject._scrollTargets this
      end in
    let pending :=
      match FocusableObject._scrollTimer this with
      | Some id =>
          filter (λ t, t ≠ id) (FocusableObject.pendingTimeouts this)
      | None => FocusableObject.pendingTimeouts this
      end in
    let id := FocusableObject.nextTimeout this in
    {| FocusableObject._mainWindow := FocusableObject._mainWindow this;
       FocusableObject._scrollTimer := Some id;
       FocusableObject._scrollTargets := scrollTargets;
       FocusableObject.pendingTimeouts := pending ++ [id];
       FocusableObject.nextTimeout := S id |}.

(** The main window fires the timeout [id]: the body of the timeout armed
    by [_onScroll] runs if [id] is still pending. *)
Definition scrollTimeout (this : FocusableObject.t) (w : World) (id : nat)
  : FocusableObject.t * World :=
  if bool_decide (id ∈ FocusableObject.pendingTimeouts this) then
    ({| FocusableObject._mainWindow := FocusableObject._mainWindow this;
        FocusableObject._scrollTimer := None;
        FocusableObject._scrollTargets := [];
        FocusableObject.pendingTimeouts :=
          filter (λ t, t ≠ id) (FocusableObject.pendingTimeouts this);
        FocusableObject.nextTimeout := FocusableObject.nextTimeout this |},
     FocusableGroupContainer.updateVisible w
       (FocusableObject._scrollTargets this))
  else (this, w).

End Focusable.

(** ** Vocabulary of the properties *)

Import ContainerObject.

(** [r] is the group of the nearest element of [l] that owns a group, where
    [l] lists the siblings on one side from the nearest one outward;
    [None] when none of them owns a group. *)
Definition nearestGroup (w : World) (l : list HTMLElement)
  (r : option GroupRef) : Prop :=
  match r with
  | Some g =>
      ∃ l1 s l2, l = l1 ++ s :: l2
                 ∧ Forall (λ x, groupOn w x = None) l1
                 ∧ groupOn w s = Some g
  | None => Forall (λ x, groupOn w x = None) l
  end.

(** An element that owns no group, or a group that is not a member. *)
Definition ownsNoMember (w : World) (c : ContainerObject.t)
  (x : HTMLElement) : Prop :=
  ∀ h, groupOn w x = Some h → obj_has h (_groups c) = false.

(** [r] is the group of the first element of [l] that owns a member group of
    [c]; [None] when no element of [l] owns a member group. *)
Definition firstMemberGroup (w : World) (c : ContainerObject.t)
  (l : list HTMLElement) (r : option GroupRef) : Prop :=
  match r with
  | Some g =>
      ∃ l1 e l2, l = l1 ++ e :: l2
                 ∧ Forall (ownsNoMember w c) l1
                 ∧ groupOn w e = Some g
                 ∧ obj_has g (_groups c) = true
  | None => Forall (ownsNoMember w c) l
  end.

(** A call of [addGroup] or [removeGroup] on a container. *)
Inductive MembershipOp := AddGroup (g : GroupRef) | RemoveGroup (g : GroupRef).

(** A sequence of calls, each with the world it runs in. *)
Definition applyOp (c : ContainerObject.t) (step : World * MembershipOp)
  : ContainerObject.t :=
  match step.2 with
  | AddGroup g => FocusableGroupContainer.addGroup step.1 c g
  | RemoveGroup g => FocusableGroupContainer.removeGroup step.1 c g
  end.

Definition applyOps (c : ContainerObject.t)
  (steps : list (World * MembershipOp)) : ContainerObject.t :=
  foldl applyOp c steps.

(** The seven derived pointers of a container. *)
Definition derivedPointers (c : ContainerObject.t) : list (option GroupRef) :=
  [_current c; _prev c; _next c; _first c; _last c; _focused c; _unlimited c].

(** Every derived pointer that is set references a member. *)
Definition pointersAreMembers (c : ContainerObject.t) : bool :=
  forallb (λ p : option GroupRef,
             match p with
             | Some g => obj_has g (_groups c)
             | None => true
             end)
          (derivedPointers c).

(** What [_setFirstLast] establishes in the world it runs in. *)
Definition firstLastSettled (w : World) (c : ContainerObject.t) : Prop :=
  firstMemberGroup w c (childElements (document w) (_element c)) (_first c)
  ∧ firstMemberGroup w c
      (reverse (childElements (document w) (_element c))) (_last c).


(** The invocations made by one run of the change-propagation pass. *)
Definition tickCalls (w : World) (r : ContainerRef)
  : list (GroupRef * FocusableGroupState.t) :=
  drop (length (onChangeCalls w))
       (onChangeCalls (FocusableGroupContainer.onChangeTimeout w r)).






(** The layer test of the tree walk fails for [e]: a layer is resolved, a
    current layer id is tracked and differs from the layer's id, and the
    layer is not always accessible. *)
Definition layerBlocks (w : World) (e : HTMLElement) : Prop :=
  ∃ li cur, getLayerFor w e = Some li
            ∧ root_getCurrentLayerId li = Some cur
            ∧ cur ≠ layer_userId li
            ∧ layer_isAlwaysAccessible li = false.





(** The snapshot of a container agrees with its pointers and with its
    visibility object, and no change pass is pending. *)
Definition snapshotTaken (c : ContainerObject.t) : Prop :=
  _prevFocused c = _focused c
  ∧ _prevCurrent c = _current c
  ∧ _prevPrev c = _prev c
  ∧ _prevNext c = _next c
  ∧ _prevFirst c = _first c
  ∧ _prevLast c = _last c
  ∧ _prevUnlimited c = _unlimited c
  ∧ _prevVisibleGroups c = _visibleGroups c
  ∧ _onChangeTimer c = false.

(** Focus left the container since the last change pass, and the group
    that had it does not memorize the current group: the condition under
    which the pass forgets the current group. *)
Definition focusLeftUnmemorized (w : World) (c : ContainerObject.t) : bool :=
  match _focused c, _prevFocused c with
  | None, Some pf => negb (FocusableGroupProps.memorizeCurrent (getProps w pf))
  | _, _ => false
  end.

(** The visibility recorded for the group id [id], and the visibility that
    the classifier now answers for the element of the member behind [id]. *)
Definition recordedVisibility (c : ContainerObject.t) (id : nat)
  : ElementVisibility :=
  default Invisible
    (obj_get id (FocusableGroupContainer.visObject c (_visibleGroups c))).

Definition classifiedVisibility (w : World) (c : ContainerObject.t) (id : nat)
  : ElementVisibility :=
  match obj_get id (_groups c) ≫= getElement w with
  | Some e => isElementVisibleInContainer w e
  | None => Invisible
  end.

(** The static [updateVisible(scrolled)] refreshes the container behind [r]:
    it is registered in [_containers] and one of the scrolled nodes contains
    its element. *)
Definition refreshDue (w : World) (scrolled : list HTMLElement)
  (r : ContainerRef) (c : ContainerObject.t) : bool :=
  bool_decide (r ∈ (_containers w).*2)
  && existsb (λ s, contains (document w) s (Some (_element c))) scrolled.

(** The scroll handler has at most the one timeout pending that
    [_scrollTimer] names, timeout ids are fresh, and no scroll target is
    buffered twice. *)
Definition scrollCoherent (this : FocusableObject.t) : bool :=
  bool_decide (FocusableObject.pendingTimeouts this
               = match FocusableObject._scrollTimer this with
                 | Some id => [id]
                 | None => []
                 end)
  && forallb (λ id, bool_decide (id < FocusableObject.nextTimeout this))
       (FocusableObject.pendingTimeouts this)
  && bool_decide (NoDup (FocusableObject._scrollTargets this)).

(** The side table and the group objects agree: the group registered on an
    element has that element as its [_element]. *)
Definition groupsOnTheirElements (w : World) : bool :=
  forallb (λ entry : HTMLElement * AbilityHelpersOnElement,
             match focusableGroup entry.2 with
             | Some g => bool_decide (getElement w g = Some entry.1)
             | None => true
             end)
          (map_to_list (abilityHelpers w)).

(** The groups that enclose an element, innermost first: the groups that
    the elements from [e] up to the root own. *)
Definition enclosingGroups (w : World) (e : HTMLElement) : list GroupRef :=
  omap (groupOn w) (inclusiveAncestors (document w) e).

(** The test that the loop of [_isInCurrentGroup] makes on one group: its
    state does not say [isCurrent === false], and, when only unlimited
    groups are allowed, it is not limited unless the element is valid for a
    limited group. *)
Definition passesGroup (w : World) (unlimitedOnly isValidForLimited : bool)
  (g : GroupRef) : bool :=
  negb (bool_decide (FocusableGroupState.isCurrent (FocusableGroup.getState w g)
                     = Some false))
  && negb (unlimitedOnly
           && FocusableGroupState.isLimited (FocusableGroup.getState w g)
           && negb isValidForLimited).

(** The element contains the first focusable element of its nearest
    group: the entry point of a limited group. *)
Definition containsEntryPoint (api : FocusableApi) (w : World)
  (e : HTMLElement) : bool :=
  match Focusable._findGroup w e ≫= getElement w with
  | Some groupElement =>
      contains (document w) e
        (Focusable._getGroupFirst api w groupElement true)
  | None => false
  end.

(** The element carries a modality layer that is not active. *)
Definition inactiveLayer (host : Host) (e : HTMLElement) : bool :=
  bool_decide (host_modalityLayerIsActive host e = Some false).

(** The element is marked hidden or disabled for assistive technology. *)
Definition ariaBlocked (host : Host) (e : HTMLElement) : bool :=
  Focusable.attributeIsTrue host e "aria-hidden"
  || Focusable.attributeIsTrue host e "aria-disabled".

(** The side table and the container objects agree: the container
    registered on an element has that element as its [_element]. *)
Definition containersOnTheirElements (w : World) : bool :=
  forallb (λ entry : HTMLElement * AbilityHelpersOnElement,
             match focusableGroupContainer entry.2
                   ≫= (λ r, containerObjects w !! r) with
             | Some c => bool_decide (_element c = entry.1)
             | None => true
             end)
          (map_to_list (abilityHelpers w)).

(** The flag [_hasFullyVisibleGroup] as a change pass leaves it: recomputed
    from the entries of the visibility object when that object is not the
    one of the snapshot, and left alone otherwise. *)
Definition fullyVisibleAfterPass (c : ContainerObject.t) : bool :=
  if decide (_visibleGroups c ≠ _prevVisibleGroups c)
  then existsb
         (λ id, bool_decide
                  (obj_get id
                     (FocusableGroupContainer.visObject c (_visibleGroups c))
                   = Some Visible))
         (obj_keys (FocusableGroupContainer.visObject c (_visibleGroups c)))
  else _hasFullyVisibleGroup c.

(** ** Example worlds *)

Module Examples.

(** html(1) > [ list(10) > [ item(11) > [111; 112]; item(12); item(13) ];
    aside(20) ] *)
Definition exampleDocument : Document :=
  [Node 1 [Node 10 [Node 11 [Node 111 []; Node 112 []];
                    Node 12 []; Node 13 []];
           Node 20 []]].

Definition emptyWorld : World :=
  {| document := exampleDocument;
     abilityHelpers := ∅;
     groupObjects := ∅;
     containerObjects := ∅;
     _containers := [];
     _focusedGroups := [];
     _lastId := 0;
     _body := Some 1;
     getLayerFor := λ _, None;
     isElementVisibleInContainer := λ _, Invisible;
     mutationListener := true;
     onChangeCalls := [] |}.

Definition observed (mode : option FocusableGroupFocusLimit)
  (lookup : option ElementVisibility) : FocusableGroupProps.t :=
  {| FocusableGroupProps.isLimited := mode;
     FocusableGroupProps.lookupVisibility := lookup;
     FocusableGroupProps.memorizeCurrent := false;
     FocusableGroupProps.onChange := true |}.

Definition added (w : World) (element : HTMLElement)
  (props : FocusableGroupProps.t) : World :=
  match Focusable.addGroup w element props with
  | Ok w' => w'
  | Throw _ => w
  end.

(** Groups 1, 3 and 4 on the items 11, 12 and 13, in container 2 on the
    list 10; group 3 is limited, group 4 does not look at visibility. *)
Definition threeGroups : World :=
  let w := added emptyWorld 11 (observed None None) in
  let w := added w 12 (observed (Some Limited) None) in
  added w 13 (observed None (Some Invisible)).

(** ... after the change-propagation pass has run once. *)
Definition settled : World :=
  FocusableGroupContainer.onChangeTimeout threeGroups 2.

(** ... and group 1 has then been made current. *)
Definition currentSet : World := FocusableGroup.makeCurrent settled 1.

(** The container of the list in a world. *)
Definition listContainerOf (w : World) : ContainerObject.t :=
  default (FocusableGroupContainer.create 10) (containerObjects w !! 2).

Definition listContainer : ContainerObject.t := listContainerOf currentSet.

(** A limited group on the root element, which has no parent element and
    therefore no container. *)
Definition rootGroup : World :=
  added emptyWorld 1 (observed (Some Limited) None).

(** The two buttons 111 and 112 are focusable; the first focusable element
    under item 11 is 111. *)
Definition buttons : FocusableApi :=
  {| api_isFocusable := λ _ e _, bool_decide (e ∈ [111; 112]);
     api_findFirst := λ _ context _ _ _,
       if bool_decide (context ∈ [1; 10; 11]) then Some 111 else None |}.

(** A world in which every element lies in layer [dialog] while the
    tracked current layer is [page]. *)
Definition layered (alwaysAccessible : bool) : World :=
  {| document := exampleDocument;
     abilityHelpers := ∅;
     groupObjects := ∅;
     containerObjects := ∅;
     _containers := [];
     _focusedGroups := [];
     _lastId := 0;
     _body := Some 1;
     getLayerFor := λ _,
       Some {| layer_userId := "dialog";
               layer_isAlwaysAccessible := alwaysAccessible;
               root_getCurrentLayerId := Some "page" |};
     isElementVisibleInContainer := λ _, Invisible;
     mutationListener := true;
     onChangeCalls := [] |}.

(** The world [w] with another answer of the visibility classifier. *)
Definition withClassifier (f : HTMLElement → ElementVisibility) (w : World)
  : World :=
  {| document := document w;
     abilityHelpers := abilityHelpers w;
     groupObjects := groupObjects w;
     containerObjects := containerObjects w;
     _containers := _containers w;
     _focusedGroups := _focusedGroups w;
     _lastId := _lastId w;
     _body := _body w;
     getLayerFor := getLayerFor w;
     isElementVisibleInContainer := f;
     mutationListener := mutationListener w;
     onChangeCalls := onChangeCalls w |}.

(** The world [w] with another tree. *)
Definition withDocument (d : Document) (w : World) : World :=
  {| document := d;
     abilityHelpers := abilityHelpers w;
     groupObjects := groupObjects w;
     containerObjects := containerObjects w;
     _containers := _containers w;
     _focusedGroups := _focusedGroups w;
     _lastId := _lastId w;
     _body := _body w;
     getLayerFor := getLayerFor w;
     isElementVisibleInContainer := isElementVisibleInContainer w;
     mutationListener := mutationListener w;
     onChangeCalls := onChangeCalls w |}.

(** Focus entered the limited item 12, a change pass ran, and focus then
    moved to the aside 20, outside of every group. *)
Definition focusLeft : World :=
  let w := Focusable._onFocus buttons currentSet (Some 12) in
  let w := FocusableGroupContainer.onChangeTimeout w 2 in
  Focusable._onFocus buttons w (Some 20).

(** Item 11 has become fully visible, and the visibility refresh of the
    list container has run. *)
Definition lit : World :=
  let w := withClassifier
             (λ e, if decide (e = 11) then Visible else Invisible) settled in
  onContainer 2 (FocusableGroupContainer.updateVisibleTimeout w) w.

(** Item 11 has been taken out of the tree, with its buttons. *)
Definition detached : World :=
  withDocument
    [Node 1 [Node 10 [Node 12 []; Node 13 []]; Node 20 []];
     Node 11 [Node 111 []; Node 112 []]]
    settled.

(** Group 1 on item 11, in container 2 on the list 10. *)
Definition oneGroup : World := added emptyWorld 11 (observed None None).

(** A further group 5 on the button 111, in container 6 on item 11. *)
Definition nested : World := added settled 111 (observed None None).

(** Group 1 has been moved from item 11 onto the button 111 below it. *)
Definition movedBelow : World := Focusable.moveGroup threeGroups 11 111.

(** Every element is rendered, and none carries an attribute or a
    modality layer. *)
Definition rendered : Host :=
  {| host_matchesFocusable := λ e, bool_decide (e ∈ [111; 112]);
     host_tabIndex := λ _, 0%Z;
     host_offsetParent := λ _, Some 1;
     host_defaultView := λ _, true;
     host_visibility := λ _, "visible";
     host_getAttribute := λ _ _, None;
     host_modalityLayerIsActive := λ _, None |}.

(** The buttons 111 and 112 and the items 12 and 13 are focusable. *)
Definition buttonsAndItems : FocusableApi :=
  {| api_isFocusable := λ _ e _, bool_decide (e ∈ [111; 112; 12; 13]);
     api_findFirst := λ w context _ _ _,
       head (filter (λ e, e ∈ [111; 112; 12; 13])
               (descendants (document w) context)) |}.

(** A [Focusable] instance on which no scroll event has arrived. *)
Definition quiet : FocusableObject.t :=
  {| FocusableObject._mainWindow := true;
     FocusableObject._scrollTimer := None;
     FocusableObject._scrollTargets := [];
     FocusableObject.pendingTimeouts := [];
     FocusableObject.nextTimeout := 0 |}.

(** As [rendered], with the list 10 marked [aria-hidden]. *)
Definition hiddenList : Host :=
  {| host_matchesFocusable := λ e, bool_decide (e ∈ [111; 112]);
     host_tabIndex := λ _, 0%Z;
     host_offsetParent := λ _, Some 1;
     host_defaultView := λ _, true;
     host_visibility := λ _, "visible";
     host_getAttribute := λ e name,
       if bool_decide (e = 10 ∧ name = "aria-hidden") then Some "True"
       else None;
     host_modalityLayerIsActive := λ _, None |}.

(** The button 112 declares itself default. *)
Definition defaultButton : gmap HTMLElement FocusableProps.t :=
  Focusable.setProps ∅ 112
    (Some {| PartialFocusableProps.isDefault := Some true;
             PartialFocusableProps.isIgnored := None |}).

End Examples.

(** ** Lemmas on objects and on the sibling scans *)

Section ObjectLemmas.
Context {V : Type}.
Implicit Types (o : JsObj V) (k : nat).

Lemma obj_get_delete_eq k o : obj_get k (obj_delete k o) = None.
Proof.
  induction o as [|[k' v] o IH]; simpl; [done|].
  destruct (decide (k = k')); simpl; [done|].
  destruct (decide (k = k')); done.
Qed.

Lemma obj_has_delete_eq k o : obj_has k (obj_delete k o) = false.
Proof. unfold obj_has. by rewrite obj_get_delete_eq. Qed.

Lemma obj_get_set_eq k v o : obj_get k (obj_set k v o) = Some v.
Proof.
  induction o as [|[k' v'] o IH]; simpl.
  - destruct (decide (k = k)); done.
  - destruct (decide (k = k')) as [->|Hne]; simpl.
    + destruct (decide (k' = k')); done.
    + destruct (decide (k = k')); done.
Qed.

Lemma obj_has_set_eq k v o : obj_has k (obj_set k v o) = true.
Proof. unfold obj_has. by rewrite obj_get_set_eq. Qed.

Lemma obj_get_Some_elem k v o : obj_get k o = Some v → (k, v) ∈ o.
Proof.
  induction o as [|[k' v'] o IH]; simpl; [done|].
  destruct (decide (k = k')) as [->|Hne]; intros Hg.
  - injection Hg as ->. apply list_elem_of_here.
  - apply list_elem_of_further. auto.
Qed.

Lemma obj_has_keys k o : obj_has k o = true ↔ k ∈ obj_keys o.
Proof.
  unfold obj_has, obj_keys.
  induction o as [|[k' v'] o IH]; simpl.
  - split; [done|]. intros Hin. by apply elem_of_nil in Hin.
  - destruct (decide (k = k')) as [->|Hne].
    + split; [intros _; apply list_elem_of_here|done].
    + rewrite IH, elem_of_cons. split; [by right|]. by intros [?|?].
Qed.

End ObjectLemmas.

Section ScanLemmas.
Context {A B : Type}.
Implicit Types (f : A → option B) (l : list A).

Lemma head_omap_Some f l y :
  head (omap f l) = Some y ↔
  ∃ l1 x l2, l = l1 ++ x :: l2 ∧ Forall (λ z, f z = None) l1 ∧ f x = Some y.
Proof.
  induction l as [|a l IH]; simpl.
  - split; [done|]. intros (l1 & x & l2 & Hl & _). by destruct l1.
  - destruct (f a) as [b|] eqn:Hfa; simpl.
    + split.
      * intros [= ->]. exists [], a, l. split; [done|]. split; [constructor|done].
      * intros (l1 & x & l2 & Hl & Hnone & Hx).
        destruct l1 as [|a' l1]; simpl in Hl; injection Hl as -> ->.
        -- congruence.
        -- apply Forall_cons in Hnone as [Ha _]. congruence.
    + rewrite IH. split.
      * intros (l1 & x & l2 & -> & Hnone & Hx).
        exists (a :: l1), x, l2. split; [done|]. split; [by constructor|done].
      * intros (l1 & x & l2 & Hl & Hnone & Hx).
        destruct l1 as [|a' l1]; simpl in Hl; injection Hl as -> ->.
        -- congruence.
        -- apply Forall_cons in Hnone as [_ Hnone]. eauto 6.
Qed.

Lemma head_omap_None f l :
  head (omap f l) = None ↔ Forall (λ z, f z = None) l.
Proof.
  induction l as [|a l IH]; simpl.
  - split; [constructor|done].
  - destruct (f a) as [b|] eqn:Hfa; simpl.
    + split; [done|]. intros [Ha _]%Forall_cons. congruence.
    + rewrite IH. split; [by constructor|]. by intros [_ ?]%Forall_cons.
Qed.

End ScanLemmas.

Lemma elementsAfter_split (e : HTMLElement) (l1 l2 : list HTMLElement) :
  e ∉ l1 → elementsAfter e (l1 ++ e :: l2) = l2.
Proof.
  induction l1 as [|x l1 IH]; simpl; intros Hnotin.
  - destruct (decide (e = e)); done.
  - apply not_elem_of_cons in Hnotin as [Hne Hnotin].
    destruct (decide (x = e)); [congruence|]. auto.
Qed.

Lemma elementsBefore_split (e : HTMLElement) (l1 l2 acc : list HTMLElement) :
  e ∉ l1 → elementsBefore e (l1 ++ e :: l2) acc = reverse l1 ++ acc.
Proof.
  revert acc. induction l1 as [|x l1 IH]; simpl; intros acc Hnotin.
  - destruct (decide (e = e)); done.
  - apply not_elem_of_cons in Hnotin as [Hne Hnotin].
    destruct (decide (x = e)); [congruence|].
    rewrite IH by done. by rewrite reverse_cons, <-app_assoc.
Qed.

Lemma NoDup_split_notin {A} (l1 l2 : list A) (e : A) :
  NoDup (l1 ++ e :: l2) → e ∉ l1.
Proof.
  intros Hnd Hin. apply NoDup_app in Hnd as (_ & Hdisj & _).
  apply (Hdisj e Hin). apply list_elem_of_here.
Qed.

Lemma elementsAfter_subseteq (e x : HTMLElement) (l : list HTMLElement) :
  x ∈ elementsAfter e l → x ∈ l.
Proof.
  induction l as [|y l IH]; simpl; [done|].
  destruct (decide (y = e)); intros Hin; apply list_elem_of_further; auto.
Qed.

(** Stepping to the next sibling enumerates [elementsAfter]: the siblings
    after the next sibling are the rest of the list. *)
Lemma elementsAfter_step (e s : HTMLElement) (l rest : list HTMLElement) :
  NoDup l → elementsAfter e l = s :: rest → elementsAfter s l = rest.
Proof.
  induction l as [|x l IH]; simpl; [done|].
  intros [Hx Hnd]%NoDup_cons.
  destruct (decide (x = e)) as [-> | Hne].
  - intros ->. destruct (decide (e = s)) as [-> | _].
    + exfalso. apply Hx, list_elem_of_here.
    + simpl. by destruct (decide (s = s)).
  - intros Hafter.
    assert (s ∈ l) as Hs.
    { apply (elementsAfter_subseteq e). rewrite Hafter. apply list_elem_of_here. }
    destruct (decide (x = s)) as [-> | _]; [done|]. by apply IH.
Qed.

(** ** The host tree: the loops visit what the lists name *)

(** Induction on a node with the hypothesis for all its children. *)
Lemma DomNode_forall_ind (P : DomNode → Prop) :
  (∀ e ks, Forall P ks → P (Node e ks)) → ∀ t, P t.
Proof.
  intros Hnode. fix IH 1. intros [e ks]. apply Hnode.
  induction ks as [|k ks IHks]; constructor; [apply IH|exact IHks].
Qed.

Lemma nodeElements_unfold e ks :
  nodeElements (Node e ks) = e :: mjoin (nodeElements <$> ks).
Proof.
  simpl. f_equal. induction ks as [|k ks IH]; simpl; [done|]. by rewrite IH.
Qed.

Lemma pathTo_unfold e i ks :
  pathTo e (Node i ks)
  = if decide (i = e) then Some [i] else (λ p, p ++ [i]) <$> pathIn e ks.
Proof.
  simpl. destruct (decide (i = e)); [done|].
  induction ks as [|k ks IH]; simpl; [done|].
  destruct (pathTo e k); simpl; [done|]. exact IH.
Qed.

Lemma subtree_unfold e i ks :
  subtree e (Node i ks)
  = if decide (i = e) then Some (Node i ks) else subtreeIn e ks.
Proof.
  simpl. destruct (decide (i = e)); [done|].
  induction ks as [|k ks IH]; simpl; [done|].
  destruct (subtree e k); simpl; [done|]. exact IH.
Qed.

(** A path to [e] exists exactly in the trees that contain [e], and starts
    at [e]. *)
Lemma pathTo_None e t : e ∉ nodeElements t → pathTo e t = None.
Proof.
  pattern t. apply DomNode_forall_ind. clear t. intros i ks IH.
  rewrite nodeElements_unfold, pathTo_unfold.
  intros [Hne Hks]%not_elem_of_cons.
  destruct (decide (i = e)); [congruence|].
  assert (pathIn e ks = None) as ->; [|done].
  induction ks as [|k ks IHks]; simpl in *; [done|].
  apply Forall_cons in IH as [IHk IH].
  apply not_elem_of_app in Hks as [Hk Hks].
  rewrite IHk by done. auto.
Qed.

Lemma pathIn_None e (d : list DomNode) :
  e ∉ mjoin (nodeElements <$> d) → pathIn e d = None.
Proof.
  induction d as [|t d IH]; simpl; [done|].
  intros [Ht Hd]%not_elem_of_app. rewrite pathTo_None by done. auto.
Qed.

Lemma pathTo_elem e t p : pathTo e t = Some p → e ∈ nodeElements t.
Proof.
  intros Hp. destruct (decide (e ∈ nodeElements t)) as [|Hnot]; [done|].
  apply pathTo_None in Hnot. congruence.
Qed.

Lemma pathTo_head e t p : pathTo e t = Some p → ∃ rest, p = e :: rest.
Proof.
  revert p. pattern t. apply DomNode_forall_ind. clear t. intros i ks IH p.
  rewrite pathTo_unfold.
  destruct (decide (i = e)) as [-> | Hne]; [intros [= <-]; eauto|].
  assert (∀ q, pathIn e ks = Some q → ∃ rest, q = e :: rest) as Hks.
  { clear p. induction ks as [|k ks IHks]; simpl; [done|].
    apply Forall_cons in IH as [IHk IH].
    destruct (pathTo e k) as [q0|] eqn:Hk; [|auto].
    intros q [= <-]. by apply IHk. }
  destruct (pathIn e ks) as [q|]; simpl; [|done].
  intros [= <-]. destruct (Hks q eq_refl) as [rest ->]. eauto.
Qed.

Lemma pathIn_head e (d : list DomNode) p :
  pathIn e d = Some p → ∃ rest, p = e :: rest.
Proof.
  induction d as [|t d IH]; simpl; [done|].
  destruct (pathTo e t) as [q|] eqn:Ht; [|auto].
  intros [= <-]. by eapply pathTo_head.
Qed.

(** The path of the parent is the rest of the path. *)
Lemma pathIn_tail_gen (d : list DomNode) e p rest :
  Forall (λ t, NoDup (nodeElements t) →
               ∀ e p rest, pathTo e t = Some (e :: p :: rest) →
                           pathTo p t = Some (p :: rest)) d →
  NoDup (mjoin (nodeElements <$> d)) →
  pathIn e d = Some (e :: p :: rest) → pathIn p d = Some (p :: rest).
Proof.
  induction d as [|t d IH]; simpl; [done|].
  intros [Ht Hd]%Forall_cons (Hndt & Hdisj & Hndd)%NoDup_app.
  destruct (pathTo e t) as [q|] eqn:Het.
  - intros [= ->]. by rewrite (Ht Hndt e p rest Het).
  - intros Hpath.
    assert (pathIn p d = Some (p :: rest)) as Hp by auto.
    assert (p ∈ mjoin (nodeElements <$> d)) as Hin.
    { destruct (decide (p ∈ mjoin (nodeElements <$> d))) as [|Hnot]; [done|].
      apply pathIn_None in Hnot. congruence. }
    rewrite pathTo_None; [done|]. intros Hpt. by apply (Hdisj p).
Qed.

Lemma pathTo_tail t :
  NoDup (nodeElements t) →
  ∀ e p rest, pathTo e t = Some (e :: p :: rest) →
              pathTo p t = Some (p :: rest).
Proof.
  pattern t. apply DomNode_forall_ind. clear t. intros i ks IH.
  rewrite nodeElements_unfold. intros [Hi Hks]%NoDup_cons e p rest.
  rewrite !pathTo_unfold.
  destruct (decide (i = e)) as [-> | Hne]; [done|].
  destruct (pathIn e ks) as [q|] eqn:Hq; simpl; [|done].
  destruct (pathIn_head e ks q Hq) as [q' ->].
  destruct q' as [|p' q']; simpl.
  - intros [= <- <-]. by destruct (decide (i = i)).
  - intros [= <- <-].
    pose proof (pathIn_tail_gen ks e p' q' IH Hks Hq) as Hp.
    assert (p' ∈ mjoin (nodeElements <$> ks)) as Hin.
    { destruct (decide (p' ∈ mjoin (nodeElements <$> ks))) as [|Hnot]; [done|].
      apply pathIn_None in Hnot. congruence. }
    destruct (decide (i = p')) as [-> | _]; [done|].
    by rewrite Hp.
Qed.

Lemma pathIn_tail (d : Document) e p rest :
  wellFormed d →
  pathIn e d = Some (e :: p :: rest) → pathIn p d = Some (p :: rest).
Proof.
  intros Hwf. apply pathIn_tail_gen; [|done].
  apply Forall_forall. intros t _. apply pathTo_tail.
Qed.

(** [for (el = e; el; el = el.parentElement)] visits [inclusiveAncestors]:
    the inclusive ancestors of [e] are [e] followed by those of its parent. *)
Lemma inclusiveAncestors_step (d : Document) (e : HTMLElement) :
  wellFormed d →
  inclusiveAncestors d e
  = e :: match parentElement d e with
         | Some p => inclusiveAncestors d p
         | None => []
         end.
Proof.
  intros Hwf. unfold parentElement, inclusiveAncestors.
  destruct (pathIn e d) as [q|] eqn:Hq; simpl; [|done].
  destruct (pathIn_head e d q Hq) as [[|p rest] ->]; [done|].
  by rewrite (pathIn_tail d e p rest Hwf Hq).
Qed.

Lemma subtree_None e t : e ∉ nodeElements t → subtree e t = None.
Proof.
  pattern t. apply DomNode_forall_ind. clear t. intros i ks IH.
  rewrite nodeElements_unfold, subtree_unfold.
  intros [Hne Hks]%not_elem_of_cons.
  destruct (decide (i = e)); [congruence|].
  induction ks as [|k ks IHks]; simpl in *; [done|].
  apply Forall_cons in IH as [IHk IH].
  apply not_elem_of_app in Hks as [Hk Hks].
  rewrite IHk by done. auto.
Qed.

Lemma subtree_elem e t t' : subtree e t = Some t' → e ∈ nodeElements t.
Proof.
  intros Hs. destruct (decide (e ∈ nodeElements t)) as [|Hnot]; [done|].
  apply subtree_None in Hnot. congruence.
Qed.

Lemma pathIn_elem e (d : list DomNode) p :
  pathIn e d = Some p → e ∈ mjoin (nodeElements <$> d).
Proof.
  intros Hp. destruct (decide (e ∈ mjoin (nodeElements <$> d))) as [|Hnot];
    [done|].
  apply pathIn_None in Hnot. congruence.
Qed.

(** The root of a tree of a forest without duplicates has the path of a
    root. *)
Lemma pathIn_root (ks : list DomNode) k :
  NoDup (mjoin (nodeElements <$> ks)) → k ∈ ks →
  pathIn (nodeElement k) ks = Some [nodeElement k].
Proof.
  induction ks as [|k0 ks IH]; simpl; [by intros _ ?%elem_of_nil|].
  intros (Hnd0 & Hdisj & Hnd)%NoDup_app [-> | Hin]%elem_of_cons.
  - destruct k0 as [i ks0]. rewrite pathTo_unfold. simpl.
    by destruct (decide (i = i)).
  - rewrite pathTo_None; [by apply IH|].
    intros Hk0. apply (Hdisj _ Hk0).
    apply list_elem_of_join. exists (nodeElements k). split.
    + destruct k as [i ks1]. rewrite nodeElements_unfold. apply list_elem_of_here.
    + by apply list_elem_of_fmap_2.
Qed.

Lemma subtreeIn_singleton e t : subtreeIn e [t] = subtree e t.
Proof. simpl. by destruct (subtree e t). Qed.

Lemma pathIn_singleton e t : pathIn e [t] = pathTo e t.
Proof. simpl. by destruct (pathTo e t). Qed.

Lemma childPathIn_forest (d : list DomNode) :
  Forall (λ t, NoDup (nodeElements t) → childPathIn [t]) d →
  NoDup (mjoin (nodeElements <$> d)) → childPathIn d.
Proof.
  induction d as [|t d IH]; intros Hall Hnd p t' k; simpl; [done|].
  apply Forall_cons in Hall as [Ht Hall].
  simpl in Hnd. apply NoDup_app in Hnd as (Hndt & Hdisj & Hndd).
  destruct (subtree p t) as [t0|] eqn:Hsub.
  - intros [= ->] Hk.
    destruct (Ht Hndt p t' k) as (rest & Hp & Hs);
      [by rewrite subtreeIn_singleton|done|].
    rewrite pathIn_singleton in Hp, Hs.
    exists rest. by rewrite Hp, Hs.
  - intros Hsubd Hk.
    destruct (IH Hall Hndd p t' k Hsubd Hk) as (rest & Hp & Hs).
    exists rest.
    rewrite !pathTo_None; [done|..].
    + intros Hin. apply (Hdisj _ Hin). by eapply pathIn_elem.
    + intros Hin. apply (Hdisj _ Hin). by eapply pathIn_elem.
Qed.

Lemma childPathIn_node t : NoDup (nodeElements t) → childPathIn [t].
Proof.
  pattern t. apply DomNode_forall_ind. clear t. intros i ks IH.
  rewrite nodeElements_unfold. intros [Hi Hks]%NoDup_cons p t' k.
  rewrite subtreeIn_singleton, !pathIn_singleton.
  rewrite subtree_unfold, !pathTo_unfold.
  destruct (decide (i = p)) as [-> | Hne].
  - intros [= <-] Hk. simpl in Hk. exists [].
    split; [done|].
    assert (nodeElement k ∈ mjoin (nodeElements <$> ks)) as Hin.
    { apply list_elem_of_join. exists (nodeElements k). split.
      - destruct k as [j ks1]. rewrite nodeElements_unfold.
        apply list_elem_of_here.
      - by apply list_elem_of_fmap_2. }
    destruct (decide (p = nodeElement k)) as [-> | _]; [done|].
    by rewrite pathIn_root.
  - destruct (subtreeIn p ks) as [t0|] eqn:Hsub; [|done].
    intros [= ->] Hk.
    destruct (childPathIn_forest ks IH Hks p t' k Hsub Hk) as (rest & Hp & Hs).
    exists (rest ++ [i]).
    rewrite Hp, Hs. simpl.
    destruct (decide (i = nodeElement k)) as [-> | _].
    { exfalso. apply Hi. by eapply pathIn_elem. }
    done.
Qed.

(** [c.parentElement] is [p] for every [c] visited by the loop over the
    children of [p]. *)
Lemma child_parentElement (d : Document) p s :
  wellFormed d → s ∈ childElements d p → parentElement d s = Some p.
Proof.
  intros Hwf. unfold childElements.
  destruct (subtreeIn p d) as [t'|] eqn:Hsub; [|by intros ?%elem_of_nil].
  intros (k & -> & Hk)%list_elem_of_fmap.
  destruct (childPathIn_forest d) with (p := p) (t' := t') (k := k)
    as (rest & _ & Hs); [|done..|].
  { apply Forall_forall. intros t _. apply childPathIn_node. }
  unfold parentElement, inclusiveAncestors. by rewrite Hs.
Qed.

Lemma subtree_NoDup t :
  NoDup (nodeElements t) →
  ∀ e t', subtree e t = Some t' → NoDup (nodeElements t').
Proof.
  pattern t. apply DomNode_forall_ind. clear t. intros i ks IH Hnd e t'.
  rewrite subtree_unfold.
  destruct (decide (i = e)) as [-> | Hne]; [by intros [= <-]|].
  rewrite nodeElements_unfold in Hnd. apply NoDup_cons in Hnd as [_ Hks].
  clear Hne. induction ks as [|k ks IHks]; simpl in *; [done|].
  apply Forall_cons in IH as [IHk IH].
  apply NoDup_app in Hks as (Hk & _ & Hks).
  destruct (subtree e k) as [t0|] eqn:Hsub; [|by apply IHks].
  intros [= <-]. by eapply IHk.
Qed.

Lemma subtreeIn_NoDup (d : list DomNode) e t' :
  NoDup (mjoin (nodeElements <$> d)) →
  subtreeIn e d = Some t' → NoDup (nodeElements t').
Proof.
  induction d as [|t d IH]; simpl; [done|].
  intros (Ht & _ & Hd)%NoDup_app.
  destruct (subtree e t) as [t0|] eqn:Hsub; [|by apply IH].
  intros [= <-]. by eapply subtree_NoDup.
Qed.

Lemma nodeElement_elem k : nodeElement k ∈ nodeElements k.
Proof. destruct k as [i ks]. rewrite nodeElements_unfold. apply list_elem_of_here. Qed.

Lemma roots_NoDup (ks : list DomNode) :
  NoDup (mjoin (nodeElements <$> ks)) → NoDup (nodeElement <$> ks).
Proof.
  induction ks as [|k0 ks IH]; simpl; [constructor|].
  intros (Hk & Hdisj & Hks)%NoDup_app.
  apply NoDup_cons. split; [|by apply IH].
  intros (k & Hi & Hin)%list_elem_of_fmap.
  apply (Hdisj (nodeElement k0)); [apply nodeElement_elem|].
  apply list_elem_of_join. exists (nodeElements k). split.
  - rewrite Hi. apply nodeElement_elem.
  - by apply list_elem_of_fmap_2.
Qed.

Lemma childElements_NoDup (d : Document) p :
  wellFormed d → NoDup (childElements d p).
Proof.
  intros Hwf. unfold childElements.
  destruct (subtreeIn p d) as [[i ks]|] eqn:Hsub; [|constructor].
  apply subtreeIn_NoDup in Hsub; [|done].
  rewrite nodeElements_unfold in Hsub. apply NoDup_cons in Hsub as [_ Hks].
  by apply roots_NoDup.
Qed.

Lemma elementsBefore_notin (e : HTMLElement) (l acc : list HTMLElement) :
  e ∉ l → elementsBefore e l acc = [].
Proof.
  revert acc. induction l as [|x l IH]; intros acc; simpl; [done|].
  intros [Hne Hl]%not_elem_of_cons.
  destruct (decide (x = e)); [congruence|]. auto.
Qed.

(** Stepping to the previous sibling enumerates [elementsBefore]. *)
Lemma elementsBefore_step (e s : HTMLElement) (l rest : list HTMLElement) :
  NoDup l → elementsBefore e l [] = s :: rest → elementsBefore s l [] = rest.
Proof.
  intros Hnd Hbefore.
  destruct (decide (e ∈ l)) as [Hin|Hnot];
    [|by rewrite elementsBefore_notin in Hbefore].
  apply list_elem_of_split_l in Hin as (l1 & l2 & -> & Hl1).
  rewrite elementsBefore_split, app_nil_r in Hbefore by done.
  assert (l1 = reverse rest ++ [s]) as ->.
  { rewrite <-(reverse_involutive l1), Hbefore. by rewrite reverse_cons. }
  rewrite <-app_assoc in *. simpl in *.
  rewrite elementsBefore_split, app_nil_r, reverse_involutive; [done|].
  by apply NoDup_split_notin in Hnd.
Qed.

Section LoopsOverTheTree.
Variable d : Document.
Hypothesis well_formed : wellFormed d.

(** [for (c = p.firstElementChild; c; c = c.nextElementSibling)] visits
    [childElements d p]: the siblings after the first child are the other
    children, and the siblings after a next sibling are the rest. *)
Lemma nextSiblings_first p c cs :
  childElements d p = c :: cs → nextSiblings d c = cs.
Proof.
  intros Hkids. unfold nextSiblings, siblingsOf.
  rewrite (child_parentElement d p c), Hkids.
  - simpl. by destruct (decide (c = c)).
  - done.
  - rewrite Hkids. apply list_elem_of_here.
Qed.

Lemma nextSiblings_step e s rest :
  nextSiblings d e = s :: rest → nextSiblings d s = rest.
Proof.
  unfold nextSiblings, siblingsOf.
  destruct (parentElement d e) as [p|] eqn:Hp; [|done].
  intros Hafter.
  assert (s ∈ childElements d p) as Hs.
  { apply (elementsAfter_subseteq e). rewrite Hafter. apply list_elem_of_here. }
  rewrite (child_parentElement d p s) by done.
  eapply elementsAfter_step; [|done]. by apply childElements_NoDup.
Qed.

(** [for (c = p.lastElementChild; c; c = c.previousElementSibling)] visits
    the children of [p] backwards. *)
Lemma previousSiblings_last p c cs :
  childElements d p = cs ++ [c] → previousSiblings d c = reverse cs.
Proof.
  intros Hkids. unfold previousSiblings, siblingsOf.
  rewrite (child_parentElement d p c), Hkids.
  - rewrite elementsBefore_split, app_nil_r; [done|].
    apply (NoDup_split_notin cs []). rewrite <-Hkids.
    by apply childElements_NoDup.
  - done.
  - rewrite Hkids. apply elem_of_app. right. apply list_elem_of_here.
Qed.

Lemma previousSiblings_step e s rest :
  previousSiblings d e = s :: rest → previousSiblings d s = rest.
Proof.
  unfold previousSiblings, siblingsOf.
  destruct (parentElement d e) as [p|] eqn:Hp; [|done].
  intros Hbefore.
  assert (s ∈ childElements d p) as Hs.
  { destruct (decide (e ∈ childElements d p)) as [Hin|Hnot];
      [|by rewrite elementsBefore_notin in Hbefore].
    apply list_elem_of_split_l in Hin as (l1 & l2 & Hl & Hl1).
    rewrite Hl in Hbefore |- *.
    rewrite elementsBefore_split, app_nil_r in Hbefore by done.
    apply elem_of_app. left. apply elem_of_reverse. rewrite Hbefore.
    apply list_elem_of_here. }
  rewrite (child_parentElement d p s) by done.
  eapply elementsBefore_step; [|done]. by apply childElements_NoDup.
Qed.

End LoopsOverTheTree.

(** ** The example worlds *)

Example exampleDocument_wellFormed : wellFormed Examples.exampleDocument.
Proof. unfold wellFormed. apply (bool_decide_unpack _). vm_compute. exact I. Qed.

Example exampleDocument_ancestors :
  inclusiveAncestors Examples.exampleDocument 111 = [111; 11; 10; 1]
  ∧ parentElement Examples.exampleDocument 1 = None
  ∧ inclusiveAncestors Examples.exampleDocument 99 = [99].
Proof. vm_compute. done. Qed.

Example exampleDocument_siblings :
  childElements Examples.exampleDocument 10 = [11; 12; 13]
  ∧ nextSiblings Examples.exampleDocument 11 = [12; 13]
  ∧ previousSiblings Examples.exampleDocument 13 = [12; 11]
  ∧ nextSiblings Examples.exampleDocument 1 = [].
Proof. vm_compute. done. Qed.

Example threeGroups_registered :
  groupOn Examples.threeGroups <$> [11; 12; 13] = [Some 1; Some 3; Some 4]
  ∧ containerOn Examples.threeGroups 10 = Some 2
  ∧ obj_keys (_groups (Examples.listContainerOf Examples.threeGroups))
    = [1; 3; 4]
  ∧ _first (Examples.listContainerOf Examples.threeGroups) = Some 1
  ∧ _last (Examples.listContainerOf Examples.threeGroups) = Some 4
  ∧ _onChangeTimer (Examples.listContainerOf Examples.threeGroups) = true.
Proof. vm_compute. done. Qed.

Example settled_notified_first_and_last :
  (onChangeCalls Examples.settled).*1 = [1; 4].
Proof. vm_compute. done. Qed.

Example currentSet_pointers :
  _current Examples.listContainer = Some 1
  ∧ _prev Examples.listContainer = None
  ∧ _next Examples.listContainer = Some 3.
Proof. vm_compute. done. Qed.

Example addGroup_twice_throws :
  Focusable.addGroup Examples.threeGroups 12 FocusableGroupProps.empty
  = Throw "The element already has a focus group".
Proof. vm_compute. done. Qed.

(** ** The rounds of the group loop *)

(** A result of the loop of [_isInCurrentGroup] does not depend on the
    rounds allowed: with more rounds the result is the same. *)
Lemma isInCurrentGroup_loop_more_rounds
  (api : FocusableApi) (w : World) (unlimitedOnly isValidForLimited : bool)
  (n : nat) :
  ∀ (m : nat) (group : GroupRef) (groupElement : HTMLElement) (b : bool),
    n ≤ m →
    Focusable._isInCurrentGroup_loop n w unlimitedOnly isValidForLimited
      group groupElement = Some b →
    Focusable._isInCurrentGroup_loop m w unlimitedOnly isValidForLimited
      group groupElement = Some b.
Proof.
  induction n as [|n IH]; intros m group groupElement b Hle; simpl; [done|].
  destruct m as [|m]; [lia|]. simpl.
  destruct (decide (FocusableGroupState.isCurrent
                      (FocusableGroup.getState w group) = Some false));
    [done|].
  destruct (unlimitedOnly
            && FocusableGroupState.isLimited (FocusableGroup.getState w group)
            && negb isValidForLimited); [done|].
  destruct (parentElement (document w) groupElement) as [parentEl|]; [|done].
  destruct (Focusable._findGroup w parentEl) as [group'|]; [|done].
  destruct (getElement w group') as [groupElement'|]; simpl; [|done].
  apply IH. lia.
Qed.

(** ** The limit flag (C6), the default state (C9), elements outside groups
    (C10) and the invalid operation (C8) *)

Lemma processOnChange_eq c :
  FocusableGroupContainer._processOnChange c = c
  ∨ FocusableGroupContainer._processOnChange c = set_onChangeTimer true c.
Proof.
  unfold FocusableGroupContainer._processOnChange.
  destruct (_onChangeTimer c); auto.
Qed.

Lemma updateVisible_eq c :
  FocusableGroupContainer._updateVisible c = c
  ∨ FocusableGroupContainer._updateVisible c = set_updateVisibleTimer true c.
Proof.
  unfold FocusableGroupContainer._updateVisible.
  destruct (_updateVisibleTimer c); auto.
Qed.

(** Arming a timer changes no other field. *)
Ltac timers :=
  repeat match goal with
    | |- context [FocusableGroupContainer._processOnChange ?c] =>
        destruct (processOnChange_eq c) as [-> | ->]
    | |- context [FocusableGroupContainer._updateVisible ?c] =>
        destruct (updateVisible_eq c) as [-> | ->]
    end.

(** Claim C6.  [getGroupState(g).isLimited] is true if and only if the
    focus-limit mode of [g] is Limited or LimitedTrapFocus and [g] is not
    the unlimited group of the container; it is false as soon as [g] is made
    the unlimited group; [setUnlimited] has no effect for a group in another
    mode, and for a group in one of the two modes [setUnlimited(true)] makes
    its state not limited. *)
Theorem isLimited_iff_limited_mode_and_not_unlimited :
  (∀ w c g,
      FocusableGroupState.isLimited
        (FocusableGroupContainer.getGroupState w c g) = true
      ↔ (FocusableGroupProps.isLimited (getProps w g) = Some Limited
         ∨ FocusableGroupProps.isLimited (getProps w g) = Some LimitedTrapFocus)
        ∧ _unlimited c ≠ Some g)
  ∧ (∀ w c g,
        FocusableGroupState.isLimited
          (FocusableGroupContainer.getGroupState w
             (FocusableGroupContainer.setUnlimitedGroup c (Some g)) g) = false)
  ∧ (∀ w g b,
        FocusableGroupProps.isLimited (getProps w g) ≠ Some Limited →
        FocusableGroupProps.isLimited (getProps w g) ≠ Some LimitedTrapFocus →
        FocusableGroup.setUnlimited w g b = w)
  ∧ (∀ w g r c,
        FocusableGroup.containerOf w g = Some r →
        containerObjects w !! r = Some c →
        FocusableGroupProps.isLimited (getProps w g) = Some Limited
        ∨ FocusableGroupProps.isLimited (getProps w g) = Some LimitedTrapFocus →
        FocusableGroupState.isLimited
          (FocusableGroup.getState (FocusableGroup.setUnlimited w g true) g)
        = false).
Proof.
  split; [|split; [|split]].
  - intros w c g. unfold FocusableGroupContainer.getGroupState. simpl.
    destruct (FocusableGroupProps.isLimited (getProps w g)) as [[]|];
      repeat case_bool_decide; simpl; intuition congruence.
  - intros w c g. unfold FocusableGroupContainer.getGroupState. simpl.
    assert (_unlimited (FocusableGroupContainer.setUnlimitedGroup c (Some g))
            = Some g) as ->.
    { unfold FocusableGroupContainer.setUnlimitedGroup.
      destruct (decide (Some g ≠ _unlimited c)) as [Hne|Heq].
      - timers; by destruct c.
      - destruct (decide (Some g = _unlimited c)); [done|contradiction]. }
    rewrite (bool_decide_eq_false_2 (Some g ≠ Some g)) by (intros H; by apply H).
    by destruct (_ || _).
  - intros w g b H1 H2. unfold FocusableGroup.setUnlimited, FocusableGroup.limitedMode.
    rewrite !bool_decide_eq_false_2 by done. simpl.
    by destruct (FocusableGroup.containerOf w g).
  - intros w g r c Hr Hc Hmode.
    unfold FocusableGroup.setUnlimited, FocusableGroup.limitedMode.
    rewrite Hr.
    assert (bool_decide (FocusableGroupProps.isLimited (getProps w g) = Some Limited)
            || bool_decide (FocusableGroupProps.isLimited (getProps w g)
                            = Some LimitedTrapFocus) = true) as ->.
    { destruct Hmode as [-> | ->]; done. }
    unfold onContainer. rewrite Hc.
    unfold FocusableGroup.getState, FocusableGroupContainer.groupGetState.
    destruct w; simpl in *.
    unfold FocusableGroup.containerOf in Hr. simpl in Hr. rewrite Hr.
    rewrite lookup_insert_eq.
    unfold FocusableGroupContainer.getGroupState. simpl.
    assert (_unlimited (FocusableGroupContainer.setUnlimitedGroup c (Some g))
            = Some g) as ->.
    { unfold FocusableGroupContainer.setUnlimitedGroup.
      destruct (decide (Some g ≠ _unlimited c)) as [Hne|Heq].
      - timers; by destruct c.
      - destruct (decide (Some g = _unlimited c)); [done|contradiction]. }
    rewrite (bool_decide_eq_false_2 (Some g ≠ Some g)) by (intros H; by apply H).
    by destruct (_ || _).
Qed.

(** Claim C9.  For a group without container [getState()] is the fixed
    default state, whatever the focus-limit mode of the group. *)
Theorem getState_without_container (w : World) (g : GroupRef) :
  FocusableGroup.containerOf w g = None →
  FocusableGroup.getState w g
  = {| FocusableGroupState.isCurrent := None;
       FocusableGroupState.isPrevious := false;
       FocusableGroupState.isNext := false;
       FocusableGroupState.isFirst := false;
       FocusableGroupState.isLast := false;
       FocusableGroupState.isVisible := Invisible;
       FocusableGroupState.hasFocus := false;
       FocusableGroupState.siblingHasFocus := false;
       FocusableGroupState.isLimited := false |}.
Proof.
  unfold FocusableGroup.containerOf, FocusableGroup.getState,
    FocusableGroupContainer.groupGetState.
  by intros ->.
Qed.

(** Claim C10.  For an element none of whose inclusive ancestors owns a
    group, [isInCurrentGroup(element)] returns true. *)
Theorem isInCurrentGroup_without_enclosing_group
  (api : FocusableApi) (w : World) (element : HTMLElement) :
  (∀ a, a ∈ inclusiveAncestors (document w) element → groupOn w a = None) →
  Focusable.isInCurrentGroup api w element = Some true.
Proof.
  intros Hnone.
  unfold Focusable.isInCurrentGroup, Focusable._isInCurrentGroup,
    Focusable._findGroup.
  assert (head (omap (groupOn w) (inclusiveAncestors (document w) element))
          = None) as ->; [|done].
  apply head_omap_None, Forall_forall. auto.
Qed.

(** Claim C8.  [addGroup(element, props)] throws if and only if the element
    already owns a group; [removeGroup(element)] on an element that owns no
    group returns normally and leaves the world unchanged. *)
Theorem addGroup_throws_iff_owned_removeGroup_noop :
  (∀ w element props,
      (∃ message, Focusable.addGroup w element props = Throw message)
      ↔ ∃ g, groupOn w element = Some g)
  ∧ (∀ w element,
        groupOn w element = None → Focusable.removeGroup w element = Ok w).
Proof.
  split.
  - intros w element props. unfold Focusable.addGroup.
    destruct (groupOn w element) as [g|].
    + split; eauto.
    + destruct (FocusableGroup.construct w element props) as [w' group].
      split; intros [? ?]; done.
  - intros w element Hnone. unfold Focusable.removeGroup. by rewrite Hnone.
Qed.

(** The theorem at a concrete input. *)
Lemma isLimited_iff_limited_mode_and_not_unlimited_witness :
  FocusableGroup.setUnlimited Examples.settled 1 true = Examples.settled
  ∧ FocusableGroupState.isLimited
      (FocusableGroup.getState
         (FocusableGroup.setUnlimited Examples.settled 3 true) 3) = false.
Proof.
  destruct isLimited_iff_limited_mode_and_not_unlimited
    as (_ & _ & Hother & Hlimited).
  split.
  - apply Hother; vm_compute; discriminate.
  - apply (Hlimited Examples.settled 3 2 (Examples.listContainerOf Examples.settled)).
    + vm_compute. reflexivity.
    + vm_compute. reflexivity.
    + left. vm_compute. reflexivity.
Defined.

(** The theorem at a concrete input. *)
Lemma getState_without_container_witness :
  FocusableGroup.containerOf Examples.rootGroup 1 = None
  ∧ FocusableGroupProps.isLimited (getProps Examples.rootGroup 1) = Some Limited
  ∧ FocusableGroupState.isLimited (FocusableGroup.getState Examples.rootGroup 1)
    = false.
Proof.
  assert (FocusableGroup.containerOf Examples.rootGroup 1 = None) as Hnone
    by (vm_compute; reflexivity).
  split; [exact Hnone|]. split; [vm_compute; reflexivity|].
  rewrite (getState_without_container Examples.rootGroup 1 Hnone). reflexivity.
Defined.

(** The theorem at a concrete input. *)
Lemma isInCurrentGroup_without_enclosing_group_witness :
  Focusable.isInCurrentGroup Examples.buttons Examples.threeGroups 20
  = Some true.
Proof.
  apply isInCurrentGroup_without_enclosing_group.
  intros a Ha. vm_compute in Ha.
  repeat (apply elem_of_cons in Ha as [-> | Ha]; [vm_compute; reflexivity|]).
  by apply elem_of_nil in Ha.
Defined.

(** The theorem at a concrete input. *)
Lemma addGroup_throws_iff_owned_removeGroup_noop_witness :
  (∃ message,
      Focusable.addGroup Examples.threeGroups 11 FocusableGroupProps.empty
      = Throw message)
  ∧ Focusable.removeGroup Examples.threeGroups 20 = Ok Examples.threeGroups.
Proof.
  destruct addGroup_throws_iff_owned_removeGroup_noop as [Hthrows Hnoop].
  split.
  - apply Hthrows. exists 1. vm_compute. reflexivity.
  - apply Hnoop. vm_compute. reflexivity.
Defined.

(** ** The current group and its neighbours (C1) *)

Lemma nearestGroup_head w l :
  nearestGroup w l (head (omap (groupOn w) l)).
Proof.
  unfold nearestGroup.
  destruct (head (omap (groupOn w) l)) as [g|] eqn:Hh.
  - by apply head_omap_Some in Hh.
  - by apply head_omap_None in Hh.
Qed.

(** Claim C1.  After [setCurrentGroup(g)] the current pointer is [g] when
    [g] is a member and undefined otherwise.  When [g] is a member whose node
    is a direct child of the container's node, previous and next are the
    groups of the nearest sibling before and after that node that owns a
    group, undefined when no such sibling exists.  Both are undefined when
    current is undefined or its node is not a direct child of the
    container's node. *)
Theorem setCurrentGroup_current_previous_next
  (w : World) (c : ContainerObject.t) (g : GroupRef) :
  let c' := FocusableGroupContainer.setCurrentGroup w c g in
  _current c' = (if obj_has g (_groups c) then Some g else None)
  ∧ (∀ e before after,
        obj_has g (_groups c) = true →
        getElement w g = Some e →
        parentElement (document w) e = Some (_element c) →
        childElements (document w) (_element c) = before ++ e :: after →
        NoDup (childElements (document w) (_element c)) →
        nearestGroup w (reverse before) (_prev c')
        ∧ nearestGroup w after (_next c'))
  ∧ (obj_has g (_groups c) = false
     ∨ (∀ e, getElement w g = Some e →
             parentElement (document w) e ≠ Some (_element c)) →
     _prev c' = None ∧ _next c' = None).
Proof.
  unfold FocusableGroupContainer.setCurrentGroup.
  destruct c as [el cur prv nxt fst lst foc unl vis hfv pc pp pn pf pl pfo pu pv
                 t1 t2 groups store nvo]; simpl.
  destruct (obj_has g groups) eqn:Hmem; simpl.
  - destruct (getElement w g) as [e|] eqn:He; simpl.
    + destruct (decide (parentElement (document w) e = Some el)) as [Hp|Hp];
        simpl.
      * split; [by timers|]. split.
        -- intros e' before after _ [= <-] _ Hkids Hnd.
           rewrite Hkids in Hnd. apply NoDup_split_notin in Hnd.
           unfold previousSiblings, nextSiblings, siblingsOf.
           rewrite Hp, Hkids.
           rewrite elementsBefore_split, elementsAfter_split by done.
           rewrite app_nil_r.
           timers; simpl; split; apply nearestGroup_head.
        -- intros [?|Hno]; [done|]. by destruct (Hno e).
      * split; [by timers|]. split.
        -- intros e' before after _ [= <-] Hp'. done.
        -- intros _. by timers.
    + split; [by timers|]. split.
      * intros e' before after _ ?. done.
      * intros _. by timers.
  - split; [by timers|]. split.
    + intros e' before after ?. done.
    + intros _. by timers.
Qed.

(** The theorem at a concrete input. *)
Lemma setCurrentGroup_current_previous_next_witness :
  let c' := FocusableGroupContainer.setCurrentGroup Examples.currentSet
              Examples.listContainer 3 in
  _current c' = Some 3
  ∧ nearestGroup Examples.currentSet [11] (_prev c')
  ∧ nearestGroup Examples.currentSet [13] (_next c').
Proof.
  destruct (setCurrentGroup_current_previous_next Examples.currentSet
              Examples.listContainer 3) as (Hcur & Hsiblings & _).
  split; [exact Hcur|].
  apply (Hsiblings 12 [11] [13]).
  - vm_compute. reflexivity.
  - vm_compute. reflexivity.
  - vm_compute. reflexivity.
  - vm_compute. reflexivity.
  - apply (bool_decide_unpack _). vm_compute. exact I.
Defined.

(** ** First and last (C3) *)

Lemma memberOn_Some w c x g :
  FocusableGroupContainer.memberOn w c x = Some g
  ↔ groupOn w x = Some g ∧ obj_has g (_groups c) = true.
Proof.
  unfold FocusableGroupContainer.memberOn.
  destruct (groupOn w x) as [h|]; simpl.
  - destruct (obj_has h (_groups c)) eqn:Hh; split.
    + by intros [= ->].
    + by intros [[= ->] _].
    + done.
    + intros [[= ->] ?]. congruence.
  - split; [done|]. by intros [? _].
Qed.

Lemma memberOn_None w c x :
  FocusableGroupContainer.memberOn w c x = None ↔ ownsNoMember w c x.
Proof.
  unfold FocusableGroupContainer.memberOn, ownsNoMember.
  destruct (groupOn w x) as [h|]; simpl.
  - destruct (obj_has h (_groups c)) eqn:Hh; split.
    + done.
    + intros Hno. specialize (Hno h eq_refl). congruence.
    + by intros _ h' [= <-].
    + done.
  - split; [|done]. by intros _ h [=].
Qed.

Lemma firstMemberGroup_head w c c' l :
  _groups c' = _groups c →
  firstMemberGroup w c' l (head (omap (FocusableGroupContainer.memberOn w c) l)).
Proof.
  intros Hgroups.
  assert (∀ z, ownsNoMember w c z → ownsNoMember w c' z) as Hown.
  { unfold ownsNoMember. by rewrite Hgroups. }
  unfold firstMemberGroup. rewrite Hgroups.
  destruct (head (omap (FocusableGroupContainer.memberOn w c) l)) as [g|] eqn:Hh.
  - apply head_omap_Some in Hh as (l1 & x & l2 & -> & Hnone & Hx).
    apply memberOn_Some in Hx as [Hx Hg].
    exists l1, x, l2. repeat split; try done.
    eapply Forall_impl; [exact Hnone|]. intros z ?. by apply Hown, memberOn_None.
  - apply head_omap_None in Hh.
    eapply Forall_impl; [exact Hh|]. intros z ?. by apply Hown, memberOn_None.
Qed.

Lemma firstMemberGroup_member w c l g :
  firstMemberGroup w c l (Some g) → obj_has g (_groups c) = true.
Proof. by intros (l1 & e & l2 & _ & _ & _ & Hg). Qed.

Lemma setFirstLast_settled w c :
  firstLastSettled w
    (FocusableGroupContainer._updateVisible
       (FocusableGroupContainer._setFirstLast w c))
  ∧ _element (FocusableGroupContainer._updateVisible
                (FocusableGroupContainer._setFirstLast w c)) = _element c
  ∧ _groups (FocusableGroupContainer._updateVisible
               (FocusableGroupContainer._setFirstLast w c)) = _groups c.
Proof.
  unfold FocusableGroupContainer._setFirstLast, firstLastSettled.
  destruct c as [el cur prv nxt fst lst foc unl vis hfv pc pp pn pf pl pfo pu pv
                 t1 t2 groups store nvo]; simpl.
  timers; simpl; (split; [split|done]); by apply firstMemberGroup_head.
Qed.

Lemma applyOp_settled c step :
  firstLastSettled step.1 (applyOp c step)
  ∧ _element (applyOp c step) = _element c.
Proof.
  unfold applyOp, FocusableGroupContainer.addGroup,
    FocusableGroupContainer.removeGroup,
    FocusableGroupContainer.visDelete.
  destruct step as [w [g|g]]; simpl.
  - destruct (setFirstLast_settled w
                (set_groups (obj_set g g (_groups c)) c)) as (H1 & H2 & _).
    split; [done|]. rewrite H2. by destruct c.
  - match goal with
    | |- firstLastSettled _ (FocusableGroupContainer._updateVisible
                               (FocusableGroupContainer._setFirstLast _ ?c')) ∧ _ =>
        destruct (setFirstLast_settled w c') as (H1 & H2 & _)
    end.
    split; [done|]. rewrite H2. by destruct c.
Qed.

Lemma applyOp_remove_not_member w c g :
  obj_has g (_groups (applyOp c (w, RemoveGroup g))) = false.
Proof.
  unfold applyOp, FocusableGroupContainer.removeGroup,
    FocusableGroupContainer.visDelete. simpl.
  match goal with
  | |- context [FocusableGroupContainer._updateVisible
                  (FocusableGroupContainer._setFirstLast _ ?c')] =>
      destruct (setFirstLast_settled w c') as (_ & _ & ->)
  end.
  destruct c; simpl. apply obj_has_delete_eq.
Qed.

Lemma applyOps_element c steps : _element (applyOps c steps) = _element c.
Proof.
  unfold applyOps. revert c.
  induction steps as [|s steps IH]; intros c; simpl; [done|].
  rewrite IH. apply applyOp_settled.
Qed.

(** After a last call in world [w], first and last are settled in [w]. *)
Lemma applyOps_last_settled c0 pre w op :
  let c := applyOps c0 (pre ++ [(w, op)]) in
  firstMemberGroup w c (childElements (document w) (_element c0)) (_first c)
  ∧ firstMemberGroup w c
      (reverse (childElements (document w) (_element c0))) (_last c).
Proof.
  unfold applyOps. rewrite foldl_app. simpl.
  destruct (applyOp_settled (foldl applyOp c0 pre) (w, op)) as [[H1 H2] He].
  rewrite He in H1, H2. simpl in H1, H2.
  change (foldl applyOp ?c ?l) with (applyOps c l) in H1, H2.
  by rewrite applyOps_element in H1, H2.
Qed.

(** Claim C3.  After any sequence of [addGroup] and [removeGroup] calls on a
    container, in the world [w] of the last call, first is the group of the
    first direct child of the container's node that owns a member group and
    last the group of the last such child, each undefined when no direct
    child owns a member group; first and last are members, and never the
    group a final [removeGroup] removed. *)
Theorem first_last_after_membership_calls
  (element : HTMLElement) (w0 : World) (steps : list (World * MembershipOp)) :
  let c := applyOps (FocusableGroupContainer.create element) steps in
  let w := default w0 (last steps.*1) in
  let kids := childElements (document w) element in
  firstMemberGroup w c kids (_first c)
  ∧ firstMemberGroup w c (reverse kids) (_last c)
  ∧ (∀ g, _first c = Some g ∨ _last c = Some g →
          obj_has g (_groups c) = true)
  ∧ (∀ pre w' g,
        let c' := applyOps (FocusableGroupContainer.create element)
                    (pre ++ [(w', RemoveGroup g)]) in
        _first c' ≠ Some g ∧ _last c' ≠ Some g)
  ∧ (∀ c0 pre w' op,
        let c' := applyOps c0 (pre ++ [(w', op)]) in
        let kids' := childElements (document w') (_element c0) in
        firstMemberGroup w' c' kids' (_first c')
        ∧ firstMemberGroup w' c' (reverse kids') (_last c')).
Proof.
  intros c w kids.
  assert (firstMemberGroup w c kids (_first c)
          ∧ firstMemberGroup w c (reverse kids) (_last c)) as [Hfirst Hlast].
  { subst c w kids.
    destruct steps as [|[w op] steps _] using rev_ind.
    - simpl. split; apply Forall_forall; intros x _ h _; done.
    - rewrite fmap_app. simpl. rewrite last_snoc. simpl.
      apply (applyOps_last_settled (FocusableGroupContainer.create element)). }
  split; [done|]. split; [done|]. split; [|split].
  - intros g [Hg|Hg]; rewrite Hg in *; eauto using firstMemberGroup_member.
  - intros pre w' g c'.
    assert (obj_has g (_groups c') = false) as Hnot.
    { subst c'. unfold applyOps. rewrite foldl_app. simpl.
      apply applyOp_remove_not_member. }
    destruct (applyOps_last_settled (FocusableGroupContainer.create element)
                pre w' (RemoveGroup g)) as [H1 H2].
    fold c' in H1, H2.
    split; intros Heq; rewrite Heq in *.
    + apply firstMemberGroup_member in H1. congruence.
    + apply firstMemberGroup_member in H2. congruence.
  - intros c0 pre w' op. apply applyOps_last_settled.
Qed.

(** The theorem at a concrete input. *)
Lemma first_last_after_membership_calls_witness :
  obj_has 3
    (_groups (applyOps (FocusableGroupContainer.create 10)
                [(Examples.threeGroups, AddGroup 1);
                 (Examples.threeGroups, AddGroup 3);
                 (Examples.threeGroups, RemoveGroup 1)])) = true.
Proof.
  destruct (first_last_after_membership_calls 10 Examples.emptyWorld
              [(Examples.threeGroups, AddGroup 1);
               (Examples.threeGroups, AddGroup 3);
               (Examples.threeGroups, RemoveGroup 1)])
    as (_ & _ & Hmember & _).
  apply Hmember. left. vm_compute. reflexivity.
Defined.

(** ** Pointers after a removal (C2) *)

(** Claim C2 as stated fails on the code: every pointer of the example
    container references a member, and after [removeGroup] of its current
    group the current pointer still references the removed group. *)
Lemma removeGroup_breaks_pointer_membership :
  pointersAreMembers Examples.listContainer = true
  ∧ _current (FocusableGroupContainer.removeGroup Examples.currentSet
                Examples.listContainer 1) = Some 1
  ∧ obj_has 1 (_groups (FocusableGroupContainer.removeGroup Examples.currentSet
                          Examples.listContainer 1)) = false
  ∧ pointersAreMembers
      (FocusableGroupContainer.removeGroup Examples.currentSet
         Examples.listContainer 1) = false.
Proof. vm_compute. done. Qed.

(** Claim C2, amended.  [removeGroup(g)] removes [g] from the members and
    from both visibility objects and recomputes first and last, which then
    reference members other than [g]; it leaves current, previous, next,
    focused and unlimited as they were.  A stale current is healed by the
    next [getCurrentGroup], which returns current only when it is a member
    and resets it to undefined otherwise. *)
Theorem removeGroup_purges_and_current_heals_on_read
  (w : World) (c : ContainerObject.t) (g : GroupRef) :
  let c' := FocusableGroupContainer.removeGroup w c g in
  obj_has g (_groups c') = false
  ∧ obj_get g (FocusableGroupContainer.visObject c' (_visibleGroups c')) = None
  ∧ obj_get g (FocusableGroupContainer.visObject c' (_prevVisibleGroups c'))
    = None
  ∧ (∀ h, _first c' = Some h ∨ _last c' = Some h →
          obj_has h (_groups c') = true ∧ h ≠ g)
  ∧ (_current c' = _current c ∧ _prev c' = _prev c ∧ _next c' = _next c
     ∧ _focused c' = _focused c ∧ _unlimited c' = _unlimited c)
  ∧ (∀ c0 : ContainerObject.t,
        let healed := FocusableGroupContainer.getCurrentGroup c0 in
        healed.2 = (h ← _current c0;
                    if obj_has h (_groups c0) then Some h else None)
        ∧ _current healed.1 = healed.2
        ∧ _groups healed.1 = _groups c0).
Proof.
  intros c'.
  assert (obj_has g (_groups c') = false) as Hnot
    by apply (applyOp_remove_not_member w c g).
  destruct (applyOp_settled c (w, RemoveGroup g)) as [[Hf Hl] _].
  change (applyOp c (w, RemoveGroup g)) with c' in Hf, Hl. simpl in Hf, Hl.
  split; [done|].
  assert (∀ h, _first c' = Some h ∨ _last c' = Some h →
               obj_has h (_groups c') = true ∧ h ≠ g) as Hfl.
  { intros h [Hh|Hh]; rewrite Hh in *.
    - apply firstMemberGroup_member in Hf. split; [done|]. congruence.
    - apply firstMemberGroup_member in Hl. split; [done|]. congruence. }
  assert (∀ (store : gmap nat (JsObj ElementVisibility)) r1 r2 r,
            r = r1 ∨ r = r2 →
            obj_get g
              (default []
                 (<[r2 := obj_delete g
                            (default [] (<[r1 := obj_delete g (default [] (store !! r1))]> store !! r2))]>
                    (<[r1 := obj_delete g (default [] (store !! r1))]> store)
                  !! r)) = None) as Hstore.
  { intros store r1 r2 r Hr.
    destruct (decide (r = r2)) as [-> | Hne].
    - rewrite lookup_insert_eq. simpl. apply obj_get_delete_eq.
    - destruct Hr as [-> | ->]; [|done].
      rewrite lookup_insert_ne by done. rewrite lookup_insert_eq. simpl.
      apply obj_get_delete_eq. }
  clear Hnot Hf Hl. subst c'.
  unfold FocusableGroupContainer.removeGroup,
    FocusableGroupContainer._setFirstLast, FocusableGroupContainer.visDelete,
    FocusableGroupContainer.visObject in *.
  destruct c as [el cur prv nxt fst lst foc unl vis hfv pc pp pn pf pl pfo pu pv
                 t1 t2 groups store nvo]; simpl in *.
  split; [|split; [|split; [|split]]].
  - timers; simpl; apply Hstore; auto.
  - timers; simpl; apply Hstore; auto.
  - exact Hfl.
  - timers; done.
  - intros c0. cbv zeta.
    unfold FocusableGroupContainer.getCurrentGroup.
    destruct c0 as [el0 cur0 ? ? ? ? ? ? ? ? ? ? ? ? ? ? ? ? ? ? groups0 ? ?];
      simpl.
    destruct cur0 as [h|]; simpl; [|done].
    by destruct (obj_has h groups0).
Qed.

(** The theorem at a concrete input. *)
Lemma removeGroup_purges_and_current_heals_on_read_witness :
  obj_has 3 (_groups (FocusableGroupContainer.removeGroup Examples.currentSet
                        Examples.listContainer 1)) = true
  ∧ 3 ≠ 1.
Proof.
  destruct (removeGroup_purges_and_current_heals_on_read Examples.currentSet
              Examples.listContainer 1) as (_ & _ & _ & Hfirst & _).
  apply Hfirst. left. vm_compute. reflexivity.
Defined.

(** ** The change-propagation pass (C4) *)

Lemma comparePointer_groups cur prev setPrev acc :
  (∀ v c, _groups (setPrev v c) = _groups c) →
  _groups (FocusableGroupContainer.comparePointer cur prev setPrev acc).1
  = _groups acc.1.
Proof.
  intros Hset. destruct acc as [c changed].
  unfold FocusableGroupContainer.comparePointer.
  destruct (decide (prev c ≠ cur c)); simpl; [apply Hset|done].
Qed.

Lemma compareFocused_groups w acc :
  _groups (FocusableGroupContainer.compareFocused w acc).1 = _groups acc.1.
Proof.
  destruct acc as [c changed].
  unfold FocusableGroupContainer.compareFocused.
  destruct (decide (_prevFocused c ≠ _focused c)); simpl; [|done].
  destruct c as [el cur prv nxt fst lst [f|] unl vis hfv pc pp pn pf pl [pfo|]
                 pu pv t1 t2 groups store nvo]; simpl; try done.
  by destruct (negb _).
Qed.

Lemma compareVisible_groups acc :
  _groups (FocusableGroupContainer.compareVisible acc).1 = _groups acc.1.
Proof.
  destruct acc as [c changed].
  unfold FocusableGroupContainer.compareVisible.
  destruct (decide (_visibleGroups c ≠ _prevVisibleGroups c)); simpl; [|done].
  generalize (FocusableGroupContainer.visObject c (_visibleGroups c)).
  generalize (FocusableGroupContainer.visObject c (_prevVisibleGroups c)).
  intros prevVis vis.
  assert (∀ ids acc,
            _groups (foldl (FocusableGroupContainer.compareVisibleEntry vis
                              prevVis) acc ids).1 = _groups acc.1) as Hfold.
  { induction ids as [|id ids IH]; intros [c0 ch0]; simpl; [done|].
    rewrite IH. unfold FocusableGroupContainer.compareVisibleEntry.
    destruct (decide (obj_get id vis = Some Visible)); simpl; [|done].
    by destruct c0. }
  specialize (Hfold (obj_keys vis) (set_hasFullyVisibleGroup false c, changed)).
  destruct (foldl _ _ (obj_keys vis)) as [c1 ch1]. simpl in *.
  transitivity (_groups c1); [by destruct c1|].
  rewrite Hfold. by destruct c.
Qed.

Lemma collectChanged_groups w c :
  _groups (FocusableGroupContainer.collectChanged w c).1 = _groups c.
Proof.
  unfold FocusableGroupContainer.collectChanged.
  rewrite compareVisible_groups.
  rewrite !comparePointer_groups by (by intros v []).
  rewrite compareFocused_groups. by destruct c.
Qed.











(** ** The layer test of the tree walk (C5) *)

Lemma walkNode_unfold filter e ks :
  walkNode filter (Node e ks)
  = r ← filter e;
    match r with
    | FILTER_ACCEPT => Some (Some e)
    | FILTER_REJECT => Some None
    | FILTER_SKIP => walkNodes filter ks
    end.
Proof.
  simpl. destruct (filter e) as [[]|]; simpl; try done.
  induction ks as [|k ks IH]; simpl; [done|].
  destruct (walkNode filter k) as [[x|]|]; simpl; done.
Qed.

(** When the filter rejects nothing, the walk returns the first accepted
    element in document order. *)
Lemma walkNodes_no_reject filter (accept : HTMLElement → bool) ks :
  (∀ x, x ∈ mjoin (nodeElements <$> ks) →
        filter x = Some (if accept x then FILTER_ACCEPT else FILTER_SKIP)) →
  walkNodes filter ks
  = Some (head (base.filter (λ x, accept x = true)
                  (mjoin (nodeElements <$> ks)))).
Proof.
  revert ks.
  assert (∀ t,
            (∀ x, x ∈ nodeElements t →
                  filter x
                  = Some (if accept x then FILTER_ACCEPT else FILTER_SKIP)) →
            walkNode filter t
            = Some (head (base.filter (λ x, accept x = true) (nodeElements t))))
    as Hnode.
  { intros t. pattern t. apply DomNode_forall_ind. clear t.
    intros e ks IH Hfilter.
    rewrite walkNode_unfold, nodeElements_unfold.
    rewrite nodeElements_unfold in Hfilter.
    rewrite (Hfilter e) by apply list_elem_of_here. simpl.
    rewrite filter_cons.
    destruct (accept e) eqn:He; simpl.
    { by destruct (decide (true = true)). }
    destruct (decide (false = true)) as [|_]; [done|].
    assert (∀ x, x ∈ mjoin (nodeElements <$> ks) →
                 filter x
                 = Some (if accept x then FILTER_ACCEPT else FILTER_SKIP))
      as Hks by (intros x Hx; by apply Hfilter, list_elem_of_further).
    clear Hfilter He.
    induction ks as [|k ks IHks]; simpl; [done|].
    apply Forall_cons in IH as [IHk IH].
    rewrite IHk by (intros x Hx; apply Hks; simpl; apply elem_of_app; auto).
    simpl. rewrite filter_app.
    destruct (base.filter (λ x, accept x = true) (nodeElements k))
      as [|y ys]; simpl; [|done].
    apply IHks; [done|].
    intros x Hx. apply Hks. simpl. apply elem_of_app. auto. }
  induction ks as [|k ks IHks]; intros Hfilter; simpl; [done|].
  rewrite Hnode by (intros x Hx; apply Hfilter; simpl; apply elem_of_app; auto).
  simpl. rewrite filter_app.
  destruct (base.filter (λ x, accept x = true) (nodeElements k))
    as [|y ys]; simpl; [|done].
  apply IHks. intros x Hx. apply Hfilter. simpl. apply elem_of_app. auto.
Qed.

Lemma walkNodes_all_rejected filter ks :
  (∀ k, k ∈ ks → filter (nodeElement k) = Some FILTER_REJECT) →
  walkNodes filter ks = Some None.
Proof.
  induction ks as [|[e ks'] ks IH]; intros Hrej; simpl; [done|].
  assert (filter e = Some FILTER_REJECT) as ->
    by apply (Hrej (Node e ks')), list_elem_of_here.
  simpl. apply IH. intros k Hk. by apply Hrej, list_elem_of_further.
Qed.

Lemma acceptElement_blocked api w e accept ignoreGroup :
  layerBlocks w e →
  Focusable._acceptElement api w e accept false ignoreGroup
  = Some FILTER_REJECT.
Proof.
  intros (li & cur & Hli & Hcur & Hne & Hnot).
  unfold Focusable._acceptElement. rewrite Hli. simpl. rewrite Hcur, Hnot.
  repeat case_bool_decide; simpl; try done; congruence.
Qed.

Lemma acceptElement_layer_passes api w e accept ignoreGroup :
  getLayerFor w e = None
  ∨ (∃ li, getLayerFor w e = Some li
           ∧ (root_getCurrentLayerId li = None
              ∨ root_getCurrentLayerId li = Some (layer_userId li)
              ∨ layer_isAlwaysAccessible li = true)) →
  Focusable._acceptElement api w e accept false ignoreGroup
  = Focusable._acceptElement api w e accept true ignoreGroup.
Proof.
  unfold Focusable._acceptElement.
  intros [-> | (li & -> & Hpass)]; simpl; [done|].
  destruct Hpass as [-> | [-> | ->]]; simpl;
    repeat case_bool_decide; simpl; try done; congruence.
Qed.

(** Claim C5 as stated fails on the code: a candidate for which no layer
    information is resolved is not merely skipped; here it is rejected with
    its subtree by the grouping check, and accepted when grouping is
    ignored. *)
Lemma candidate_without_layer_not_skipped :
  getLayerFor Examples.threeGroups 111 = None
  ∧ Focusable._acceptElement Examples.buttons Examples.threeGroups 111
      (λ _, true) false false = Some FILTER_REJECT
  ∧ Focusable._acceptElement Examples.buttons Examples.threeGroups 111
      (λ _, true) false true = Some FILTER_ACCEPT.
Proof. vm_compute. done. Qed.

(** Claim C5, amended.  With layering not ignored: a candidate whose
    resolved layer has an id different from a tracked current layer id and
    is not always accessible is rejected with its subtree; [findFirst] on a
    context whose children are all such candidates returns null; when every
    descendant lies in an always-accessible layer and passes the grouping
    check, [findFirst] returns a focusable descendant whenever one exists;
    and a candidate with no resolved layer, or whose root tracks no current
    layer id, is classified exactly as if layering were ignored. *)
Theorem acceptElement_layer_classification
  (api : FocusableApi) (w : World) (ignoreGroup : bool) :
  (∀ e accept,
      layerBlocks w e →
      Focusable._acceptElement api w e accept false ignoreGroup
      = Some FILTER_REJECT)
  ∧ (∀ context includeProgrammaticallyFocusable,
        (∀ kid, kid ∈ childElements (document w) context →
                layerBlocks w kid) →
        Focusable.findFirst api w (Some context)
          includeProgrammaticallyFocusable false ignoreGroup = Some None)
  ∧ (∀ context includeProgrammaticallyFocusable target,
        (∀ e, e ∈ descendants (document w) context →
              ∃ li, getLayerFor w e = Some li
                    ∧ layer_isAlwaysAccessible li = true) →
        (ignoreGroup = true
         ∨ ∀ e, e ∈ descendants (document w) context →
                Focusable._isInCurrentGroup api w e true = Some true) →
        target ∈ descendants (document w) context →
        api_isFocusable api w target includeProgrammaticallyFocusable = true →
        ∃ found,
          Focusable.findFirst api w (Some context)
            includeProgrammaticallyFocusable false ignoreGroup
          = Some (Some found)
          ∧ found ∈ descendants (document w) context
          ∧ api_isFocusable api w found includeProgrammaticallyFocusable
            = true)
  ∧ (∀ e accept,
        getLayerFor w e = None
        ∨ (∃ li, getLayerFor w e = Some li
                 ∧ root_getCurrentLayerId li = None) →
        Focusable._acceptElement api w e accept false ignoreGroup
        = Focusable._acceptElement api w e accept true ignoreGroup).
Proof.
  split; [|split; [|split]].
  - intros e accept. apply acceptElement_blocked.
  - intros context incl Hkids.
    unfold Focusable.findFirst, Focusable._findElement, nextNodeFromRoot.
    simpl. unfold childElements in Hkids.
    destruct (subtreeIn context (document w)) as [t|]; [|done].
    apply walkNodes_all_rejected. intros k Hk.
    apply acceptElement_blocked, Hkids. by apply list_elem_of_fmap_2.
  - intros context incl target Hlayer Hgroup Htarget Hfocusable.
    unfold Focusable.findFirst, Focusable._findElement, nextNodeFromRoot.
    simpl. unfold descendants in *.
    destruct (subtreeIn context (document w)) as [t|];
      [|by apply elem_of_nil in Htarget].
    rewrite (walkNodes_no_reject _ (λ x, api_isFocusable api w x incl)).
    + destruct (head _) as [found|] eqn:Hhead.
      * exists found. split; [done|].
        apply head_Some_elem_of, list_elem_of_filter in Hhead.
        by destruct Hhead.
      * exfalso. apply head_None in Hhead.
        assert (target ∈ base.filter
                  (λ x, api_isFocusable api w x incl = true)
                  (mjoin (nodeElements <$> nodeKids t))) as Hin
          by by apply list_elem_of_filter.
        rewrite Hhead in Hin. by apply elem_of_nil in Hin.
    + intros x Hx.
      rewrite acceptElement_layer_passes.
      * unfold Focusable._acceptElement. simpl.
        destruct Hgroup as [-> | Hgroup]; [done|].
        rewrite (Hgroup x Hx). by destruct ignoreGroup.
      * right. destruct (Hlayer x Hx) as (li & Hli & Hacc). eauto.
  - intros e accept Hnone. apply acceptElement_layer_passes.
    destruct Hnone as [?|(li & ? & ?)]; eauto 6.
Qed.

(** The theorem at a concrete input. *)
Lemma acceptElement_layer_classification_witness :
  Focusable.findFirst Examples.buttons (Examples.layered false) (Some 10)
    false false false = Some None
  ∧ ∃ found,
      Focusable.findFirst Examples.buttons (Examples.layered true) (Some 10)
        false false false = Some (Some found)
      ∧ found ∈ descendants (document (Examples.layered true)) 10
      ∧ api_isFocusable Examples.buttons (Examples.layered true) found false
        = true.
Proof.
  split.
  - destruct (acceptElement_layer_classification Examples.buttons
                (Examples.layered false) false) as (_ & Hnull & _).
    apply Hnull. intros kid _.
    exists {| layer_userId := "dialog"; layer_isAlwaysAccessible := false;
              root_getCurrentLayerId := Some "page" |}, "page".
    repeat split; try reflexivity. simpl. discriminate.
  - destruct (acceptElement_layer_classification Examples.buttons
                (Examples.layered true) false) as (_ & _ & Hfound & _).
    apply (Hfound 10 false 112).
    + intros e _. eexists. split; reflexivity.
    + right. intros e He. vm_compute in He.
      repeat (apply elem_of_cons in He as [-> | He];
              [vm_compute; reflexivity|]).
      by apply elem_of_nil in He.
    + apply (bool_decide_unpack _). vm_compute. exact I.
    + vm_compute. reflexivity.
Defined.

(** ** The reaction to a focus change (C7) *)

(** *** Frame of the container methods called by [_onFocus] *)




Lemma onContainer_lookup r f w r' :
  containerObjects (onContainer r f w) !! r'
  = (if decide (r' = r) then f else id) <$> containerObjects w !! r'.
Proof.
  unfold onContainer.
  destruct (containerObjects w !! r) as [c|] eqn:Hc.
  - destruct w; simpl in *.
    destruct (decide (r' = r)) as [-> | Hne].
    + by rewrite lookup_insert_eq, Hc.
    + rewrite lookup_insert_ne by done.
      by destruct (_ !! r').
  - destruct (decide (r' = r)) as [-> | Hne].
    + by rewrite Hc.
    + by destruct (_ !! r').
Qed.



Lemma containerOf_frame w w' g :
  groupObjects w' = groupObjects w →
  FocusableGroup.containerOf w' g = FocusableGroup.containerOf w g
  ∧ FocusableGroup.limitedMode w' g = FocusableGroup.limitedMode w g
  ∧ getElement w' g = getElement w g.
Proof.
  intros Hg.
  unfold FocusableGroup.containerOf, FocusableGroup.limitedMode, getProps,
    getElement.
  by rewrite Hg.
Qed.



Section OnFocusSteps.
Variable api : FocusableApi.
Variable element : HTMLElement.



End OnFocusSteps.

(** *** The keys of [newFocusedGroups] *)

Lemma obj_set_elem {V} k (v : V) o k' v' :
  (k', v') ∈ obj_set k v o → (k', v') = (k, v) ∨ (k', v') ∈ o.
Proof.
  induction o as [|[k0 v0] o IH]; simpl.
  - intros ?%list_elem_of_singleton. auto.
  - destruct (decide (k = k0)) as [-> | Hne].
    + intros [Heq|Hin]%elem_of_cons; [auto|].
      right. by apply list_elem_of_further.
    + intros [Heq|Hin]%elem_of_cons.
      * right. rewrite Heq. apply list_elem_of_here.
      * destruct (IH Hin) as [?|?]; [auto|].
        right. by apply list_elem_of_further.
Qed.



Lemma elem_obj_has {V} k (v : V) o : (k, v) ∈ o → obj_has k o = true.
Proof.
  intros Hin. apply obj_has_keys. unfold obj_keys.
  by apply (list_elem_of_fmap_2 fst) in Hin.
Qed.

(** *** The loops of [_onFocus] on the two pointers *)

Section OnFocusLoops.
Variable api : FocusableApi.
Variable element : HTMLElement.









End OnFocusLoops.





(** ** A change pass after a change pass *)

Lemma compareVisibleEntry_fold vis prevVis ids : ∀ c changed,
  ∃ changed',
    foldl (FocusableGroupContainer.compareVisibleEntry vis prevVis)
      (c, changed) ids
    = (if existsb (λ id, bool_decide (obj_get id vis = Some Visible)) ids
       then set_hasFullyVisibleGroup true c else c, changed').
Proof.
  induction ids as [|id ids IH]; intros c changed; cbn [foldl existsb].
  - by exists changed.
  - assert (FocusableGroupContainer.compareVisibleEntry vis prevVis
              (c, changed) id
            = (if decide (obj_get id vis = Some Visible)
               then set_hasFullyVisibleGroup true c else c,
               if decide (obj_get id vis ≠ obj_get id prevVis)
               then changed ++ [obj_get id (_groups c)] else changed))
      as -> by done.
    destruct (decide (obj_get id vis = Some Visible)) as [Hv|Hv].
    + rewrite bool_decide_eq_true_2 by done.
      destruct (IH (set_hasFullyVisibleGroup true c)
                  (if decide (obj_get id vis ≠ obj_get id prevVis)
                   then changed ++ [obj_get id (_groups c)] else changed))
        as (changed' & ->).
      exists changed'. simpl. by destruct (existsb _ ids), c.
    + rewrite bool_decide_eq_false_2 by done. apply IH.
Qed.

(** The comparison of the visibility objects touches the flag and the
    snapshot reference only. *)
Lemma compareVisible_fields c changed :
  (FocusableGroupContainer.compareVisible (c, changed)).1
  = set_prevVisibleGroups (_visibleGroups c)
      (set_hasFullyVisibleGroup (fullyVisibleAfterPass c) c).
Proof.
  unfold FocusableGroupContainer.compareVisible, fullyVisibleAfterPass.
  destruct (decide (_visibleGroups c ≠ _prevVisibleGroups c)) as [Hne|Heq].
  - destruct (compareVisibleEntry_fold
                (FocusableGroupContainer.visObject c (_visibleGroups c))
                (FocusableGroupContainer.visObject c (_prevVisibleGroups c))
                (obj_keys (FocusableGroupContainer.visObject c
                             (_visibleGroups c)))
                (set_hasFullyVisibleGroup false c) changed)
      as (changed' & ->).
    destruct (existsb _ _); by destruct c.
  - simpl.
    assert (_prevVisibleGroups c = _visibleGroups c) as Hv.
    { by destruct (decide (_visibleGroups c = _prevVisibleGroups c)). }
    destruct c; simpl in *. by rewrite Hv.
Qed.

Lemma comparePointer_fst cur prev setPrev acc :
  (∀ c, setPrev (prev c) c = c) →
  (FocusableGroupContainer.comparePointer cur prev setPrev acc).1
  = setPrev (cur acc.1) acc.1.
Proof.
  intros Heta. destruct acc as [c changed].
  unfold FocusableGroupContainer.comparePointer.
  destruct (decide (prev c ≠ cur c)) as [?|Heq%dec_stable]; simpl; [done|].
  by rewrite <-Heq, Heta.
Qed.

Lemma compareFocused_fst w c changed :
  (FocusableGroupContainer.compareFocused w (c, changed)).1
  = set_prevFocused (_focused c)
      (if focusLeftUnmemorized w c
       then set_next None (set_prev None (set_current None c)) else c).
Proof.
  unfold FocusableGroupContainer.compareFocused, focusLeftUnmemorized.
  destruct (decide (_prevFocused c ≠ _focused c)) as [?|Heq%dec_stable].
  - destruct (_focused c) as [f|] eqn:Hf, (_prevFocused c) as [pf|];
      simpl; rewrite ?Hf; try done.
    destruct (negb _); simpl; [|by rewrite Hf].
    destruct c; simpl in *. by subst.
  - simpl. rewrite Heq. destruct (_focused c) eqn:Hf; destruct c; simpl in *;
      by subst.
Qed.

(** What the comparisons of a pass leave of the instance: the pointers
    [_current], [_prev] and [_next] are cleared when focus left, the
    snapshot is taken, and nothing else but the visibility flag changes. *)
Lemma collectChanged_fst w c :
  (FocusableGroupContainer.collectChanged w c).1
  = let c0 := set_onChangeTimer false c in
    let c1 := if focusLeftUnmemorized w c
              then set_next None (set_prev None (set_current None c0))
              else c0 in
    let c1 := set_prevFocused (_focused c1) c1 in
    let c1 := set_prevCurrent (_current c1) c1 in
    let c1 := set_prevPrev (_prev c1) c1 in
    let c1 := set_prevNext (_next c1) c1 in
    let c1 := set_prevFirst (_first c1) c1 in
    let c1 := set_prevLast (_last c1) c1 in
    let c1 := set_prevUnlimited (_unlimited c1) c1 in
    set_prevVisibleGroups (_visibleGroups c1)
      (set_hasFullyVisibleGroup (fullyVisibleAfterPass c) c1).
Proof.
  unfold FocusableGroupContainer.collectChanged.
  match goal with
  | |- (FocusableGroupContainer.compareVisible ?acc).1 = _ =>
      destruct acc as [c1 changed1] eqn:Hacc
  end.
  rewrite compareVisible_fields.
  apply (f_equal fst) in Hacc. cbn [fst] in Hacc.
  rewrite !comparePointer_fst in Hacc by (by intros []).
  rewrite compareFocused_fst in Hacc. rewrite <-Hacc.
  assert (focusLeftUnmemorized w (set_onChangeTimer false c)
          = focusLeftUnmemorized w c) as -> by (by destruct c).
  unfold fullyVisibleAfterPass, FocusableGroupContainer.visObject.
  by destruct (focusLeftUnmemorized w c), c.
Qed.

Lemma collectChanged_snapshotTaken w c :
  snapshotTaken (FocusableGroupContainer.collectChanged w c).1.
Proof.
  rewrite collectChanged_fst.
  destruct (focusLeftUnmemorized w c), c; unfold snapshotTaken; simpl; tauto.
Qed.

Lemma collectChanged_after_snapshot w c :
  snapshotTaken c → FocusableGroupContainer.collectChanged w c = (c, []).
Proof.
  intros (Hf & Hc & Hp & Hn & Hfi & Hl & Hu & Hv & Ht).
  unfold FocusableGroupContainer.collectChanged,
    FocusableGroupContainer.compareVisible,
    FocusableGroupContainer.comparePointer,
    FocusableGroupContainer.compareFocused.
  destruct c; simpl in *. subst.
  repeat (match goal with
          | |- context [decide (?a ≠ ?b)] =>
              destruct (decide (a ≠ b)) as [?|_]; [done|]; simpl
          end).
  done.
Qed.

Lemma onChangeTimeout_unfold w r c :
  containerObjects w !! r = Some c →
  FocusableGroupContainer.onChangeTimeout w r
  = let cc := FocusableGroupContainer.collectChanged w c in
    let w1 := set_containerObjects (<[r := cc.1]> (containerObjects w)) w in
    set_onChangeCalls
      (onChangeCalls w1
       ++ FocusableGroupContainer.notify w1 []
            (FocusableGroupContainer.filterMembers cc.1 cc.2)) w1.
Proof.
  intros Hc. unfold FocusableGroupContainer.onChangeTimeout. rewrite Hc.
  by destruct (FocusableGroupContainer.collectChanged w c).
Qed.

(** A run of the change pass leaves nothing for a second run: run again at
    once, it changes nothing and invokes no callback. *)
Theorem change_pass_settles (w : World) (r : ContainerRef) :
  let w' := FocusableGroupContainer.onChangeTimeout w r in
  FocusableGroupContainer.onChangeTimeout w' r = w'
  ∧ tickCalls w' r = []
  ∧ ∀ c, containerObjects w' !! r = Some c → snapshotTaken c.
Proof.
  intros w'.
  assert (FocusableGroupContainer.onChangeTimeout w' r = w'
          ∧ ∀ c, containerObjects w' !! r = Some c → snapshotTaken c)
    as [Hsame Hsnap].
  { destruct (containerObjects w !! r) as [c|] eqn:Hc.
    - pose proof (collectChanged_snapshotTaken w c) as Hsnap.
      assert (containerObjects w' !! r
              = Some (FocusableGroupContainer.collectChanged w c).1) as Hc'.
      { unfold w'. rewrite (onChangeTimeout_unfold w r c Hc).
        destruct w; simpl. apply lookup_insert_eq. }
      split; [|intros c0; rewrite Hc'; by intros [= <-]].
      rewrite (onChangeTimeout_unfold w' r _ Hc').
      rewrite collectChanged_after_snapshot by done. simpl.
      rewrite insert_id by done.
      destruct w'; simpl. by rewrite app_nil_r.
    - assert (w' = w) as Hw.
      { unfold w', FocusableGroupContainer.onChangeTimeout. by rewrite Hc. }
      rewrite Hw.
      unfold FocusableGroupContainer.onChangeTimeout. rewrite Hc.
      split; [done|]. by intros c. }
  split; [done|]. split; [|done].
  unfold tickCalls. rewrite Hsame. by rewrite drop_all.
Qed.

(** The theorem at a concrete input. *)
Lemma change_pass_settles_witness :
  snapshotTaken (Examples.listContainerOf Examples.settled).
Proof.
  destruct (change_pass_settles Examples.threeGroups 2) as (_ & _ & Hsnap).
  apply Hsnap. vm_compute. reflexivity.
Defined.

(** When focus has left a container, the next change pass forgets the
    current group and its neighbours, unless the group that had the focus
    memorizes the current group; in no other case does a pass change these
    pointers, and it never changes the members or the other pointers. *)
Theorem change_pass_forgets_current_when_focus_left
  (w : World) (r : ContainerRef) (c : ContainerObject.t) :
  containerObjects w !! r = Some c →
  ∃ c', containerObjects (FocusableGroupContainer.onChangeTimeout w r) !! r
        = Some c'
        ∧ (_current c', _prev c', _next c')
          = (if focusLeftUnmemorized w c then (None, None, None)
             else (_current c, _prev c, _next c))
        ∧ (_first c', _last c', _focused c', _unlimited c')
          = (_first c, _last c, _focused c, _unlimited c)
        ∧ _groups c' = _groups c
        ∧ _onChangeTimer c' = false.
Proof.
  intros Hc. exists (FocusableGroupContainer.collectChanged w c).1.
  split.
  - rewrite (onChangeTimeout_unfold w r c Hc).
    destruct w; simpl. apply lookup_insert_eq.
  - rewrite collectChanged_fst.
    by destruct (focusLeftUnmemorized w c), c.
Qed.

(** The theorem at a concrete input. *)
Lemma change_pass_forgets_current_when_focus_left_witness :
  _current (Examples.listContainerOf Examples.focusLeft) = Some 1
  ∧ ∃ c', containerObjects
            (FocusableGroupContainer.onChangeTimeout Examples.focusLeft 2) !! 2
          = Some c'
          ∧ (_current c', _prev c', _next c') = (None, None, None).
Proof.
  split; [vm_compute; reflexivity|].
  destruct (change_pass_forgets_current_when_focus_left Examples.focusLeft 2
              (Examples.listContainerOf Examples.focusLeft))
    as (c' & Hc' & Hpointers & _).
  - vm_compute. reflexivity.
  - exists c'. split; [exact Hc'|]. rewrite Hpointers.
    vm_compute. reflexivity.
Defined.

(** A change pass recomputes the flag [_hasFullyVisibleGroup] only when the
    visibility object has been replaced since the last pass: then the flag
    says whether some entry of the object is fully visible.  While the
    object is the one of the snapshot the flag keeps its value, whatever
    entries have been deleted from the object in place. *)
Theorem change_pass_recomputes_fully_visible_flag
  (w : World) (r : ContainerRef) (c : ContainerObject.t) :
  containerObjects w !! r = Some c →
  ∃ c', containerObjects (FocusableGroupContainer.onChangeTimeout w r) !! r
        = Some c'
        ∧ _hasFullyVisibleGroup c' = fullyVisibleAfterPass c
        ∧ _visibleGroups c' = _visibleGroups c
        ∧ visObjects c' = visObjects c
        ∧ (_prevVisibleGroups c = _visibleGroups c →
           _hasFullyVisibleGroup c' = _hasFullyVisibleGroup c).
Proof.
  intros Hc. exists (FocusableGroupContainer.collectChanged w c).1.
  split.
  - rewrite (onChangeTimeout_unfold w r c Hc).
    destruct w; simpl. apply lookup_insert_eq.
  - rewrite collectChanged_fst.
    split; [by destruct (focusLeftUnmemorized w c), c|].
    split; [by destruct (focusLeftUnmemorized w c), c|].
    split; [by destruct (focusLeftUnmemorized w c), c|].
    intros Hsame.
    transitivity (fullyVisibleAfterPass c);
      [by destruct (focusLeftUnmemorized w c), c|].
    unfold fullyVisibleAfterPass. rewrite Hsame.
    by destruct (decide (_visibleGroups c ≠ _visibleGroups c)).
Qed.

(** The theorem at a concrete input. *)
Lemma change_pass_recomputes_fully_visible_flag_witness :
  _hasFullyVisibleGroup (Examples.listContainerOf Examples.lit) = false
  ∧ ∃ c', containerObjects
            (FocusableGroupContainer.onChangeTimeout Examples.lit 2) !! 2
          = Some c'
          ∧ _hasFullyVisibleGroup c' = true.
Proof.
  split; [vm_compute; reflexivity|].
  destruct (change_pass_recomputes_fully_visible_flag Examples.lit 2
              (Examples.listContainerOf Examples.lit))
    as (c' & Hc' & Hflag & _).
  - vm_compute. reflexivity.
  - exists c'. split; [exact Hc'|]. rewrite Hflag. vm_compute. reflexivity.
Defined.

(** ** The visibility refresh *)

Lemma obj_get_set_ne {V} k k' (v : V) o :
  k ≠ k' → obj_get k (obj_set k' v o) = obj_get k o.
Proof.
  intros Hne. induction o as [|[k0 v0] o IH]; simpl.
  - by destruct (decide (k = k')).
  - destruct (decide (k' = k0)) as [-> | Hne0]; simpl.
    + by destruct (decide (k = k0)).
    + destruct (decide (k = k0)); [done|]. exact IH.
Qed.

(** The object that the loop of the refresh builds holds, for each visited
    id, its classification unless that is [Invisible]. *)
Lemma refresh_fold_get (cls cur : nat → ElementVisibility) ids :
  ∀ isChanged (visibleGroups : JsObj ElementVisibility),
    let result :=
      foldl (λ (acc : bool * JsObj ElementVisibility) (id : nat),
               let '(isChanged, visibleGroups) := acc in
               (if decide (cur id ≠ cls id) then true else isChanged,
                if decide (cls id ≠ Invisible)
                then obj_set id (cls id) visibleGroups else visibleGroups))
            (isChanged, visibleGroups) ids in
    (∀ id, obj_get id result.2
           = if bool_decide (id ∈ ids ∧ cls id ≠ Invisible)
             then Some (cls id) else obj_get id visibleGroups)
    ∧ (result.1 = false → isChanged = false ∧ ∀ id, id ∈ ids → cur id = cls id)
    ∧ (result.1 = true → isChanged = true ∨ ∃ id, id ∈ ids ∧ cur id ≠ cls id).
Proof.
  induction ids as [|i ids IH]; intros isChanged visibleGroups; cbv zeta;
    cbn [foldl fst snd].
  - split; [|split].
    + intros id. rewrite bool_decide_eq_false_2; [done|].
      intros [Hin _]. by apply elem_of_nil in Hin.
    + intros ->. split; [done|]. by intros id ?%elem_of_nil.
    + auto.
  - pose proof (IH (if decide (cur i ≠ cls i) then true else isChanged)
                  (if decide (cls i ≠ Invisible)
                   then obj_set i (cls i) visibleGroups else visibleGroups))
      as Hrest.
    cbv zeta in Hrest. destruct Hrest as (Hget & Hfalse & Htrue).
    split; [|split].
    + intros id. rewrite Hget.
      destruct (decide (id = i)) as [-> | Hne].
      * destruct (decide (cls i ≠ Invisible)) as [Hvis|Hinv].
        -- rewrite obj_get_set_eq.
           rewrite (bool_decide_eq_true_2 (i ∈ i :: ids ∧ _))
             by (split; [apply list_elem_of_here|done]).
           by destruct (bool_decide _).
        -- rewrite !bool_decide_eq_false_2; [done|tauto..].
      * assert (obj_get id (if decide (cls i ≠ Invisible)
                            then obj_set i (cls i) visibleGroups
                            else visibleGroups) = obj_get id visibleGroups)
          as -> by (destruct (decide (cls i ≠ Invisible));
                    [by apply obj_get_set_ne|done]).
        apply (f_equal (λ b : bool, if b then _ else _)).
        apply bool_decide_ext. rewrite elem_of_cons. tauto.
    + intros Hres. destruct (Hfalse Hres) as [Hb Hall].
      destruct (decide (cur i ≠ cls i)) as [|Heq%dec_stable]; [done|].
      split; [done|]. intros id [-> | Hin]%elem_of_cons; auto.
    + intros Hres. destruct (Htrue Hres) as [Hb | (id & Hin & Hne)].
      * destruct (decide (cur i ≠ cls i)) as [Hne|]; [|auto].
        right. exists i. split; [apply list_elem_of_here|done].
      * right. exists id. split; [by apply list_elem_of_further|done].
Qed.

Lemma processOnChange_timer c :
  _onChangeTimer (FocusableGroupContainer._processOnChange c) = true.
Proof.
  unfold FocusableGroupContainer._processOnChange.
  destruct (_onChangeTimer c) eqn:Ht; [done|]. by destruct c.
Qed.

(** After the visibility refresh has run, the visibility reported for
    every member is the one the classifier answers for its element.  A
    refresh that finds every recorded visibility up to date only clears its
    timer; any other refresh keeps the old visibility object as the snapshot
    and schedules a change pass. *)
Theorem visibility_refresh_matches_classifier
  (w : World) (c : ContainerObject.t) :
  let c' := FocusableGroupContainer.updateVisibleTimeout w c in
  _updateVisibleTimer c' = false
  ∧ _groups c' = _groups c
  ∧ (∀ g e, obj_get g (_groups c) = Some g → getElement w g = Some e →
            FocusableGroupState.isVisible
              (FocusableGroupContainer.getGroupState w c' g)
            = isElementVisibleInContainer w e)
  ∧ (if bool_decide (Forall (λ id, recordedVisibility c id
                                   = classifiedVisibility w c id)
                       (obj_keys (_groups c)))
     then c' = set_updateVisibleTimer false c
     else _onChangeTimer c' = true
          ∧ _prevVisibleGroups c' = _visibleGroups c).
Proof.
  intros c'.
  set (c0 := set_updateVisibleTimer false c).
  assert (_groups c0 = _groups c ∧ _visibleGroups c0 = _visibleGroups c
          ∧ visObjects c0 = visObjects c ∧ _updateVisibleTimer c0 = false)
    as (Hg0 & Hv0 & Hs0 & Ht0) by (by destruct c).
  assert (∀ id, recordedVisibility c0 id = recordedVisibility c id) as Hrec.
  { intros id. unfold recordedVisibility, FocusableGroupContainer.visObject.
    by rewrite Hv0, Hs0. }
  assert (∀ id, classifiedVisibility w c0 id = classifiedVisibility w c id)
    as Hcls.
  { intros id. unfold classifiedVisibility. by rewrite Hg0. }
  pose proof (refresh_fold_get (classifiedVisibility w c0)
                (recordedVisibility c0) (obj_keys (_groups c0)) false [])
    as Hfold.
  cbv zeta in Hfold.
  assert (c' = let '(isChanged, visibleGroups) :=
                 foldl (λ (acc : bool * JsObj ElementVisibility) (id : nat),
                          let '(isChanged, visibleGroups) := acc in
                          (if decide (recordedVisibility c0 id
                                      ≠ classifiedVisibility w c0 id)
                           then true else isChanged,
                           if decide (classifiedVisibility w c0 id ≠ Invisible)
                           then obj_set id (classifiedVisibility w c0 id)
                                  visibleGroups
                           else visibleGroups))
                       (false, []) (obj_keys (_groups c0)) in
               if isChanged then
                 FocusableGroupContainer._processOnChange
                   (set_visibleGroups (nextVisObject c0)
                      (set_prevVisibleGroups (_visibleGroups c0)
                         (set_visObjects
                            (<[nextVisObject c0 := visibleGroups]>
                               (visObjects c0))
                            (set_nextVisObject (S (nextVisObject c0)) c0))))
               else c0) as Hc' by (by destruct c).
  destruct (foldl _ _ _) as [isChanged visibleGroups].
  simpl in Hfold. destruct Hfold as (Hget & Hfalse & Htrue).
  assert (∀ id, id ∈ obj_keys (_groups c) →
                recordedVisibility c' id = classifiedVisibility w c id)
    as Hall.
  { intros id Hid. rewrite <-Hcls.
    destruct isChanged.
    - rewrite Hc'. unfold recordedVisibility.
      assert (FocusableGroupContainer.visObject
                (FocusableGroupContainer._processOnChange
                   (set_visibleGroups (nextVisObject c0)
                      (set_prevVisibleGroups (_visibleGroups c0)
                         (set_visObjects
                            (<[nextVisObject c0 := visibleGroups]>
                               (visObjects c0))
                            (set_nextVisObject (S (nextVisObject c0)) c0)))))
                (_visibleGroups
                   (FocusableGroupContainer._processOnChange
                      (set_visibleGroups (nextVisObject c0)
                         (set_prevVisibleGroups (_visibleGroups c0)
                            (set_visObjects
                               (<[nextVisObject c0 := visibleGroups]>
                                  (visObjects c0))
                               (set_nextVisObject (S (nextVisObject c0))
                                  c0))))))
              = visibleGroups) as ->.
      { unfold FocusableGroupContainer.visObject.
        timers; destruct c0; simpl; by rewrite lookup_insert_eq. }
      rewrite Hget. rewrite Hg0.
      destruct (decide (classifiedVisibility w c0 id = Invisible)) as [Hinv|Hvis].
      + rewrite bool_decide_eq_false_2 by tauto. by rewrite Hinv.
      + by rewrite bool_decide_eq_true_2.
    - rewrite Hc'. destruct (Hfalse eq_refl) as [_ Hsame].
      apply Hsame. by rewrite Hg0. }
  split; [|split; [|split]].
  - rewrite Hc'. destruct isChanged; [|done]. timers; by destruct c0.
  - rewrite Hc', <-Hg0. destruct isChanged; [|done]. timers; by destruct c0.
  - intros g e Hg He.
    change (recordedVisibility c' g = isElementVisibleInContainer w e).
    rewrite Hall by (apply obj_has_keys; unfold obj_has; by rewrite Hg).
    unfold classifiedVisibility. rewrite Hg. simpl. by rewrite He.
  - case_bool_decide as Hup.
    + destruct isChanged; [|by rewrite Hc'].
      destruct (Htrue eq_refl) as [? | (id & Hin & Hne)]; [done|].
      exfalso. apply Hne. rewrite Hrec, Hcls.
      rewrite Forall_forall in Hup. apply Hup. by rewrite <-Hg0.
    + destruct isChanged.
      * rewrite Hc', <-Hv0.
        split; [apply processOnChange_timer|timers; by destruct c0].
      * exfalso. apply Hup. apply Forall_forall. intros id Hid.
        rewrite <-Hrec, <-Hcls. destruct (Hfalse eq_refl) as [_ Hsame].
        apply Hsame. by rewrite Hg0.
Qed.

(** The theorem at a concrete input. *)
Lemma visibility_refresh_matches_classifier_witness :
  let w := Examples.withClassifier
             (λ e, if decide (e = 11) then Visible else Invisible)
             Examples.settled in
  let c' := FocusableGroupContainer.updateVisibleTimeout w
              (Examples.listContainerOf w) in
  FocusableGroupState.isVisible
    (FocusableGroupContainer.getGroupState w (Examples.listContainerOf w) 1)
  = Invisible
  ∧ FocusableGroupState.isVisible
      (FocusableGroupContainer.getGroupState w c' 1) = Visible.
Proof.
  intros w c'. split; [vm_compute; reflexivity|].
  destruct (visibility_refresh_matches_classifier w
              (Examples.listContainerOf w)) as (_ & _ & Hstate & _).
  apply (Hstate 1 11); vm_compute; reflexivity.
Defined.

(** ** Disposal of a container *)

Lemma filterMembers_no_groups c changed :
  _groups c = [] → FocusableGroupContainer.filterMembers c changed = [].
Proof.
  intros Hg. unfold FocusableGroupContainer.filterMembers.
  assert (∀ g, obj_has g (_groups c) = false) as Hno
    by (intros g; by rewrite Hg).
  induction changed as [|[g|] changed IH]; simpl; [done| |done].
  by rewrite Hno.
Qed.

Lemma setContainerOn_lookup e v w e' :
  containerOn (setContainerOn e v w) e'
  = if decide (e' = e) then v else containerOn w e'.
Proof.
  unfold containerOn, setContainerOn. destruct w; simpl.
  destruct (decide (e' = e)) as [-> | Hne].
  - by rewrite lookup_insert_eq.
  - by rewrite lookup_insert_ne.
Qed.

Lemma setContainerOn_groupOn e v w e' :
  groupOn (setContainerOn e v w) e' = groupOn w e'.
Proof.
  unfold groupOn, setContainerOn. destruct w; simpl.
  destruct (decide (e' = e)) as [-> | Hne].
  - rewrite lookup_insert_eq. simpl. by destruct (_ !! e).
  - by rewrite lookup_insert_ne.
Qed.

(** [dispose] unregisters the container from its element and from
    [_containers], empties its membership and cancels a pending visibility
    refresh.  It leaves the groups alone (a group keeps its reference to the
    disposed container), and it does not cancel a pending change pass: that
    pass still runs, and invokes no callback. *)
Theorem container_dispose_unregisters
  (w : World) (r : ContainerRef) (c : ContainerObject.t) :
  containerObjects w !! r = Some c →
  let w' := FocusableGroupContainer.dispose w r in
  containerOn w' (_element c) = None
  ∧ obj_has r (_containers w') = false
  ∧ (∀ e, e ≠ _element c → containerOn w' e = containerOn w e)
  ∧ (∀ e, groupOn w' e = groupOn w e)
  ∧ groupObjects w' = groupObjects w
  ∧ (∃ c', containerObjects w' !! r = Some c'
           ∧ FocusableGroupContainer.isEmpty c' = true
           ∧ _updateVisibleTimer c' = false
           ∧ _onChangeTimer c' = _onChangeTimer c)
  ∧ tickCalls w' r = [].
Proof.
  intros Hc w'.
  set (c' := if _updateVisibleTimer (set_groups [] c)
             then set_updateVisibleTimer false (set_groups [] c)
             else set_groups [] c).
  assert (w' = set_containers (obj_delete r (_containers w))
                 (setContainerOn (_element c) None
                    (set_containerObjects (<[r := c']> (containerObjects w))
                       w))) as Hw'.
  { unfold w', FocusableGroupContainer.dispose. rewrite Hc.
    assert (_element c' = _element c) as <-.
    { unfold c'. by destruct c as [? ? ? ? ? ? ? ? ? ? ? ? ? ? ? ? ? ? ? []]. }
    by destruct w. }
  assert (_groups c' = [] ∧ _updateVisibleTimer c' = false
          ∧ _onChangeTimer c' = _onChangeTimer c) as (Hg & Ht & Ho).
  { unfold c'. by destruct c as [? ? ? ? ? ? ? ? ? ? ? ? ? ? ? ? ? ? ? []]. }
  assert (containerObjects w' !! r = Some c') as Hc'.
  { rewrite Hw'. destruct w; simpl. apply lookup_insert_eq. }
  split; [|split; [|split; [|split; [|split; [|split]]]]].
  - rewrite Hw'.
    transitivity (containerOn
                    (setContainerOn (_element c) None
                       (set_containerObjects
                          (<[r := c']> (containerObjects w)) w))
                    (_element c)); [by destruct w|].
    rewrite setContainerOn_lookup. by destruct (decide _).
  - rewrite Hw'. destruct w; simpl. apply obj_has_delete_eq.
  - intros e Hne. rewrite Hw'.
    transitivity (containerOn
                    (setContainerOn (_element c) None
                       (set_containerObjects
                          (<[r := c']> (containerObjects w)) w)) e);
      [by destruct w|].
    rewrite setContainerOn_lookup. destruct (decide _); [done|].
    by destruct w.
  - intros e. rewrite Hw'.
    transitivity (groupOn
                    (setContainerOn (_element c) None
                       (set_containerObjects
                          (<[r := c']> (containerObjects w)) w)) e);
      [by destruct w|].
    rewrite setContainerOn_groupOn. by destruct w.
  - rewrite Hw'. by destruct w.
  - exists c'. split; [done|]. split; [|done].
    unfold FocusableGroupContainer.isEmpty. by rewrite Hg.
  - unfold tickCalls. rewrite (onChangeTimeout_unfold w' r c' Hc'). simpl.
    rewrite filterMembers_no_groups
      by (by rewrite collectChanged_groups).
    simpl. destruct w'; simpl. by rewrite app_nil_r, drop_all.
Qed.

(** The theorem at a concrete input. *)
Lemma container_dispose_unregisters_witness :
  let w' := FocusableGroupContainer.dispose Examples.threeGroups 2 in
  containerOn Examples.threeGroups 10 = Some 2
  ∧ containerOn w' 10 = None
  ∧ obj_has 2 (_containers w') = false
  ∧ FocusableGroup.containerOf w' 1 = Some 2.
Proof.
  destruct (container_dispose_unregisters Examples.threeGroups 2
              (Examples.listContainerOf Examples.threeGroups))
    as (Hon & Hreg & _ & _ & Hgroups & _).
  - vm_compute. reflexivity.
  - split; [vm_compute; reflexivity|]. split; [exact Hon|].
    split; [exact Hreg|].
    unfold FocusableGroup.containerOf. rewrite Hgroups.
    vm_compute. reflexivity.
Defined.

(** ** Scrolling: the static [updateVisible] and the scroll handler *)

Lemma obj_has_set {V} k k' (v : V) o :
  obj_has k (obj_set k' v o) = bool_decide (k = k') || obj_has k o.
Proof.
  unfold obj_has. destruct (decide (k = k')) as [-> | Hne].
  - by rewrite obj_get_set_eq, bool_decide_eq_true_2.
  - by rewrite obj_get_set_ne, bool_decide_eq_false_2.
Qed.

Lemma updateVisible_idempotent c :
  FocusableGroupContainer._updateVisible
    (FocusableGroupContainer._updateVisible c)
  = FocusableGroupContainer._updateVisible c.
Proof.
  unfold FocusableGroupContainer._updateVisible.
  destruct (_updateVisibleTimer c) eqn:Ht; [by rewrite Ht|]. by destruct c.
Qed.

(** Running an idempotent method on the containers of a list of entries. *)
Lemma onContainer_fold f (entries : JsObj ContainerRef) :
  (∀ c, f (f c) = f c) →
  ∀ w,
    let w' := foldl (λ w (entry : nat * ContainerRef),
                       onContainer entry.2 f w) w entries in
    (∀ r, containerObjects w' !! r
          = (if bool_decide (r ∈ entries.*2) then f else id)
            <$> containerObjects w !! r)
    ∧ w' = set_containerObjects (containerObjects w') w.
Proof.
  intros Hidem.
  induction entries as [|[k r0] entries IH]; intros w; cbv zeta;
    cbn [foldl].
  - split; [|by destruct w]. intros r.
    rewrite bool_decide_eq_false_2 by (by intros ?%elem_of_nil).
    by destruct (_ !! r).
  - pose proof (IH (onContainer r0 f w)) as Hrest. cbv zeta in Hrest.
    destruct Hrest as [Hlook Hframe]. split.
    + intros r. rewrite Hlook, onContainer_lookup, fmap_cons. cbn [snd].
      destruct (containerObjects w !! r) as [c|]; [|done].
      cbn [fmap option_fmap option_map]. f_equal.
      destruct (decide (r = r0)) as [-> | Hne].
      * rewrite (bool_decide_eq_true_2 (r0 ∈ r0 :: _))
          by apply list_elem_of_here.
        destruct (bool_decide _); [apply Hidem|done].
      * assert (bool_decide (r ∈ r0 :: entries.*2)
                = bool_decide (r ∈ entries.*2)) as ->; [|done].
        apply bool_decide_ext. rewrite elem_of_cons. tauto.
    + rewrite Hframe at 1. simpl.
      unfold onContainer. destruct (containerObjects w !! r0); by destruct w.
Qed.

(** Whether the scrolled node [s] contains the element of the container
    behind [r]. *)
Lemma collectScrolled_fold w s (entries : JsObj ContainerRef) :
  ∀ acc : JsObj ContainerRef,
    let result := foldl (FocusableGroupContainer.collectScrolled w s)
                    acc entries in
    ((∀ kv, kv ∈ acc → kv.1 = kv.2) → ∀ kv, kv ∈ result → kv.1 = kv.2)
    ∧ (∀ r : ContainerRef, obj_has r result
            = obj_has r acc
              || (bool_decide (r ∈ entries.*2)
                  && match containerObjects w !! r with
                     | Some c => contains (document w) s (Some (_element c))
                     | None => false
                     end)).
Proof.
  induction entries as [|[k r0] entries IH]; intros acc; cbv zeta;
    cbn [foldl].
  - split; [done|]. intros r.
    rewrite bool_decide_eq_false_2 by (by intros ?%elem_of_nil).
    by rewrite orb_false_r.
  - pose proof (IH (FocusableGroupContainer.collectScrolled w s acc (k, r0)))
      as Hrest.
    cbv zeta in Hrest. destruct Hrest as [Hkv Hhas]. split.
    + intros Hacc. apply Hkv. intros [k1 v1].
      unfold FocusableGroupContainer.collectScrolled. cbn [snd].
      destruct (containerObjects w !! r0) as [c|]; [|by apply Hacc].
      destruct (contains (document w) s (Some (_element c)));
        [|by apply Hacc].
      intros [[= -> ->] | Hin]%obj_set_elem; [done|by apply Hacc].
    + intros r. rewrite Hhas, fmap_cons.
      unfold FocusableGroupContainer.collectScrolled. cbn [snd].
      destruct (decide (r = r0)) as [-> | Hne].
      * rewrite (bool_decide_eq_true_2 (r0 ∈ r0 :: _))
          by apply list_elem_of_here.
        destruct (containerObjects w !! r0) as [c|];
          [|by rewrite !andb_false_r].
        destruct (contains (document w) s (Some (_element c))); simpl.
        -- rewrite obj_has_set, bool_decide_eq_true_2 by done. simpl.
           by rewrite orb_true_r.
        -- by rewrite !andb_false_r.
      * assert (bool_decide (r ∈ r0 :: entries.*2)
                = bool_decide (r ∈ entries.*2)) as ->.
        { apply bool_decide_ext. rewrite elem_of_cons. tauto. }
        destruct (containerObjects w !! r0) as [c0|]; [|done].
        destruct (contains (document w) s (Some (_element c0))); [|done].
        by rewrite obj_has_set, bool_decide_eq_false_2.
Qed.

Lemma collectScrolled_all w (scrolled : list HTMLElement) :
  ∀ acc : JsObj ContainerRef,
    let result :=
      foldl (λ containers s,
               foldl (FocusableGroupContainer.collectScrolled w s)
                 containers (_containers w)) acc scrolled in
    ((∀ kv, kv ∈ acc → kv.1 = kv.2) → ∀ kv, kv ∈ result → kv.1 = kv.2)
    ∧ (∀ r : ContainerRef, obj_has r result
            = obj_has r acc
              || (bool_decide (r ∈ (_containers w).*2)
                  && match containerObjects w !! r with
                     | Some c =>
                         existsb (λ s, contains (document w) s
                                         (Some (_element c))) scrolled
                     | None => false
                     end)).
Proof.
  induction scrolled as [|s scrolled IH]; intros acc; cbv zeta; cbn [foldl].
  - split; [done|]. intros r.
    destruct (containerObjects w !! r); simpl;
      by rewrite andb_false_r, orb_false_r.
  - pose proof (IH (foldl (FocusableGroupContainer.collectScrolled w s) acc
                      (_containers w))) as Hrest.
    cbv zeta in Hrest. destruct Hrest as [Hkv Hhas].
    pose proof (collectScrolled_fold w s (_containers w) acc) as Hone.
    cbv zeta in Hone. destruct Hone as [Hkv1 Hhas1].
    split; [auto|].
    intros r. rewrite Hhas, Hhas1.
    destruct (containerObjects w !! r) as [c|]; cbn [existsb];
      [|by rewrite !andb_false_r, !orb_false_r].
    destruct (obj_has r acc), (bool_decide _),
      (contains (document w) s (Some (_element c))); simpl; try done.
Qed.

(** After the quiet period, the static [updateVisible] arms the visibility
    refresh of exactly the registered containers whose element lies inside
    one of the scrolled nodes; it changes nothing else. *)
Theorem updateVisible_refreshes_scrolled_containers
  (w : World) (scrolled : list HTMLElement) :
  let w' := FocusableGroupContainer.updateVisible w scrolled in
  (∀ r, containerObjects w' !! r
        = (λ c, if refreshDue w scrolled r c
                then FocusableGroupContainer._updateVisible c else c)
          <$> containerObjects w !! r)
  ∧ w' = set_containerObjects (containerObjects w') w.
Proof.
  intros w'.
  pose proof (collectScrolled_all w scrolled []) as Hall.
  cbv zeta in Hall. destruct Hall as [Hkv Hhas].
  set (containers :=
         foldl (λ containers s,
                  foldl (FocusableGroupContainer.collectScrolled w s)
                    containers (_containers w)) [] scrolled) in *.
  pose proof (onContainer_fold FocusableGroupContainer._updateVisible
                containers updateVisible_idempotent w) as Hrun.
  cbv zeta in Hrun.
  change (foldl _ w containers) with w' in Hrun.
  destruct Hrun as [Hlook Hframe]. split; [|done].
  intros r. rewrite Hlook.
  destruct (containerObjects w !! r) as [c|] eqn:Hc; [simpl|done].
  f_equal.
  assert (bool_decide (r ∈ containers.*2) = refreshDue w scrolled r c) as ->;
    [|by destruct (refreshDue w scrolled r c)].
  unfold refreshDue.
  specialize (Hhas r). rewrite Hc in Hhas.
  change (obj_has r containers
          = bool_decide (r ∈ (_containers w).*2)
            && existsb (λ s, contains (document w) s (Some (_element c)))
                 scrolled) in Hhas.
  rewrite <-Hhas.
  specialize (Hkv ltac:(by intros kv ?%elem_of_nil)).
  destruct (obj_has r containers) eqn:Hr.
  - apply bool_decide_eq_true. apply obj_has_keys in Hr.
    unfold obj_keys in Hr. apply list_elem_of_fmap in Hr as (kv & Hr & Hin).
    apply list_elem_of_fmap. exists kv. split; [|done].
    rewrite Hr. by apply Hkv.
  - apply bool_decide_eq_false. intros (kv & Hkr & Hin)%list_elem_of_fmap.
    assert (obj_has r containers = true); [|congruence].
    apply obj_has_keys. unfold obj_keys. apply list_elem_of_fmap.
    exists kv. split; [|done]. rewrite Hkr. symmetry. by apply Hkv.
Qed.

Lemma scrollCoherent_spec this :
  scrollCoherent this = true
  ↔ FocusableObject.pendingTimeouts this
    = match FocusableObject._scrollTimer this with
      | Some id => [id]
      | None => []
      end
    ∧ (∀ id, id ∈ FocusableObject.pendingTimeouts this →
             id < FocusableObject.nextTimeout this)
    ∧ NoDup (FocusableObject._scrollTargets this).
Proof.
  unfold scrollCoherent.
  rewrite !andb_true_iff, !bool_decide_eq_true, forallb_forall.
  split.
  - intros [[Hp Hf] Hn]. split; [done|]. split; [|done].
    intros id Hin. apply list_elem_of_In, Hf in Hin.
    by apply bool_decide_eq_true in Hin.
  - intros (Hp & Hf & Hn). split; [|done]. split; [done|].
    intros id Hin. apply bool_decide_eq_true, Hf. by apply list_elem_of_In.
Qed.

(** One scroll event: the timeout that was pending is cancelled and a fresh
    one is armed, and the target is buffered unless it already is. *)
Lemma onScroll_step this target :
  scrollCoherent this = true →
  FocusableObject._mainWindow this = true →
  let this' := Focusable._onScroll this target in
  scrollCoherent this' = true
  ∧ FocusableObject._mainWindow this' = true
  ∧ FocusableObject._scrollTimer this'
    = Some (FocusableObject.nextTimeout this)
  ∧ (∀ n, n ∈ FocusableObject._scrollTargets this'
          ↔ n ∈ FocusableObject._scrollTargets this ∨ target = Some n).
Proof.
  intros (Hp & Hf & Hn)%scrollCoherent_spec Hw this'.
  assert (FocusableObject.pendingTimeouts this'
          = [FocusableObject.nextTimeout this]) as Hp'.
  { unfold this', Focusable._onScroll. rewrite Hw. simpl.
    rewrite Hp. destruct (FocusableObject._scrollTimer this) as [id|]; [|done].
    rewrite filter_cons. by destruct (decide (id ≠ id)). }
  assert (∀ n, n ∈ FocusableObject._scrollTargets this'
               ↔ n ∈ FocusableObject._scrollTargets this ∨ target = Some n)
    as Hmem.
  { intros n. unfold this', Focusable._onScroll. rewrite Hw. simpl.
    destruct target as [node|]; [|split; [auto|by intros [?|?]]].
    case_bool_decide as Hknown.
    - split; [auto|]. intros [?|[= ->]]; [done|].
      by apply list_elem_of_fmap in Hknown as (? & [= <-] & ?).
    - rewrite elem_of_app, list_elem_of_singleton.
      split; intros [?|?]; auto; right; congruence. }
  split; [|split; [|split]]; [|by unfold this', Focusable._onScroll; rewrite Hw
                              |by unfold this', Focusable._onScroll; rewrite Hw
                              |done].
  apply scrollCoherent_spec. split; [|split].
  - rewrite Hp'. unfold this', Focusable._onScroll. by rewrite Hw.
  - rewrite Hp'. intros id ->%list_elem_of_singleton.
    unfold this', Focusable._onScroll. rewrite Hw. simpl. lia.
  - unfold this', Focusable._onScroll. rewrite Hw. simpl.
    destruct target as [node|]; [|done].
    case_bool_decide as Hknown; [done|].
    apply NoDup_app. split; [done|]. split; [|apply NoDup_singleton].
    intros x Hx ->%list_elem_of_singleton. apply Hknown.
    by apply list_elem_of_fmap_2.
Qed.

(** However many scroll events arrive before the quiet period ends, one
    timeout is pending afterwards, and the buffer holds each scrolled node
    once.  When that timeout fires, the containers under the buffered nodes
    are refreshed and the buffer is emptied. *)
Theorem scroll_burst_leaves_one_timeout
  (this : FocusableObject.t) (events : list (option HTMLElement)) :
  scrollCoherent this = true →
  FocusableObject._mainWindow this = true →
  events ≠ [] →
  let this' := foldl Focusable._onScroll this events in
  (∃ id, FocusableObject._scrollTimer this' = Some id
         ∧ FocusableObject.pendingTimeouts this' = [id]
         ∧ ∀ w, ∃ settled,
             Focusable.scrollTimeout this' w id
             = (settled,
                FocusableGroupContainer.updateVisible w
                  (FocusableObject._scrollTargets this'))
             ∧ FocusableObject._scrollTargets settled = []
             ∧ FocusableObject.pendingTimeouts settled = []
             ∧ FocusableObject._scrollTimer settled = None)
  ∧ NoDup (FocusableObject._scrollTargets this')
  ∧ (∀ n, n ∈ FocusableObject._scrollTargets this'
          ↔ n ∈ FocusableObject._scrollTargets this ∨ Some n ∈ events).
Proof.
  intros Hco Hw Hne this'.
  assert (scrollCoherent this' = true
          ∧ FocusableObject._mainWindow this' = true
          ∧ is_Some (FocusableObject._scrollTimer this')
          ∧ ∀ n, n ∈ FocusableObject._scrollTargets this'
                 ↔ n ∈ FocusableObject._scrollTargets this ∨ Some n ∈ events)
    as (Hco' & _ & [id Hid] & Hmem).
  { unfold this'. clear this'.
    destruct events as [|e events]; [done|]. clear Hne. cbn [foldl].
    destruct (onScroll_step this e Hco Hw) as (Hco1 & Hw1 & Ht1 & Hm1).
    assert (∀ n, n ∈ FocusableObject._scrollTargets
                       (Focusable._onScroll this e)
                 ↔ n ∈ FocusableObject._scrollTargets this ∨ Some n ∈ [e])
      as Hm1'.
    { intros n. rewrite Hm1, list_elem_of_singleton.
      split; intros [?|?]; auto. }
    assert (is_Some (FocusableObject._scrollTimer
                       (Focusable._onScroll this e))) as Hs1 by eauto.
    clear Ht1 Hm1.
    change (e :: events) with ([e] ++ events).
    generalize dependent (Focusable._onScroll this e).
    generalize [e]. clear e.
    induction events as [|e events IH]; intros seen this1 Hco1 Hw1 Hm1 Hs1.
    - rewrite app_nil_r. done.
    - cbn [foldl].
      destruct (onScroll_step this1 e Hco1 Hw1) as (Hco2 & Hw2 & Ht2 & Hm2).
      replace (seen ++ e :: events) with ((seen ++ [e]) ++ events)
        by (by rewrite <-app_assoc).
      apply IH; [done..| |eauto].
      intros n. rewrite Hm2, Hm1, elem_of_app, list_elem_of_singleton.
      split; [intros [[?|?]|?]|intros [?|[?|?]]]; auto. }
  apply scrollCoherent_spec in Hco' as (Hp & Hf & Hn).
  rewrite Hid in Hp.
  split; [|done].
  exists id. split; [done|]. split; [done|].
  intros w. unfold Focusable.scrollTimeout.
  rewrite Hp, bool_decide_eq_true_2 by apply list_elem_of_here.
  eexists. split; [done|]. simpl.
  rewrite filter_cons. by destruct (decide (id ≠ id)).
Qed.

(** The theorem at a concrete input. *)
Lemma scroll_burst_leaves_one_timeout_witness :
  let this' := foldl Focusable._onScroll Examples.quiet
                 [Some 10; Some 11; None; Some 10] in
  (∃ id, FocusableObject.pendingTimeouts this' = [id])
  ∧ NoDup (FocusableObject._scrollTargets this')
  ∧ (11 ∈ FocusableObject._scrollTargets this').
Proof.
  destruct (scroll_burst_leaves_one_timeout Examples.quiet
              [Some 10; Some 11; None; Some 10])
    as ((id & _ & Hpending & _) & Hnodup & Hmem).
  - vm_compute. reflexivity.
  - reflexivity.
  - discriminate.
  - split; [by exists id|]. split; [exact Hnodup|].
    apply Hmem. right. apply list_elem_of_further, list_elem_of_here.
Defined.

(** ** The life of a group: construction, removal and moving *)

Lemma setGroupOn_lookup e v w e' :
  groupOn (setGroupOn e v w) e' = if decide (e' = e) then v else groupOn w e'.
Proof.
  unfold groupOn, setGroupOn. destruct w; simpl.
  destruct (decide (e' = e)) as [-> | Hne].
  - by rewrite lookup_insert_eq.
  - by rewrite lookup_insert_ne.
Qed.

Lemma setGroupOn_containerOn e v w e' :
  containerOn (setGroupOn e v w) e' = containerOn w e'.
Proof.
  unfold containerOn, setGroupOn. destruct w; simpl.
  destruct (decide (e' = e)) as [-> | Hne].
  - rewrite lookup_insert_eq. simpl. by destruct (_ !! e).
  - by rewrite lookup_insert_ne.
Qed.

(** The parts of the world that a step leaves alone. *)
Lemma onContainer_frame r f w :
  document (onContainer r f w) = document w
  ∧ abilityHelpers (onContainer r f w) = abilityHelpers w
  ∧ groupObjects (onContainer r f w) = groupObjects w
  ∧ mutationListener (onContainer r f w) = mutationListener w
  ∧ _lastId (onContainer r f w) = _lastId w.
Proof. unfold onContainer. destruct (containerObjects w !! r); by destruct w. Qed.

Lemma set_container_frame g v w :
  document (FocusableGroup.set_container g v w) = document w
  ∧ abilityHelpers (FocusableGroup.set_container g v w) = abilityHelpers w
  ∧ containerObjects (FocusableGroup.set_container g v w) = containerObjects w
  ∧ mutationListener (FocusableGroup.set_container g v w) = mutationListener w
  ∧ _lastId (FocusableGroup.set_container g v w) = _lastId w
  ∧ (∀ h, getElement (FocusableGroup.set_container g v w) h = getElement w h)
  ∧ (∀ h, FocusableGroup.containerOf (FocusableGroup.set_container g v w) h
          = if decide (h = g)
            then (match groupObjects w !! g with Some _ => v | None => None end)
            else FocusableGroup.containerOf w h).
Proof.
  unfold FocusableGroup.set_container, getElement, FocusableGroup.containerOf.
  destruct (groupObjects w !! g) as [o|] eqn:Ho.
  - destruct w; simpl in *. repeat split; try done.
    + intros h. destruct (decide (h = g)) as [-> | Hne].
      * by rewrite lookup_insert_eq, Ho.
      * by rewrite lookup_insert_ne.
    + intros h. destruct (decide (h = g)) as [-> | Hne].
      * by rewrite lookup_insert_eq.
      * by rewrite lookup_insert_ne.
  - repeat split; try done.
    intros h. destruct (decide (h = g)) as [-> | Hne]; [by rewrite Ho|done].
Qed.

Lemma containerConstruct_frame w p :
  let w' := (FocusableGroupContainer.construct w p).1 in
  let r := (FocusableGroupContainer.construct w p).2 in
  r = S (_lastId w)
  ∧ document w' = document w
  ∧ groupObjects w' = groupObjects w
  ∧ mutationListener w' = mutationListener w
  ∧ _lastId w' = S (_lastId w)
  ∧ (∀ e, groupOn w' e = groupOn w e)
  ∧ (∀ e, containerOn w' e = if decide (e = p) then Some r else containerOn w e)
  ∧ containerObjects w' = <[r := FocusableGroupContainer.create p]>
                            (containerObjects w).
Proof.
  cbv zeta. unfold FocusableGroupContainer.construct. simpl.
  split; [done|]. split; [by destruct w|]. split; [by destruct w|].
  split; [by destruct w|]. split; [by destruct w|].
  split; [|split; [|by destruct w]].
  - intros e.
    transitivity (groupOn
                    (setContainerOn p (Some (S (_lastId w)))
                       (set_containerObjects
                          (<[S (_lastId w) := FocusableGroupContainer.create p]>
                             (containerObjects w))
                          (set_lastId (S (_lastId w)) w))) e);
      [by destruct w|].
    rewrite setContainerOn_groupOn. by destruct w.
  - intros e.
    transitivity (containerOn
                    (setContainerOn p (Some (S (_lastId w)))
                       (set_containerObjects
                          (<[S (_lastId w) := FocusableGroupContainer.create p]>
                             (containerObjects w))
                          (set_lastId (S (_lastId w)) w))) e);
      [by destruct w|].
    rewrite setContainerOn_lookup. destruct (decide _); [done|].
    by destruct w.
Qed.

(** [setupContainer] never touches the group entries of the side table,
    the elements of the groups, the tree or the listener. *)
Lemma setupContainer_frame w g remove :
  let w' := FocusableGroup.setupContainer w g remove in
  document w' = document w
  ∧ mutationListener w' = mutationListener w
  ∧ (∀ e, groupOn w' e = groupOn w e)
  ∧ (∀ h, getElement w' h = getElement w h).
Proof.
  cbv zeta. unfold FocusableGroup.setupContainer.
  destruct (groupObjects w !! g) as [o|] eqn:Ho; [|done].
  set (step := match parentElement (document w) (GroupObject._element o) with
               | Some containerElement =>
                   match containerOn w containerElement with
                   | Some r => (w, Some r)
                   | None =>
                       if remove then (w, None)
                       else
                         let '(w, r) :=
                           FocusableGroupContainer.construct w
                             containerElement in
                         (w, Some r)
                   end
               | None => (w, None)
               end).
  assert (document step.1 = document w
          ∧ mutationListener step.1 = mutationListener w
          ∧ (∀ e, groupOn step.1 e = groupOn w e)
          ∧ (∀ h, getElement step.1 h = getElement w h)) as Hstep.
  { unfold step.
    destruct (parentElement _ _) as [p|]; [|done].
    destruct (containerOn w p); [done|]. destruct remove; [done|].
    destruct (containerConstruct_frame w p)
      as (_ & Hd & Hg & Hm & _ & Hgo & _).
    destruct (FocusableGroupContainer.construct w p) as [w1 r1]. simpl in *.
    split; [done|]. split; [done|]. split; [done|].
    intros h. unfold getElement. by rewrite Hg. }
  destruct step as [w1 container]. simpl in Hstep.
  destruct Hstep as (Hd & Hm & Hgo & Hge).
  destruct (decide (GroupObject._container o ≠ container)); [|done].
  set (w2 := match GroupObject._container o with
             | Some r =>
                 onContainer r
                   (λ c, FocusableGroupContainer.removeGroup w1 c g) w1
             | None => w1
             end).
  assert (document w2 = document w1
          ∧ mutationListener w2 = mutationListener w1
          ∧ abilityHelpers w2 = abilityHelpers w1
          ∧ groupObjects w2 = groupObjects w1) as (Hd2 & Hm2 & Ha2 & Hg2).
  { unfold w2. destruct (GroupObject._container o) as [r|]; [|done].
    destruct (onContainer_frame r
                (λ c, FocusableGroupContainer.removeGroup w1 c g) w1)
      as (? & ? & ? & ? & _). done. }
  destruct (set_container_frame g container w2)
    as (Hd3 & Ha3 & _ & Hm3 & _ & Hge3 & _).
  set (w3 := FocusableGroup.set_container g container w2) in *.
  assert (∀ w4, (document w4 = document w3
                 ∧ mutationListener w4 = mutationListener w3
                 ∧ abilityHelpers w4 = abilityHelpers w3
                 ∧ groupObjects w4 = groupObjects w3) →
                document w4 = document w
                ∧ mutationListener w4 = mutationListener w
                ∧ (∀ e, groupOn w4 e = groupOn w e)
                ∧ (∀ h, getElement w4 h = getElement w h)) as Hend.
  { intros w4 (Hd4 & Hm4 & Ha4 & Hg4).
    split; [congruence|]. split; [congruence|]. split.
    - intros e. rewrite <-Hgo. unfold groupOn. congruence.
    - intros h.
      transitivity (getElement w3 h); [unfold getElement; by rewrite Hg4|].
      rewrite (Hge3 h).
      transitivity (getElement w1 h); [unfold getElement; by rewrite Hg2|].
      apply Hge. }
  destruct container as [r|]; [|by apply Hend].
  destruct remove; [by apply Hend|].
  apply Hend.
  destruct (onContainer_frame r
              (λ c, FocusableGroupContainer.addGroup w3 c g) w3)
    as (? & ? & ? & ? & _). done.
Qed.

(** [setupContainer] does nothing when the container that the parent of
    the element carries is the one the group holds: with [remove] in
    particular, as long as the element has its parent. *)
Lemma setupContainer_unchanged w g remove o p :
  groupObjects w !! g = Some o →
  parentElement (document w) (GroupObject._element o) = Some p →
  containerOn w p = GroupObject._container o →
  remove = true ∨ is_Some (containerOn w p) →
  FocusableGroup.setupContainer w g remove = w.
Proof.
  intros Ho Hp Hsame Hcase. unfold FocusableGroup.setupContainer.
  rewrite Ho, Hp.
  destruct (containerOn w p) as [r|] eqn:Hr.
  - rewrite <-Hsame. by destruct (decide (Some r ≠ Some r)).
  - destruct Hcase as [-> | [? ?]]; [|done].
    rewrite <-Hsame. by destruct (decide (None ≠ None)).
Qed.

Lemma setupContainer_parentless w g remove o :
  groupObjects w !! g = Some o →
  parentElement (document w) (GroupObject._element o) = None →
  GroupObject._container o = None →
  FocusableGroup.setupContainer w g remove = w.
Proof.
  intros Ho Hp Hnone. unfold FocusableGroup.setupContainer.
  rewrite Ho, Hp, Hnone. by destruct (decide (None ≠ None)).
Qed.

Lemma setGroupOn_frame e v w :
  document (setGroupOn e v w) = document w
  ∧ groupObjects (setGroupOn e v w) = groupObjects w
  ∧ containerObjects (setGroupOn e v w) = containerObjects w
  ∧ mutationListener (setGroupOn e v w) = mutationListener w
  ∧ _lastId (setGroupOn e v w) = _lastId w.
Proof. by destruct w. Qed.

(** Removing the group of an element that is still attached below the
    element of its container only detaches the group from the side table:
    the group stays a member of its container and keeps its reference to
    it, and no pointer, timer or visibility entry changes. *)
Theorem removeGroup_of_attached_element_keeps_membership
  (w : World) (e p : HTMLElement) (g : GroupRef) (o : GroupObject.t) :
  groupOn w e = Some g →
  groupObjects w !! g = Some o →
  GroupObject._element o = e →
  parentElement (document w) e = Some p →
  containerOn w p = GroupObject._container o →
  Focusable.removeGroup w e = Ok (setGroupOn e None w)
  ∧ groupOn (setGroupOn e None w) e = None
  ∧ containerObjects (setGroupOn e None w) = containerObjects w
  ∧ FocusableGroup.containerOf (setGroupOn e None w) g
    = GroupObject._container o.
Proof.
  intros Hg Ho He Hp Hsame. subst e.
  destruct (setGroupOn_frame (GroupObject._element o) None w)
    as (Hd & Hgo & Hco & _).
  split; [|split; [|split]].
  - unfold Focusable.removeGroup. rewrite Hg.
    unfold FocusableGroup.dispose.
    rewrite (setupContainer_unchanged w g true o p) by auto.
    unfold getElement at 1. rewrite Ho. simpl.
    unfold Focusable.dispatchMutationEvent, Focusable._onMutation.
    destruct (mutationListener _); [|done].
    rewrite (setupContainer_unchanged _ g true o p); auto.
    + by rewrite Hgo.
    + by rewrite Hd.
    + by rewrite setGroupOn_containerOn.
  - rewrite setGroupOn_lookup. by destruct (decide _).
  - done.
  - unfold FocusableGroup.containerOf. by rewrite Hgo, Ho.
Qed.

(** The theorem at a concrete input. *)
Lemma removeGroup_of_attached_element_keeps_membership_witness :
  ∃ c, containerObjects (setGroupOn 11 None Examples.threeGroups) !! 2 = Some c
       ∧ obj_has 1 (_groups c) = true
       ∧ Focusable.removeGroup Examples.threeGroups 11
         = Ok (setGroupOn 11 None Examples.threeGroups).
Proof.
  destruct (removeGroup_of_attached_element_keeps_membership
              Examples.threeGroups 11 10 1
              {| GroupObject._element := 11;
                 GroupObject._container := Some 2;
                 GroupObject._props := Examples.observed None None |})
    as (Hremove & _ & Hcontainers & _).
  - vm_compute. reflexivity.
  - vm_compute. reflexivity.
  - reflexivity.
  - vm_compute. reflexivity.
  - vm_compute. reflexivity.
  - exists (Examples.listContainerOf Examples.threeGroups).
    rewrite Hcontainers. split; [vm_compute; reflexivity|].
    split; [vm_compute; reflexivity|exact Hremove].
Defined.

Lemma removeGroup_groups w c g :
  _groups (FocusableGroupContainer.removeGroup w c g)
  = obj_delete g (_groups c).
Proof.
  unfold FocusableGroupContainer.removeGroup,
    FocusableGroupContainer._setFirstLast, FocusableGroupContainer.visDelete.
  timers; by destruct c.
Qed.

Lemma addGroup_fields w c g :
  let c' := FocusableGroupContainer.addGroup w c g in
  _groups c' = obj_set g g (_groups c)
  ∧ _element c' = _element c
  ∧ _onChangeTimer c' = true
  ∧ _updateVisibleTimer c' = true.
Proof.
  cbv zeta.
  unfold FocusableGroupContainer.addGroup,
    FocusableGroupContainer._setFirstLast,
    FocusableGroupContainer._updateVisible,
    FocusableGroupContainer._processOnChange.
  destruct c as [? ? ? ? ? ? ? ? ? ? ? ? ? ? ? ? ? ? [] [] ? ? ?]; done.
Qed.

(** Removing the group of an element that has left the tree takes the
    group out of the container it was in: the group is no member any more,
    holds no container, and its element owns no group. *)
Theorem removeGroup_of_detached_element_leaves_container
  (w : World) (e : HTMLElement) (g : GroupRef) (o : GroupObject.t)
  (r : ContainerRef) (c : ContainerObject.t) :
  groupOn w e = Some g →
  groupObjects w !! g = Some o →
  GroupObject._element o = e →
  parentElement (document w) e = None →
  GroupObject._container o = Some r →
  containerObjects w !! r = Some c →
  ∃ w', Focusable.removeGroup w e = Ok w'
        ∧ groupOn w' e = None
        ∧ FocusableGroup.containerOf w' g = None
        ∧ containerObjects w' !! r
          = Some (FocusableGroupContainer.removeGroup w c g)
        ∧ obj_has g (_groups (FocusableGroupContainer.removeGroup w c g))
          = false.
Proof.
  intros Hg Ho He Hp Hr Hc. subst e.
  set (w2 := onContainer r (λ c, FocusableGroupContainer.removeGroup w c g) w).
  set (w3 := FocusableGroup.set_container g None w2).
  set (w4 := setGroupOn (GroupObject._element o) None w3).
  assert (FocusableGroup.setupContainer w g true = w3) as Hsetup.
  { unfold FocusableGroup.setupContainer. rewrite Ho, Hp, Hr.
    cbv beta iota zeta.
    destruct (decide (Some r ≠ None)) as [_|Hn]; [done|].
    exfalso. by apply Hn. }
  destruct (onContainer_frame r
              (λ c, FocusableGroupContainer.removeGroup w c g) w)
    as (Hd2 & Ha2 & Hg2 & Hm2 & _).
  fold w2 in Hd2, Ha2, Hg2, Hm2.
  destruct (set_container_frame g None w2)
    as (Hd3 & Ha3 & Hc3 & Hm3 & _ & Hge3 & Hco3).
  fold w3 in Hd3, Ha3, Hc3, Hm3, Hge3, Hco3.
  destruct (setGroupOn_frame (GroupObject._element o) None w3)
    as (Hd4 & Hg4 & Hc4 & _).
  fold w4 in Hd4, Hg4, Hc4.
  assert (getElement w3 g = Some (GroupObject._element o)) as Hge.
  { rewrite Hge3. unfold getElement. by rewrite Hg2, Ho. }
  assert (FocusableGroup.containerOf w4 g = None) as Hco4.
  { unfold FocusableGroup.containerOf. rewrite Hg4.
    specialize (Hco3 g). unfold FocusableGroup.containerOf in Hco3.
    rewrite Hco3. destruct (decide (g = g)); [|done].
    by destruct (groupObjects w2 !! g). }
  exists w4. split; [|split; [|split; [|split]]].
  - unfold Focusable.removeGroup. rewrite Hg.
    unfold FocusableGroup.dispose. rewrite Hsetup, Hge. fold w4.
    unfold Focusable.dispatchMutationEvent, Focusable._onMutation.
    destruct (mutationListener w4); [|done]. f_equal.
    assert (is_Some (groupObjects w4 !! g)) as [o4 Ho4].
    { unfold getElement in Hge. rewrite Hg4.
      destruct (groupObjects w3 !! g); [eauto|done]. }
    apply (setupContainer_parentless w4 g true o4); [done|..].
    + assert (getElement w4 g = Some (GroupObject._element o)) as Hge4.
      { unfold getElement. rewrite Hg4. exact Hge. }
      unfold getElement in Hge4. rewrite Ho4 in Hge4.
      injection Hge4 as ->. by rewrite Hd4, Hd3, Hd2.
    + unfold FocusableGroup.containerOf in Hco4. by rewrite Ho4 in Hco4.
  - unfold w4. rewrite setGroupOn_lookup. by destruct (decide _).
  - done.
  - rewrite Hc4, Hc3. unfold w2. rewrite onContainer_lookup, Hc. simpl.
    by destruct (decide (r = r)).
  - rewrite removeGroup_groups. apply obj_has_delete_eq.
Qed.

(** The theorem at a concrete input. *)
Lemma removeGroup_of_detached_element_leaves_container_witness :
  ∃ w' c', Focusable.removeGroup Examples.detached 11 = Ok w'
           ∧ containerObjects w' !! 2 = Some c'
           ∧ obj_has 1 (_groups c') = false.
Proof.
  destruct (removeGroup_of_detached_element_leaves_container
              Examples.detached 11 1
              {| GroupObject._element := 11;
                 GroupObject._container := Some 2;
                 GroupObject._props := Examples.observed None None |}
              2 (Examples.listContainerOf Examples.detached))
    as (w' & Hremove & _ & _ & Hc' & Hgone).
  - vm_compute. reflexivity.
  - vm_compute. reflexivity.
  - reflexivity.
  - vm_compute. reflexivity.
  - reflexivity.
  - vm_compute. reflexivity.
  - exists w'. eexists. split; [exact Hremove|]. split; [exact Hc'|exact Hgone].
Defined.

(** The second half of [setupContainer]: the group that held no container
    takes the container behind [r] and is added to it. *)
Lemma attach_group ws g o r c0 :
  groupObjects ws !! g = Some o →
  containerObjects ws !! r = Some c0 →
  let w3 := FocusableGroup.set_container g (Some r) ws in
  let w4 := onContainer r (λ c, FocusableGroupContainer.addGroup w3 c g) w3 in
  document w4 = document ws
  ∧ mutationListener w4 = mutationListener ws
  ∧ abilityHelpers w4 = abilityHelpers ws
  ∧ groupObjects w4
    = <[g := {| GroupObject._element := GroupObject._element o;
                GroupObject._container := Some r;
                GroupObject._props := GroupObject._props o |}]>
        (groupObjects ws)
  ∧ containerObjects w4 !! r
    = Some (FocusableGroupContainer.addGroup w3 c0 g)
  ∧ (∀ r', r' ≠ r → containerObjects w4 !! r' = containerObjects ws !! r').
Proof.
  intros Ho Hc w3 w4.
  destruct (set_container_frame g (Some r) ws)
    as (Hd3 & Ha3 & Hc3 & Hm3 & _).
  fold w3 in Hd3, Ha3, Hc3, Hm3.
  destruct (onContainer_frame r
              (λ c, FocusableGroupContainer.addGroup w3 c g) w3)
    as (Hd4 & Ha4 & Hg4 & Hm4 & _).
  fold w4 in Hd4, Ha4, Hg4, Hm4.
  split; [congruence|]. split; [congruence|]. split; [congruence|].
  split; [|split].
  - rewrite Hg4. unfold w3, FocusableGroup.set_container. rewrite Ho.
    by destruct ws.
  - unfold w4. rewrite onContainer_lookup, Hc3, Hc. simpl.
    by destruct (decide (r = r)).
  - intros r' Hne. unfold w4. rewrite onContainer_lookup, Hc3.
    destruct (decide (r' = r)); [done|]. by destruct (_ !! r').
Qed.

(** Adding a group to an element puts the group on the element and, when
    the element has a parent, into the container of the parent: the one the
    parent carries, or else a new one; both refreshes of that container are
    scheduled.  A group on an element without a parent has no container. *)
Theorem addGroup_attaches_group_to_parent_container
  (w : World) (e : HTMLElement) (props : FocusableGroupProps.t) :
  groupOn w e = None →
  (∀ p r, parentElement (document w) e = Some p → containerOn w p = Some r →
          is_Some (containerObjects w !! r)) →
  let g : GroupRef := S (_lastId w) in
  ∃ w', Focusable.addGroup w e props = Ok w'
        ∧ groupOn w' e = Some g
        ∧ (∀ x, x ≠ e → groupOn w' x = groupOn w x)
        ∧ getElement w' g = Some e
        ∧ getProps w' g = props
        ∧ match parentElement (document w) e with
          | None =>
              FocusableGroup.containerOf w' g = None
              ∧ containerObjects w' = containerObjects w
          | Some p =>
              ∃ r c',
                r = default (S g) (containerOn w p)
                ∧ containerOn w' p = Some r
                ∧ FocusableGroup.containerOf w' g = Some r
                ∧ containerObjects w' !! r = Some c'
                ∧ obj_has g (_groups c') = true
                ∧ _updateVisibleTimer c' = true
                ∧ _onChangeTimer c' = true
          end.
Proof.
  intros Hfree Hexists g.
  set (o0 := {| GroupObject._element := e; GroupObject._container := None;
                GroupObject._props := props |}).
  set (w2 := setGroupOn e (Some g)
               (set_groupObjects
                  (<[g := o0]> (groupObjects (set_lastId g w)))
                  (set_lastId g w))).
  assert (document w2 = document w
          ∧ groupObjects w2 = <[g := o0]> (groupObjects w)
          ∧ containerObjects w2 = containerObjects w
          ∧ mutationListener w2 = mutationListener w
          ∧ _lastId w2 = g) as (Hd2 & Hg2 & Hc2 & Hm2 & Hl2)
    by (by destruct w).
  assert (∀ x, groupOn w2 x = if decide (x = e) then Some g else groupOn w x)
    as Hgo2.
  { intros x. unfold w2. rewrite setGroupOn_lookup.
    destruct (decide _); [done|]. by destruct w. }
  assert (∀ x, containerOn w2 x = containerOn w x) as Hco2.
  { intros x. unfold w2. rewrite setGroupOn_containerOn. by destruct w. }
  assert (groupObjects w2 !! g = Some o0) as Ho2
    by (rewrite Hg2; apply lookup_insert_eq).
  assert (Focusable.addGroup w e props
          = Ok (Focusable.dispatchMutationEvent
                  (FocusableGroup.setupContainer w2 g false) e g false))
    as Hadd.
  { unfold Focusable.addGroup. rewrite Hfree. reflexivity. }
  rewrite Hadd. clear Hadd.
  destruct (parentElement (document w) e) as [p|] eqn:Hp.
  - (* the element has a parent *)
    assert (∃ ws r c0,
              (let '(w, container) :=
                 match containerOn w2 p with
                 | Some r => (w2, Some r)
                 | None =>
                     let '(w, r) := FocusableGroupContainer.construct w2 p in
                     (w, Some r)
                 end in (w, container)) = (ws, Some r)
              ∧ r = default (S g) (containerOn w p)
              ∧ document ws = document w2
              ∧ mutationListener ws = mutationListener w2
              ∧ groupObjects ws = groupObjects w2
              ∧ (∀ x, groupOn ws x = groupOn w2 x)
              ∧ containerOn ws p = Some r
              ∧ containerObjects ws !! r = Some c0)
      as (ws & r & c0 & Hstep & Hr & Hds & Hms & Hgs & Hgos & Hcos & Hcs).
    { rewrite Hco2. destruct (containerOn w p) as [r|] eqn:Hcp.
      - destruct (Hexists p r eq_refl Hcp) as [c0 Hc0].
        exists w2, r, c0. rewrite Hco2, Hc2. done.
      - destruct (containerConstruct_frame w2 p)
          as (Hrid & Hd & Hg & Hm & _ & Hgo & Hco & Hc).
        destruct (FocusableGroupContainer.construct w2 p) as [ws r].
        simpl in *. exists ws, r, (FocusableGroupContainer.create p).
        split; [done|]. split; [by rewrite Hrid, Hl2|].
        split; [done|]. split; [done|]. split; [done|]. split; [done|].
        split.
        + rewrite Hco. by destruct (decide (p = p)).
        + rewrite Hc. apply lookup_insert_eq. }
    assert (groupObjects ws !! g = Some o0) as Hos by (by rewrite Hgs).
    destruct (attach_group ws g o0 r c0 Hos Hcs)
      as (Hd4 & Hm4 & Ha4 & Hg4 & Hc4 & _).
    set (w3 := FocusableGroup.set_container g (Some r) ws) in *.
    set (w4 := onContainer r
                 (λ c, FocusableGroupContainer.addGroup w3 c g) w3) in *.
    assert (FocusableGroup.setupContainer w2 g false = w4) as Hsetup.
    { unfold FocusableGroup.setupContainer. rewrite Ho2.
      change (GroupObject._element o0) with e.
      change (GroupObject._container o0) with (@None ContainerRef).
      rewrite Hd2, Hp.
      assert (∀ (step : World * option ContainerRef),
                (let '(w, container) := step in (w, container)) = step)
        as Heta by (by intros []).
      rewrite Heta in Hstep.
      destruct (containerOn w2 p) as [r0|].
      - injection Hstep as <- <-.
        destruct (decide (None ≠ Some r0)) as [_|Hn]; [done|].
        exfalso. by apply Hn.
      - destruct (FocusableGroupContainer.construct w2 p) as [ws' r'].
        injection Hstep as <- <-.
        destruct (decide (None ≠ Some r')) as [_|Hn]; [done|].
        exfalso. by apply Hn. }
    rewrite Hsetup.
    set (o4 := {| GroupObject._element := e; GroupObject._container := Some r;
                  GroupObject._props := props |}).
    assert (groupObjects w4 !! g = Some o4) as Ho4
      by (rewrite Hg4; apply lookup_insert_eq).
    assert (∀ x, containerOn w4 x = containerOn ws x) as Hco4
      by (intros x; unfold containerOn; by rewrite Ha4).
    assert (∀ x, groupOn w4 x = groupOn w2 x) as Hgo4
      by (intros x; rewrite <-Hgos; unfold groupOn; by rewrite Ha4).
    assert (Focusable.dispatchMutationEvent w4 e g false = w4) as ->.
    { unfold Focusable.dispatchMutationEvent, Focusable._onMutation.
      destruct (mutationListener w4); [|done].
      apply (setupContainer_unchanged w4 g false o4 p); [done|..].
      - simpl. by rewrite Hd4, Hds, Hd2.
      - by rewrite Hco4, Hcos.
      - right. by rewrite Hco4, Hcos. }
    exists w4. split; [done|].
    split; [rewrite Hgo4, Hgo2; by destruct (decide (e = e))|].
    split; [intros x Hx; rewrite Hgo4, Hgo2; by destruct (decide (x = e))|].
    split; [unfold getElement; by rewrite Ho4|].
    split; [unfold getProps; by rewrite Ho4|].
    exists r, (FocusableGroupContainer.addGroup w3 c0 g).
    split; [done|]. split; [by rewrite Hco4|].
    split; [unfold FocusableGroup.containerOf; by rewrite Ho4|].
    split; [done|].
    destruct (addGroup_fields w3 c0 g) as (-> & _ & -> & ->).
    split; [apply obj_has_set_eq|done].
  - (* the element has no parent *)
    assert (FocusableGroup.setupContainer w2 g false = w2) as Hsetup.
    { apply (setupContainer_parentless w2 g false o0); [done| |done].
      simpl. by rewrite Hd2. }
    rewrite Hsetup.
    assert (Focusable.dispatchMutationEvent w2 e g false = w2) as ->.
    { unfold Focusable.dispatchMutationEvent, Focusable._onMutation.
      by destruct (mutationListener w2). }
    exists w2. split; [done|].
    split; [rewrite Hgo2; by destruct (decide (e = e))|].
    split; [intros x Hx; rewrite Hgo2; by destruct (decide (x = e))|].
    split; [unfold getElement; by rewrite Ho2|].
    split; [unfold getProps; by rewrite Ho2|].
    split; [unfold FocusableGroup.containerOf; by rewrite Ho2|done].
Qed.

(** The theorem at a concrete input. *)
Lemma addGroup_attaches_group_to_parent_container_witness :
  ∃ w' c', Focusable.addGroup Examples.oneGroup 12 FocusableGroupProps.empty
           = Ok w'
           ∧ groupOn w' 12 = Some 3
           ∧ containerObjects w' !! 2 = Some c'
           ∧ obj_has 3 (_groups c') = true.
Proof.
  destruct (addGroup_attaches_group_to_parent_container Examples.oneGroup 12
              FocusableGroupProps.empty)
    as (w' & Hadd & Hon & _ & _ & _ & Hparent).
  - vm_compute. reflexivity.
  - intros p r Hp Hr. vm_compute in Hp. injection Hp as <-.
    vm_compute in Hr. injection Hr as <-. vm_compute. eexists. reflexivity.
  - change (parentElement (document Examples.oneGroup) 12) with (Some 10)
      in Hparent.
    destruct Hparent as (r & c' & Hr & _ & _ & Hc' & Hmember & _).
    vm_compute in Hr. subst r.
    exists w', c'. split; [exact Hadd|]. split; [exact Hon|].
    split; [exact Hc'|exact Hmember].
Defined.

Lemma set_element_frame g v w :
  document (FocusableGroup.set_element g v w) = document w
  ∧ abilityHelpers (FocusableGroup.set_element g v w) = abilityHelpers w
  ∧ mutationListener (FocusableGroup.set_element g v w) = mutationListener w
  ∧ (∀ h, getElement (FocusableGroup.set_element g v w) h
          = if decide (h = g)
            then (match groupObjects w !! g with
                  | Some _ => Some v
                  | None => None
                  end)
            else getElement w h).
Proof.
  unfold FocusableGroup.set_element, getElement.
  destruct (groupObjects w !! g) as [o|] eqn:Ho.
  - destruct w; simpl in *. repeat split; try done.
    intros h. destruct (decide (h = g)) as [-> | Hne].
    + by rewrite lookup_insert_eq.
    + by rewrite lookup_insert_ne.
  - repeat split; try done.
    intros h. destruct (decide (h = g)) as [-> | Hne]; [by rewrite Ho|done].
Qed.

Lemma moveTo_frame w g to :
  let w' := FocusableGroup.moveTo w g to in
  document w' = document w
  ∧ mutationListener w' = mutationListener w
  ∧ (∀ x, groupOn w' x = groupOn w x)
  ∧ (∀ h, h ≠ g → getElement w' h = getElement w h)
  ∧ (is_Some (groupObjects w !! g) → getElement w' g = Some to).
Proof.
  cbv zeta. unfold FocusableGroup.moveTo.
  destruct (decide (getElement w g ≠ Some to)) as [_|Heq%dec_stable].
  - destruct (setupContainer_frame w g true) as (Hd1 & Hm1 & Hgo1 & Hge1).
    set (w1 := FocusableGroup.setupContainer w g true) in *.
    destruct (set_element_frame g to w1) as (Hd2 & Ha2 & Hm2 & Hge2).
    set (w2 := FocusableGroup.set_element g to w1) in *.
    destruct (setupContainer_frame w2 g false) as (Hd3 & Hm3 & Hgo3 & Hge3).
    split; [congruence|]. split; [congruence|]. split; [|split].
    + intros x. rewrite Hgo3, <-Hgo1. unfold groupOn. by rewrite Ha2.
    + intros h Hne. rewrite Hge3, Hge2.
      destruct (decide (h = g)); [done|]. apply Hge1.
    + intros [o Ho]. rewrite Hge3, Hge2.
      destruct (decide (g = g)); [|done].
      assert (is_Some (groupObjects w1 !! g)) as [o1 ->]; [|done].
      specialize (Hge1 g). unfold getElement in Hge1. rewrite Ho in Hge1.
      destruct (groupObjects w1 !! g); [eauto|done].
  - done.
Qed.

(** [moveGroup] gives the group its new element but never touches the side
    table: the group stays registered on the element it was moved from, from
    where it is still found, and the element it moved to does not come to
    own it. *)
Theorem moveGroup_leaves_group_registered_on_old_element
  (w : World) (from to : HTMLElement) :
  let w' := Focusable.moveGroup w from to in
  (∀ x, groupOn w' x = groupOn w x)
  ∧ document w' = document w
  ∧ (∀ g, from ≠ to → groupOn w from = Some g →
          is_Some (groupObjects w !! g) →
          getElement w' g = Some to
          ∧ Focusable.findGroup w' from = Some to)
  ∧ (from = to ∨ groupOn w from = None → w' = w).
Proof.
  intros w'.
  assert ((∀ x, groupOn w' x = groupOn w x)
          ∧ document w' = document w
          ∧ (∀ g, from ≠ to → groupOn w from = Some g →
                  is_Some (groupObjects w !! g) →
                  getElement w' g = Some to)) as (Hgo & Hd & Hge).
  { unfold w', Focusable.moveGroup.
    destruct (decide (from ≠ to)) as [Hne|Heq]; [|done].
    destruct (groupOn w from) as [g|] eqn:Hg; [|done].
    destruct (moveTo_frame w g to) as (Hd1 & Hm1 & Hgo1 & _ & Hge1).
    set (w1 := FocusableGroup.moveTo w g to) in *.
    assert (∀ w0 el b,
              document (Focusable.dispatchMutationEvent w0 el g b)
              = document w0
              ∧ (∀ x, groupOn (Focusable.dispatchMutationEvent w0 el g b) x
                      = groupOn w0 x)
              ∧ (∀ h, getElement (Focusable.dispatchMutationEvent w0 el g b) h
                      = getElement w0 h)) as Hdispatch.
    { intros w0 el b.
      unfold Focusable.dispatchMutationEvent, Focusable._onMutation.
      destruct (mutationListener w0); [|done].
      destruct (setupContainer_frame w0 g b) as (? & _ & ? & ?). done. }
    destruct (Hdispatch w1 from true) as (Hd2 & Hgo2 & Hge2).
    set (w2 := Focusable.dispatchMutationEvent w1 from g true) in *.
    destruct (Hdispatch w2 to false) as (Hd3 & Hgo3 & Hge3).
    split; [|split].
    - intros x. by rewrite Hgo3, Hgo2.
    - congruence.
    - intros g' _ [= <-] Hsome. rewrite Hge3, Hge2. by apply Hge1. }
  split; [done|]. split; [done|]. split.
  - intros g Hne Hg Hsome. split; [by apply Hge|].
    unfold Focusable.findGroup, Focusable._findGroup.
    assert (∃ rest, inclusiveAncestors (document w') from = from :: rest)
      as [rest ->].
    { unfold inclusiveAncestors.
      destruct (pathIn from (document w')) as [q|] eqn:Hq; simpl; [|eauto].
      by apply pathIn_head in Hq. }
    simpl. rewrite Hgo, Hg. simpl. by apply Hge.
  - unfold w', Focusable.moveGroup. intros [-> | Hnone].
    + destruct (decide (to ≠ to)); done.
    + rewrite Hnone. by destruct (decide _).
Qed.

(** The theorem at a concrete input. *)
Lemma moveGroup_leaves_group_registered_on_old_element_witness :
  groupOn Examples.movedBelow 11 = Some 1
  ∧ groupOn Examples.movedBelow 111 = None
  ∧ Focusable.findGroup Examples.movedBelow 11 = Some 111.
Proof.
  destruct (moveGroup_leaves_group_registered_on_old_element
              Examples.threeGroups 11 111) as (Hon & _ & Hmoved & _).
  split; [unfold Examples.movedBelow; rewrite Hon; vm_compute; reflexivity|].
  split; [unfold Examples.movedBelow; rewrite Hon; vm_compute; reflexivity|].
  apply (Hmoved 1).
  - discriminate.
  - vm_compute. reflexivity.
  - vm_compute. eexists. reflexivity.
Defined.

(** ** The chain of enclosing groups *)

Lemma groupsOnTheirElements_spec w :
  groupsOnTheirElements w = true
  ↔ ∀ e g, groupOn w e = Some g → getElement w g = Some e.
Proof.
  unfold groupsOnTheirElements. rewrite forallb_forall. split.
  - intros Hall e g Hg. unfold groupOn in Hg.
    destruct (abilityHelpers w !! e) as [ah|] eqn:Hah; [|done].
    simpl in Hg.
    specialize (Hall (e, ah)). simpl in Hall. rewrite Hg in Hall.
    eapply bool_decide_eq_true_1, Hall, list_elem_of_In.
    by apply elem_of_map_to_list.
  - intros Hspec [e ah] Hin%list_elem_of_In%elem_of_map_to_list. simpl.
    destruct (focusableGroup ah) as [g|] eqn:Hg; [|done].
    apply bool_decide_eq_true_2, Hspec. unfold groupOn. by rewrite Hin.
Qed.

Lemma nodeCount_unfold e ks :
  nodeCount (Node e ks) = S (foldr (λ t n, nodeCount t + n) 0 ks).
Proof. reflexivity. Qed.

Lemma pathTo_length e t p : pathTo e t = Some p → length p ≤ nodeCount t.
Proof.
  revert p. pattern t. apply DomNode_forall_ind. clear t. intros i ks IH p.
  rewrite pathTo_unfold, nodeCount_unfold.
  destruct (decide (i = e)); [intros [= <-]; simpl; lia|].
  assert (∀ q, pathIn e ks = Some q →
               length q ≤ foldr (λ t n, nodeCount t + n) 0 ks) as Hks.
  { clear p. induction ks as [|k ks IHks]; simpl; [done|].
    apply Forall_cons in IH as [IHk IH].
    destruct (pathTo e k) as [q0|] eqn:Hk.
    - intros q [= <-]. specialize (IHk q0 eq_refl). lia.
    - intros q Hq. specialize (IHks IH q Hq). lia. }
  destruct (pathIn e ks) as [q|]; simpl; [|done].
  intros [= <-]. specialize (Hks q eq_refl). rewrite length_app. simpl. lia.
Qed.

Lemma pathIn_length e (d : Document) p :
  pathIn e d = Some p → length p ≤ elementCount d.
Proof.
  unfold elementCount. revert p.
  induction d as [|t d IH]; simpl; [done|]. intros p.
  destruct (pathTo e t) as [q|] eqn:Ht.
  - intros [= <-]. apply pathTo_length in Ht. lia.
  - intros Hp. specialize (IH p Hp). lia.
Qed.

Lemma inclusiveAncestors_length d e :
  length (inclusiveAncestors d e) ≤ S (elementCount d).
Proof.
  unfold inclusiveAncestors.
  destruct (pathIn e d) as [p|] eqn:Hp; simpl; [|lia].
  apply pathIn_length in Hp. lia.
Qed.

Lemma inclusiveAncestors_head d e :
  ∃ rest, inclusiveAncestors d e = e :: rest.
Proof.
  unfold inclusiveAncestors.
  destruct (pathIn e d) as [q|] eqn:Hq; simpl; [|eauto].
  by apply pathIn_head in Hq.
Qed.

(** The inclusive ancestors of an inclusive ancestor are the rest of the
    list. *)
Lemma inclusiveAncestors_suffix d :
  wellFormed d →
  ∀ l1 e a l2, inclusiveAncestors d e = l1 ++ a :: l2 →
               inclusiveAncestors d a = a :: l2.
Proof.
  intros Hwf. induction l1 as [|x l1 IH]; intros e a l2 Hl.
  - destruct (inclusiveAncestors_head d e) as [rest Hrest].
    rewrite Hrest in Hl. simpl in Hl. injection Hl as -> ->. exact Hrest.
  - rewrite (inclusiveAncestors_step d e Hwf) in Hl. simpl in Hl.
    injection Hl as -> Hl.
    destruct (parentElement d x) as [p|]; [by eapply IH|].
    by destruct l1.
Qed.

Lemma parentElement_head d a l2 :
  inclusiveAncestors d a = a :: l2 → parentElement d a = head l2.
Proof. unfold parentElement. intros ->. by destruct l2. Qed.

(** The scan of [_findGroup] finds the first group of the chain. *)
Lemma omap_head_split {A B} (f : A → option B) l y ys :
  omap f l = y :: ys →
  ∃ l1 x l2, l = l1 ++ x :: l2 ∧ f x = Some y ∧ omap f l2 = ys.
Proof.
  induction l as [|a l IH]; simpl; [done|].
  destruct (f a) as [b|] eqn:Hfa.
  - intros [= -> <-]. by exists [], a, l.
  - intros (l1 & x & l2 & -> & Hx & Hys)%IH.
    by exists (a :: l1), x, l2.
Qed.

Lemma omap_pointwise {A B} (f1 f2 : A → option B) (l : list A) :
  (∀ x, f1 x = f2 x) → omap f1 l = omap f2 l.
Proof.
  intros Hf. induction l as [|a l IH]; [done|].
  change (omap f1 (a :: l))
    with (match f1 a with Some y => y :: omap f1 l | None => omap f1 l end).
  change (omap f2 (a :: l))
    with (match f2 a with Some y => y :: omap f2 l | None => omap f2 l end).
  by rewrite Hf, IH.
Qed.

Lemma makeCurrent_frame w g :
  document (FocusableGroup.makeCurrent w g) = document w
  ∧ abilityHelpers (FocusableGroup.makeCurrent w g) = abilityHelpers w
  ∧ groupObjects (FocusableGroup.makeCurrent w g) = groupObjects w.
Proof.
  unfold FocusableGroup.makeCurrent.
  destruct (FocusableGroup.containerOf w g) as [r|]; [|done].
  destruct (onContainer_frame r
              (λ c, FocusableGroupContainer.setCurrentGroup w c g) w)
    as (? & ? & ? & _). done.
Qed.

Section ChainLoops.
Variable w : World.
Hypothesis well_formed : wellFormed (document w).
Hypothesis consistent : groupsOnTheirElements w = true.

Lemma findGroup_frame w1 x :
  document w1 = document w → abilityHelpers w1 = abilityHelpers w →
  Focusable._findGroup w1 x
  = head (omap (groupOn w) (inclusiveAncestors (document w) x)).
Proof.
  intros Hd Ha. unfold Focusable._findGroup. rewrite Hd.
  f_equal. apply omap_pointwise. intros y. unfold groupOn. by rewrite Ha.
Qed.

(** The loop of [setCurrentGroup], started at the group of the ancestor
    [a], makes the groups of the chain current one after the other. *)
Lemma setCurrentGroup_loop_chain n :
  ∀ l2 a g w1 fuel,
    length l2 < n →
    inclusiveAncestors (document w) a = a :: l2 →
    groupOn w a = Some g →
    document w1 = document w → abilityHelpers w1 = abilityHelpers w →
    groupObjects w1 = groupObjects w →
    length (omap (groupOn w) l2) < fuel →
    Focusable.setCurrentGroup_loop fuel w1 g
    = Some (foldl FocusableGroup.makeCurrent w1 (g :: omap (groupOn w) l2)).
Proof.
  induction n as [|n IH]; intros l2 a g w1 fuel Hn Ha Hg Hd1 Hah1 Hg1 Hfuel;
    [lia|].
  destruct fuel as [|fuel]; [lia|]. cbn [Focusable.setCurrentGroup_loop foldl].
  destruct (makeCurrent_frame w1 g) as (Hd2 & Hah2 & Hg2).
  set (w2 := FocusableGroup.makeCurrent w1 g) in *.
  assert (getElement w2 g = Some a) as ->.
  { unfold getElement. rewrite Hg2, Hg1.
    by apply groupsOnTheirElements_spec. }
  simpl. rewrite Hd2, Hd1, (parentElement_head _ a l2 Ha).
  destruct l2 as [|p l2']; [done|]. cbn [head].
  assert (inclusiveAncestors (document w) p = p :: l2') as Hp.
  { by apply (inclusiveAncestors_suffix _ well_formed [a] a p l2'). }
  rewrite (findGroup_frame w2 p) by congruence. rewrite Hp.
  destruct (omap (groupOn w) (p :: l2')) as [|g' rest] eqn:Hchain; [done|].
  cbn [head].
  destruct (omap_head_split _ _ _ _ Hchain) as (m1 & x & m2 & Hsplit & Hx & <-).
  assert (length m2 < length (p :: l2')) as Hlen.
  { rewrite Hsplit, length_app. simpl. lia. }
  apply (IH m2 x g' w2 fuel); try congruence.
  - cbn [length] in Hlen, Hn. lia.
  - apply (inclusiveAncestors_suffix _ well_formed m1 p x m2).
    by rewrite Hp.
  - simpl in Hfuel. lia.
Qed.

(** The loop of [_isInCurrentGroup] tests the groups of the chain one after
    the other. *)
Lemma isInCurrentGroup_loop_chain unlimitedOnly isValidForLimited n :
  ∀ l2 a g fuel,
    length l2 < n →
    inclusiveAncestors (document w) a = a :: l2 →
    groupOn w a = Some g →
    length (omap (groupOn w) l2) < fuel →
    Focusable._isInCurrentGroup_loop fuel w unlimitedOnly
      isValidForLimited g a
    = Some (forallb
              (λ g, negb (bool_decide
                            (FocusableGroupState.isCurrent
                               (FocusableGroup.getState w g) = Some false))
                    && negb (unlimitedOnly
                             && FocusableGroupState.isLimited
                                  (FocusableGroup.getState w g)
                             && negb isValidForLimited))
              (g :: omap (groupOn w) l2)).
Proof.
  induction n as [|n IH]; intros l2 a g fuel Hn Ha Hg Hfuel; [lia|].
  destruct fuel as [|fuel]; [lia|].
  cbn [Focusable._isInCurrentGroup_loop forallb].
  destruct (decide (FocusableGroupState.isCurrent
                      (FocusableGroup.getState w g) = Some false)) as [Hc|Hc].
  { by rewrite bool_decide_eq_true_2. }
  rewrite bool_decide_eq_false_2 by done.
  destruct (unlimitedOnly
            && FocusableGroupState.isLimited (FocusableGroup.getState w g)
            && negb isValidForLimited); [done|].
  cbn [negb andb].
  rewrite (parentElement_head _ a l2 Ha).
  destruct l2 as [|p l2']; [done|]. cbn [head].
  assert (inclusiveAncestors (document w) p = p :: l2') as Hp.
  { by apply (inclusiveAncestors_suffix _ well_formed [a] a p l2'). }
  rewrite (findGroup_frame w p) by done. rewrite Hp.
  destruct (omap (groupOn w) (p :: l2')) as [|g' rest] eqn:Hchain; [done|].
  cbn [head].
  destruct (omap_head_split _ _ _ _ Hchain) as (m1 & x & m2 & Hsplit & Hx & <-).
  assert (getElement w g' = Some x) as ->
    by (by apply groupsOnTheirElements_spec).
  simpl.
  assert (length m2 < length (p :: l2')) as Hlen.
  { rewrite Hsplit, length_app. simpl. lia. }
  apply (IH m2 x g' fuel).
  - cbn [length] in Hlen, Hn. lia.
  - apply (inclusiveAncestors_suffix _ well_formed m1 p x m2).
    by rewrite Hp.
  - done.
  - simpl in Hfuel. lia.
Qed.

End ChainLoops.

(** ** [setCurrentGroup], [isInCurrentGroup] and [findGroup] *)

Lemma enclosingGroups_head w e :
  wellFormed (document w) →
  match Focusable._findGroup w e with
  | Some g =>
      ∃ m1 x m2,
        inclusiveAncestors (document w) e = m1 ++ x :: m2
        ∧ groupOn w x = Some g
        ∧ inclusiveAncestors (document w) x = x :: m2
        ∧ enclosingGroups w e = g :: omap (groupOn w) m2
  | None => enclosingGroups w e = []
  end.
Proof.
  intros Hwf. unfold Focusable._findGroup, enclosingGroups.
  destruct (omap (groupOn w) (inclusiveAncestors (document w) e))
    as [|g rest] eqn:Hchain; [done|]. simpl.
  destruct (omap_head_split _ _ _ _ Hchain) as (m1 & x & m2 & Hsplit & Hx & <-).
  exists m1, x, m2. split; [done|]. split; [done|]. split; [|done].
  by apply (inclusiveAncestors_suffix _ Hwf m1 e x m2).
Qed.

Lemma chain_fuel w e m1 x m2 :
  inclusiveAncestors (document w) e = m1 ++ x :: m2 →
  length (omap (groupOn w) m2) < S (S (elementCount (document w))).
Proof.
  intros Hsplit.
  pose proof (inclusiveAncestors_length (document w) e) as Hlen.
  rewrite Hsplit, length_app in Hlen. simpl in Hlen.
  assert (length (omap (groupOn w) m2) ≤ length m2); [|lia].
  clear. induction m2 as [|y m2 IH]; csimpl; [done|].
  destruct (groupOn w y); csimpl; lia.
Qed.

Lemma setCurrentGroup_fields w c g :
  let c' := FocusableGroupContainer.setCurrentGroup w c g in
  _groups c' = _groups c
  ∧ _current c' = (if obj_has g (_groups c) then Some g else None).
Proof.
  cbv zeta. unfold FocusableGroupContainer.setCurrentGroup.
  destruct c as [el cur prv nxt fst lst foc unl vis hfv pc pp pn pf pl pfo pu
                 pv t1 t2 groups store nvo]; simpl.
  destruct (obj_has g groups); simpl.
  - destruct (getElement w g) as [ce|]; simpl; [|by timers].
    destruct (decide (parentElement (document w) ce = Some el)); by timers.
  - by timers.
Qed.

Lemma makeCurrent_lookup w h r :
  containerObjects (FocusableGroup.makeCurrent w h) !! r
  = (if decide (FocusableGroup.containerOf w h = Some r)
     then λ c, FocusableGroupContainer.setCurrentGroup w c h else id)
    <$> containerObjects w !! r.
Proof.
  unfold FocusableGroup.makeCurrent.
  destruct (FocusableGroup.containerOf w h) as [r0|].
  - rewrite onContainer_lookup.
    destruct (decide (r = r0)) as [-> | Hne].
    + by destruct (decide (Some r0 = Some r0)).
    + destruct (decide (Some r0 = Some r)) as [[= ->]|_]; done.
  - destruct (decide (None = Some r)); [done|]. by destruct (_ !! r).
Qed.

(** Making groups current keeps the groups, their containers and the
    members of every container. *)
Lemma makeCurrent_fold_frame gs : ∀ w,
  let w' := foldl FocusableGroup.makeCurrent w gs in
  groupObjects w' = groupObjects w
  ∧ ∀ r c, containerObjects w !! r = Some c →
           ∃ c', containerObjects w' !! r = Some c'
                 ∧ _groups c' = _groups c
                 ∧ ((∀ h, h ∈ gs → FocusableGroup.containerOf w h ≠ Some r) →
                    c' = c).
Proof.
  induction gs as [|h gs IH]; intros w; cbv zeta; cbn [foldl].
  - split; [done|]. intros r c Hc. by exists c.
  - destruct (makeCurrent_frame w h) as (_ & _ & Hg1).
    pose proof (IH (FocusableGroup.makeCurrent w h)) as Hrest.
    cbv zeta in Hrest. destruct Hrest as [Hg Hlook].
    split; [congruence|].
    intros r c Hc.
    pose proof (makeCurrent_lookup w h r) as Hstep. rewrite Hc in Hstep.
    simpl in Hstep.
    destruct (Hlook r _ Hstep) as (c' & Hc' & Hgroups & Hother).
    exists c'. split; [done|]. split.
    + rewrite Hgroups.
      destruct (decide (FocusableGroup.containerOf w h = Some r)); [|done].
      by destruct (setCurrentGroup_fields w c h) as [-> _].
    + intros Hfree. rewrite Hother.
      * destruct (decide (FocusableGroup.containerOf w h = Some r)) as [Heq|];
          [|done].
        exfalso. by apply (Hfree h), Heq; apply list_elem_of_here.
      * intros h' Hin.
        destruct (containerOf_frame w (FocusableGroup.makeCurrent w h) h' Hg1)
          as (-> & _).
        by apply Hfree, list_elem_of_further.
Qed.

(** On a tree without repeated elements whose groups sit on their
    elements, [setCurrentGroup(element)] returns, having made current the
    groups that enclose the element, innermost first.  Afterwards a group of
    the chain is the current group of its container, if it is a member of it
    and no group further out shares the container. *)
Theorem setCurrentGroup_makes_enclosing_groups_current
  (w : World) (e : HTMLElement) :
  wellFormed (document w) →
  groupsOnTheirElements w = true →
  ∃ w', Focusable.setCurrentGroup w e = Some w'
        ∧ w' = foldl FocusableGroup.makeCurrent w (enclosingGroups w e)
        ∧ ∀ pre g post r c,
            enclosingGroups w e = pre ++ g :: post →
            FocusableGroup.containerOf w g = Some r →
            containerObjects w !! r = Some c →
            obj_has g (_groups c) = true →
            (∀ h, h ∈ post → FocusableGroup.containerOf w h ≠ Some r) →
            ∃ c', containerObjects w' !! r = Some c'
                  ∧ _current c' = Some g.
Proof.
  intros Hwf Hcons. eexists. split; [|split; [reflexivity|]].
  - unfold Focusable.setCurrentGroup.
    pose proof (enclosingGroups_head w e Hwf) as Hhead.
    destruct (Focusable._findGroup w e) as [g|].
    + destruct Hhead as (m1 & x & m2 & Hsplit & Hx & Hanc & ->).
      apply (setCurrentGroup_loop_chain w Hwf Hcons (S (length m2)) m2 x);
        first [done | lia | by eapply chain_fuel].
    + by rewrite Hhead.
  - intros pre g post r c Hsplit Hr Hc Hmem Hfree.
    rewrite Hsplit, foldl_app. cbn [foldl].
    pose proof (makeCurrent_fold_frame pre w) as Hpre. cbv zeta in Hpre.
    destruct Hpre as [Hg1 Hlook1].
    set (w1 := foldl FocusableGroup.makeCurrent w pre) in *.
    destruct (Hlook1 r c Hc) as (c1 & Hc1 & Hgroups1 & _).
    destruct (containerOf_frame w w1 g Hg1) as (Hco1 & _).
    pose proof (makeCurrent_lookup w1 g r) as Hstep.
    rewrite Hco1, Hr, Hc1 in Hstep. simpl in Hstep.
    destruct (decide (Some r = Some r)) as [_|]; [|done].
    destruct (makeCurrent_frame w1 g) as (_ & _ & Hg2).
    set (w2 := FocusableGroup.makeCurrent w1 g) in *.
    pose proof (makeCurrent_fold_frame post w2) as Hpost. cbv zeta in Hpost.
    destruct Hpost as [_ Hlook3].
    destruct (Hlook3 r _ Hstep) as (c3 & Hc3 & _ & Hsame).
    exists c3. split; [done|]. rewrite Hsame.
    + destruct (setCurrentGroup_fields w1 c1 g) as [_ ->].
      by rewrite Hgroups1, Hmem.
    + intros h Hin.
      destruct (containerOf_frame w w2 h) as (-> & _); [congruence|].
      by apply Hfree.
Qed.

(** The theorem at a concrete input. *)
Lemma setCurrentGroup_makes_enclosing_groups_current_witness :
  enclosingGroups Examples.nested 111 = [5; 1]
  ∧ ∃ w' c', Focusable.setCurrentGroup Examples.nested 111 = Some w'
             ∧ containerObjects w' !! 2 = Some c'
             ∧ _current c' = Some 1.
Proof.
  split; [vm_compute; reflexivity|].
  destruct (setCurrentGroup_makes_enclosing_groups_current Examples.nested 111)
    as (w' & Hrun & _ & Hcurrent).
  - exact exampleDocument_wellFormed.
  - vm_compute. reflexivity.
  - destruct (Hcurrent [5] 1 [] 2 (Examples.listContainerOf Examples.nested))
      as (c' & Hc' & Hcur).
    + vm_compute. reflexivity.
    + vm_compute. reflexivity.
    + vm_compute. reflexivity.
    + vm_compute. reflexivity.
    + intros h Hh. destruct (not_elem_of_nil h Hh).
    + exists w', c'. split; [exact Hrun|]. split; [exact Hc'|exact Hcur].
Defined.

(** The loop of [setCurrentGroup] never ends when the parent of the
    element of a group is enclosed by the same group: every round makes the
    group current and finds it again. *)
Theorem setCurrentGroup_never_ends_on_group_below_itself
  (w : World) (e p groupElement : HTMLElement) (g : GroupRef) :
  Focusable._findGroup w e = Some g →
  getElement w g = Some groupElement →
  parentElement (document w) groupElement = Some p →
  Focusable._findGroup w p = Some g →
  (∀ fuel, Focusable.setCurrentGroup_loop fuel w g = None)
  ∧ Focusable.setCurrentGroup w e = None.
Proof.
  intros He Hge Hp Hfind.
  assert (∀ fuel w1,
            document w1 = document w → abilityHelpers w1 = abilityHelpers w →
            groupObjects w1 = groupObjects w →
            Focusable.setCurrentGroup_loop fuel w1 g = None) as Hloop.
  { induction fuel as [|fuel IH]; intros w1 Hd1 Ha1 Hg1; [done|].
    cbn [Focusable.setCurrentGroup_loop].
    destruct (makeCurrent_frame w1 g) as (Hd2 & Ha2 & Hg2).
    set (w2 := FocusableGroup.makeCurrent w1 g) in *.
    assert (getElement w2 g = Some groupElement) as ->
      by (unfold getElement in *; by rewrite Hg2, Hg1).
    simpl. rewrite Hd2, Hd1, Hp.
    assert (Focusable._findGroup w2 p = Some g) as ->.
    { rewrite <-Hfind. unfold Focusable._findGroup. rewrite Hd2, Hd1.
      f_equal. apply omap_pointwise. intros x. unfold groupOn.
      by rewrite Ha2, Ha1. }
    apply IH; congruence. }
  split; [intros fuel; by apply Hloop|].
  unfold Focusable.setCurrentGroup. rewrite He. by apply Hloop.
Qed.

(** The theorem at a concrete input. *)
Lemma setCurrentGroup_never_ends_on_group_below_itself_witness :
  Focusable.findGroup Examples.movedBelow 11 = Some 111
  ∧ Focusable.setCurrentGroup Examples.movedBelow 11 = None.
Proof.
  split; [vm_compute; reflexivity|].
  apply (setCurrentGroup_never_ends_on_group_below_itself
           Examples.movedBelow 11 11 111 1).
  - vm_compute. reflexivity.
  - vm_compute. reflexivity.
  - vm_compute. reflexivity.
  - vm_compute. reflexivity.
Defined.

(** On a tree without repeated elements whose groups sit on their
    elements, [_isInCurrentGroup] returns, and returns true exactly when
    every group that encloses the element passes the test of the loop; for
    [isInCurrentGroup] that is: no enclosing group reports
    [isCurrent === false]. *)
Theorem isInCurrentGroup_tests_every_enclosing_group
  (api : FocusableApi) (w : World) (e : HTMLElement) (unlimitedOnly : bool) :
  wellFormed (document w) →
  groupsOnTheirElements w = true →
  Focusable._isInCurrentGroup api w e unlimitedOnly
  = Some (forallb (passesGroup w unlimitedOnly
                     (unlimitedOnly && containsEntryPoint api w e))
            (enclosingGroups w e))
  ∧ Focusable.isInCurrentGroup api w e
    = Some (forallb
              (λ g, negb (bool_decide
                            (FocusableGroupState.isCurrent
                               (FocusableGroup.getState w g) = Some false)))
              (enclosingGroups w e)).
Proof.
  intros Hwf Hcons.
  assert (∀ unlimitedOnly,
            Focusable._isInCurrentGroup api w e unlimitedOnly
            = Some (forallb (passesGroup w unlimitedOnly
                               (unlimitedOnly && containsEntryPoint api w e))
                      (enclosingGroups w e))) as Hgen.
  { clear unlimitedOnly. intros unlimitedOnly.
    unfold Focusable._isInCurrentGroup, containsEntryPoint.
    pose proof (enclosingGroups_head w e Hwf) as Hhead.
    destruct (Focusable._findGroup w e) as [g|]; [|by rewrite Hhead].
    destruct Hhead as (m1 & x & m2 & Hsplit & Hx & Hanc & ->).
    assert (getElement w g = Some x) as Hgx
      by (by apply groupsOnTheirElements_spec).
    cbn [mbind option_bind]. rewrite !Hgx. cbn [mbind option_bind].
    rewrite (isInCurrentGroup_loop_chain w Hwf Hcons unlimitedOnly _
               (S (length m2)) m2 x g);
      [|first [done | lia | by eapply chain_fuel]..].
    destruct unlimitedOnly; reflexivity. }
  split; [apply Hgen|].
  unfold Focusable.isInCurrentGroup. rewrite Hgen. f_equal.
  generalize (enclosingGroups w e). intros l.
  induction l as [|g l IH]; [done|]. cbn [forallb].
  rewrite IH. unfold passesGroup. simpl. by rewrite andb_true_r.
Qed.

(** The theorem at a concrete input. *)
Lemma isInCurrentGroup_tests_every_enclosing_group_witness :
  Focusable.isInCurrentGroup Examples.buttons Examples.settled 13 = Some true
  ∧ Focusable.isInCurrentGroup Examples.buttons Examples.currentSet 13
    = Some false.
Proof.
  split.
  - destruct (isInCurrentGroup_tests_every_enclosing_group Examples.buttons
                Examples.settled 13 false) as [_ ->].
    + exact exampleDocument_wellFormed.
    + vm_compute. reflexivity.
    + vm_compute. reflexivity.
  - destruct (isInCurrentGroup_tests_every_enclosing_group Examples.buttons
                Examples.currentSet 13 false) as [_ ->].
    + exact exampleDocument_wellFormed.
    + vm_compute. reflexivity.
    + vm_compute. reflexivity.
Defined.

(** When the groups sit on their elements, [findGroup] returns the nearest
    inclusive ancestor of the element that owns a group, and that ancestor is
    its own group element. *)
Theorem findGroup_returns_nearest_group_element
  (w : World) (e : HTMLElement) :
  groupsOnTheirElements w = true →
  Focusable.findGroup w e
  = head (filter (λ a, groupOn w a ≠ None)
            (inclusiveAncestors (document w) e))
  ∧ ∀ a, Focusable.findGroup w e = Some a → Focusable.findGroup w a = Some a.
Proof.
  intros Hcons. rewrite groupsOnTheirElements_spec in Hcons.
  assert (∀ l, head (omap (groupOn w) l) ≫= getElement w
               = head (filter (λ a, groupOn w a ≠ None) l)) as Hscan.
  { induction l as [|x l IH]; [done|].
    rewrite filter_cons. simpl.
    destruct (groupOn w x) as [g|] eqn:Hx; simpl.
    - destruct (decide (Some g ≠ None)) as [_|Hn]; [|by exfalso; apply Hn].
      simpl. by apply Hcons.
    - destruct (decide (@None GroupRef ≠ None)); [done|]. exact IH. }
  assert (Focusable.findGroup w e
          = head (filter (λ a, groupOn w a ≠ None)
                    (inclusiveAncestors (document w) e))) as Hfind
    by apply Hscan.
  split; [done|].
  intros a Ha. rewrite Hfind in Ha.
  assert (groupOn w a ≠ None) as Howns.
  { apply head_Some_elem_of in Ha. by apply list_elem_of_filter in Ha as [? _]. }
  unfold Focusable.findGroup, Focusable._findGroup.
  destruct (inclusiveAncestors_head (document w) a) as [rest ->]. simpl.
  destruct (groupOn w a) as [g|] eqn:Hg; [|done]. simpl. by apply Hcons.
Qed.

(** The theorem at a concrete input. *)
Lemma findGroup_returns_nearest_group_element_witness :
  Focusable.findGroup Examples.threeGroups 112 = Some 11
  ∧ Focusable.findGroup Examples.threeGroups 11 = Some 11.
Proof.
  destruct (findGroup_returns_nearest_group_element Examples.threeGroups 112)
    as [Hnearest Hfixed].
  - vm_compute. reflexivity.
  - assert (Focusable.findGroup Examples.threeGroups 112 = Some 11) as Hfound
      by (rewrite Hnearest; vm_compute; reflexivity).
    split; [exact Hfound|exact (Hfixed 11 Hfound)].
Defined.

(** ** Accessibility, focusability and the focusable properties *)

Lemma isAccessible_loop_false host l :
  Focusable.isAccessible_loop host l = false
  ↔ ∃ l1 a l2,
      l = l1 ++ a :: l2
      ∧ Forall (λ x, inactiveLayer host x = false
                     ∧ ariaBlocked host x = false) l1
      ∧ inactiveLayer host a = false
      ∧ ariaBlocked host a = true.
Proof.
  unfold inactiveLayer, ariaBlocked.
  induction l as [|e l IH]; simpl.
  - split; [done|]. intros (l1 & a & l2 & Hl & _). by destruct l1.
  - destruct (bool_decide (host_modalityLayerIsActive host e = Some false))
      eqn:Hlayer.
    { split; [done|]. intros (l1 & a & l2 & Hl & Hall & Ha & _).
      destruct l1 as [|x l1]; simpl in Hl; injection Hl as <- ->.
      - congruence.
      - apply Forall_cons in Hall as [[? _] _]. congruence. }
    destruct (Focusable.attributeIsTrue host e "aria-hidden") eqn:Hhidden.
    { split; [|done]. intros _. exists [], e, l.
      rewrite Hlayer, Hhidden. by repeat split. }
    destruct (Focusable.attributeIsTrue host e "aria-disabled") eqn:Hdisabled.
    { split; [|done]. intros _. exists [], e, l.
      rewrite Hlayer, Hhidden, Hdisabled. by repeat split. }
    rewrite IH. split.
    + intros (l1 & a & l2 & -> & Hall & Ha & Hb).
      exists (e :: l1), a, l2. split; [done|]. split; [|done].
      constructor; [|done]. by rewrite Hlayer, Hhidden, Hdisabled.
    + intros (l1 & a & l2 & Hl & Hall & Ha & Hb).
      destruct l1 as [|x l1]; simpl in Hl; injection Hl as <- ->.
      * rewrite Hhidden, Hdisabled in Hb. done.
      * apply Forall_cons in Hall as [_ Hall]. eauto 8.
Qed.

(** An element is inaccessible exactly when, going up from it, an element
    marked [aria-hidden] or [aria-disabled] comes before any element that
    carries an inactive modality layer, and that element carries none
    itself.  A focusable element matches the selector, is visible and,
    unless the check is waived, accessible. *)
Theorem isAccessible_iff_no_hidden_ancestor_before_inactive_layer
  (host : Host) (w : World) (el : HTMLElement) :
  (Focusable.isAccessible host w el = false
   ↔ ∃ l1 a l2,
       inclusiveAncestors (document w) el = l1 ++ a :: l2
       ∧ Forall (λ x, inactiveLayer host x = false
                      ∧ ariaBlocked host x = false) l1
       ∧ inactiveLayer host a = false
       ∧ ariaBlocked host a = true)
  ∧ (∀ includeProgrammaticallyFocusable noAccessibleCheck,
       Focusable.isFocusable host w el includeProgrammaticallyFocusable
         noAccessibleCheck = true →
       host_matchesFocusable host el = true
       ∧ Focusable.isVisible host el = true
       ∧ (noAccessibleCheck = false →
          Focusable.isAccessible host w el = true)
       ∧ (includeProgrammaticallyFocusable = false →
          host_tabIndex host el ≠ (-1)%Z)).
Proof.
  split; [apply isAccessible_loop_false|].
  intros incl noAcc. unfold Focusable.isFocusable.
  destruct (host_matchesFocusable host el); [|done]. simpl.
  destruct incl; simpl.
  - intros [Hv Ha]%andb_true_iff. split; [done|]. split; [done|].
    split; [|done]. intros ->. done.
  - case_bool_decide as Htab; [|done].
    intros [Hv Ha]%andb_true_iff. split; [done|]. split; [done|].
    split; [|done]. intros ->. done.
Qed.

(** The theorem at a concrete input. *)
Lemma isAccessible_iff_no_hidden_ancestor_before_inactive_layer_witness :
  Focusable.isAccessible Examples.hiddenList Examples.emptyWorld 111 = false
  ∧ Focusable.isAccessible Examples.hiddenList Examples.emptyWorld 20 = true.
Proof.
  split.
  - apply (isAccessible_iff_no_hidden_ancestor_before_inactive_layer
             Examples.hiddenList Examples.emptyWorld 111).
    exists [111; 11], 10, [1].
    split; [vm_compute; reflexivity|].
    split; [|split; vm_compute; reflexivity].
    repeat constructor; vm_compute; reflexivity.
  - destruct (isAccessible_iff_no_hidden_ancestor_before_inactive_layer
                Examples.hiddenList Examples.emptyWorld 20) as [Hiff _].
    destruct (Focusable.isAccessible Examples.hiddenList Examples.emptyWorld
                20) eqn:Hacc; [reflexivity|].
    destruct Hiff as [Hhidden _].
    destruct (Hhidden eq_refl) as (l1 & a & l2 & Hsplit & _ & _ & Hblocked).
    assert (a ∈ [20; 1]) as Ha.
    { change [20; 1] with (inclusiveAncestors
                             (document Examples.emptyWorld) 20).
      rewrite Hsplit. apply elem_of_app. right. apply list_elem_of_here. }
    apply elem_of_cons in Ha as [-> | Ha]; [vm_compute in Hblocked; done|].
    apply list_elem_of_singleton in Ha as ->. vm_compute in Hblocked. done.
Defined.

(** [getProps] after [setProps]: a property named in the update has its
    new value, a property not named keeps its value, an update with [null]
    resets both, and no other element is affected. *)
Theorem focusable_setProps_getProps
  (focusableOn : gmap HTMLElement FocusableProps.t) (element : HTMLElement)
  (props : option PartialFocusableProps.t) :
  Focusable.getProps (Focusable.setProps focusableOn element props) element
  = match props with
    | Some props =>
        {| FocusableProps.isDefault :=
             default (FocusableProps.isDefault
                        (Focusable.getProps focusableOn element))
                     (PartialFocusableProps.isDefault props);
           FocusableProps.isIgnored :=
             default (FocusableProps.isIgnored
                        (Focusable.getProps focusableOn element))
                     (PartialFocusableProps.isIgnored props) |}
    | None =>
        {| FocusableProps.isDefault := false;
           FocusableProps.isIgnored := false |}
    end
  ∧ ∀ other, other ≠ element →
             Focusable.getProps
               (Focusable.setProps focusableOn element props) other
             = Focusable.getProps focusableOn other.
Proof.
  unfold Focusable.getProps, Focusable.setProps. split.
  - destruct props as [[d i]|]; simpl.
    + rewrite lookup_insert_eq.
      by destruct d, i, (focusableOn !! element).
    + by rewrite lookup_delete_eq.
  - intros other Hne.
    destruct props as [[d i]|]; simpl.
    + by rewrite lookup_insert_ne.
    + by rewrite lookup_delete_ne.
Qed.

(** ** [findFirst] and [findDefault] *)

(** What the walk returns is an element of the forest that the filter
    accepts. *)
Lemma walkNodes_found filter ks x :
  walkNodes filter ks = Some (Some x) →
  x ∈ mjoin (nodeElements <$> ks) ∧ filter x = Some FILTER_ACCEPT.
Proof.
  revert ks.
  assert (∀ t, walkNode filter t = Some (Some x) →
               x ∈ nodeElements t ∧ filter x = Some FILTER_ACCEPT) as Hnode.
  { intros t. pattern t. apply DomNode_forall_ind. clear t. intros e ks IH.
    rewrite walkNode_unfold, nodeElements_unfold.
    destruct (filter e) as [[]|] eqn:He; simpl; try done.
    - intros [= <-]. split; [apply list_elem_of_here|done].
    - intros Hwalk.
      assert (x ∈ mjoin (nodeElements <$> ks)
              ∧ filter x = Some FILTER_ACCEPT) as [Hin Hacc];
        [|split; [by apply list_elem_of_further|done]].
      clear He. induction ks as [|k ks IHks]; simpl in *; [done|].
      apply Forall_cons in IH as [IHk IH].
      destruct (walkNode filter k) as [[y|]|] eqn:Hk; simpl in Hwalk;
        [| |done].
      + injection Hwalk as ->. destruct (IHk eq_refl) as [Hin Hacc].
        split; [|done]. apply elem_of_app. auto.
      + destruct (IHks IH Hwalk) as [Hin Hacc].
        split; [|done]. apply elem_of_app. auto. }
  induction ks as [|k ks IHks]; simpl; [done|].
  destruct (walkNode filter k) as [[y|]|] eqn:Hk; simpl; [| |done].
  - intros [= ->]. destruct (Hnode k Hk) as [Hin Hacc].
    split; [|done]. apply elem_of_app. auto.
  - intros Hwalk. destruct (IHks Hwalk) as [Hin Hacc].
    split; [|done]. apply elem_of_app. auto.
Qed.

Lemma acceptElement_accepted api w x accept ignoreLayer ignoreGroup :
  Focusable._acceptElement api w x accept ignoreLayer ignoreGroup
  = Some FILTER_ACCEPT →
  accept x = true.
Proof.
  unfold Focusable._acceptElement.
  destruct (_ || _ || _ || _ || _).
  - destruct (if ignoreGroup then _ else _) as [[]|]; simpl; [|done..].
    by destruct (accept x).
  - by destruct (getLayerFor w x).
Qed.

(** With layers and groups ignored the filter rejects nothing. *)
Lemma acceptElement_ignoring api w x accept :
  Focusable._acceptElement api w x accept true true
  = Some (if accept x then FILTER_ACCEPT else FILTER_SKIP).
Proof. done. Qed.

Lemma subtreeIn_root e (d : list DomNode) t :
  subtreeIn e d = Some t → nodeElement t = e.
Proof.
  assert (∀ t0 t, subtree e t0 = Some t → nodeElement t = e) as Hnode.
  { intros t0. pattern t0. apply DomNode_forall_ind. clear t0.
    intros i ks IH t1. rewrite subtree_unfold.
    destruct (decide (i = e)) as [-> | Hne]; [by intros [= <-]|].
    clear Hne. induction ks as [|k ks IHks]; simpl; [done|].
    apply Forall_cons in IH as [IHk IH].
    destruct (subtree e k) as [t2|] eqn:Hk; [|by apply IHks].
    intros [= <-]. by apply IHk. }
  induction d as [|t0 d IH]; simpl; [done|].
  destruct (subtree e t0) as [t2|] eqn:Hk; [|done].
  intros [= <-]. by eapply Hnode.
Qed.

Lemma descendants_proper (d : Document) c x :
  wellFormed d → x ∈ descendants d c → x ≠ c.
Proof.
  intros Hwf. unfold descendants.
  destruct (subtreeIn c d) as [[i ks]|] eqn:Hsub; [|by intros ?%elem_of_nil].
  pose proof (subtreeIn_root c d _ Hsub) as Hroot. simpl in Hroot. subst i.
  apply subtreeIn_NoDup in Hsub; [|done].
  rewrite nodeElements_unfold in Hsub. apply NoDup_cons in Hsub as [Hnot _].
  simpl. intros Hin ->. done.
Qed.

Section Find.
Variable api : FocusableApi.
Variable w : World.

Lemma findElement_found container incl ignoreLayer ignoreGroup accept x :
  Focusable._findElement api w container incl ignoreLayer ignoreGroup accept
  = Some (Some x) →
  ∃ c, container = Some c
       ∧ x ∈ descendants (document w) c
       ∧ default (λ el, api_isFocusable api w el incl) accept x = true.
Proof.
  unfold Focusable._findElement, nextNodeFromRoot, descendants.
  destruct container as [c|]; [|done].
  destruct (subtreeIn c (document w)) as [t|] eqn:Hsub; [|done].
  intros [Hin Hacc]%walkNodes_found. exists c. split; [done|].
  rewrite Hsub. split; [done|]. by apply acceptElement_accepted in Hacc.
Qed.

Lemma findElement_ignoring c incl accept :
  Focusable._findElement api w (Some c) incl true true accept
  = Some (head (filter
                  (λ x, default (λ el, api_isFocusable api w el incl)
                          accept x = true)
                  (descendants (document w) c))).
Proof.
  unfold Focusable._findElement, nextNodeFromRoot, descendants.
  destruct (subtreeIn c (document w)) as [t|]; [|done].
  by apply walkNodes_no_reject.
Qed.

End Find.

(** [findFirst] returns a focusable element below the context, never the
    context itself; nothing when there is neither a context nor a body; and,
    when layers and groups are ignored, the first focusable element below the
    context in document order. *)
Theorem findFirst_returns_focusable_descendant
  (api : FocusableApi) (w : World) (context : option HTMLElement)
  (includeProgrammaticallyFocusable ignoreLayer ignoreGroup : bool) :
  let container := match context with Some c => Some c | None => _body w end in
  (container = None →
   Focusable.findFirst api w context includeProgrammaticallyFocusable
     ignoreLayer ignoreGroup = Some None)
  ∧ (∀ x, Focusable.findFirst api w context includeProgrammaticallyFocusable
            ignoreLayer ignoreGroup = Some (Some x) →
          ∃ c, container = Some c
               ∧ x ∈ descendants (document w) c
               ∧ (wellFormed (document w) → x ≠ c)
               ∧ api_isFocusable api w x includeProgrammaticallyFocusable
                 = true)
  ∧ (∀ c, container = Some c →
          Focusable.findFirst api w context includeProgrammaticallyFocusable
            true true
          = Some (head (filter
                          (λ x, api_isFocusable api w x
                                  includeProgrammaticallyFocusable = true)
                          (descendants (document w) c)))).
Proof.
  intros container. unfold Focusable.findFirst. fold container.
  split; [by intros ->|]. split.
  - intros x (c & Hc & Hin & Hacc)%findElement_found.
    exists c. split; [done|]. split; [done|]. split; [|done].
    intros Hwf. by eapply descendants_proper.
  - intros c ->. apply findElement_ignoring.
Qed.

(** The theorem at a concrete input. *)
Lemma findFirst_returns_focusable_descendant_witness :
  Focusable.findFirst Examples.buttonsAndItems Examples.threeGroups (Some 10)
    false true true = Some (Some 111)
  ∧ Focusable.findFirst Examples.buttonsAndItems Examples.threeGroups
      (Some 10) false false false = Some (Some 13)
  ∧ 13 ∈ descendants Examples.exampleDocument 10.
Proof.
  destruct (findFirst_returns_focusable_descendant Examples.buttonsAndItems
              Examples.threeGroups (Some 10) false false false)
    as (_ & Hfound & Hfirst).
  split; [rewrite (Hfirst 10 eq_refl); vm_compute; reflexivity|].
  assert (Focusable.findFirst Examples.buttonsAndItems Examples.threeGroups
            (Some 10) false false false = Some (Some 13)) as Hrun
    by (vm_compute; reflexivity).
  split; [exact Hrun|].
  destruct (Hfound 13 Hrun) as (c & [= <-] & Hin & _). exact Hin.
Defined.

(** A walk finds an element whenever a walk with a narrower accept
    condition finds one. *)
Lemma walkNodes_wider (f1 f2 : HTMLElement → option FilterResult) :
  (∀ x, f1 x = Some FILTER_ACCEPT → f2 x = Some FILTER_ACCEPT) →
  (∀ x, f1 x = Some FILTER_SKIP →
        f2 x = Some FILTER_SKIP ∨ f2 x = Some FILTER_ACCEPT) →
  (∀ x, f1 x = Some FILTER_REJECT → f2 x = Some FILTER_REJECT) →
  ∀ ks r, walkNodes f1 ks = Some r →
          ∃ r', walkNodes f2 ks = Some r' ∧ (is_Some r → is_Some r').
Proof.
  intros Hacc Hskip Hrej.
  assert (∀ ks,
            Forall (λ t, ∀ r, walkNode f1 t = Some r →
                              ∃ r', walkNode f2 t = Some r'
                                    ∧ (is_Some r → is_Some r')) ks →
            ∀ r, walkNodes f1 ks = Some r →
                 ∃ r', walkNodes f2 ks = Some r' ∧ (is_Some r → is_Some r'))
    as Hlist.
  { induction ks as [|k ks IHks]; intros Hall r; simpl.
    - intros [= <-]. by exists None.
    - apply Forall_cons in Hall as [Hk Hall].
      destruct (walkNode f1 k) as [found|] eqn:Hf1; simpl; [|done].
      destruct (Hk found eq_refl) as (found' & -> & Himp). simpl.
      destruct found' as [y|]; [intros _; exists (Some y); eauto|].
      destruct found as [x|]; [by destruct Himp; eauto|].
      by apply IHks. }
  assert (∀ t r, walkNode f1 t = Some r →
                 ∃ r', walkNode f2 t = Some r' ∧ (is_Some r → is_Some r'))
    as Hnode.
  { intros t. pattern t. apply DomNode_forall_ind. clear t. intros e ks IH r.
    rewrite !walkNode_unfold.
    destruct (f1 e) as [[]|] eqn:He; simpl; [| | |done].
    - rewrite (Hacc e He). simpl. intros [= <-]. exists (Some e). eauto.
    - rewrite (Hrej e He). simpl. intros [= <-]. exists None. eauto.
    - destruct (Hskip e He) as [-> | ->]; simpl.
      + by apply Hlist.
      + intros _. exists (Some e). eauto. }
  intros ks. apply Hlist. apply Forall_forall. intros t _. apply Hnode.
Qed.

Lemma acceptElement_wider api w (accept1 accept2 : HTMLElement → bool)
  ignoreLayer ignoreGroup :
  (∀ x, accept1 x = true → accept2 x = true) →
  let f1 x := Focusable._acceptElement api w x accept1 ignoreLayer
                ignoreGroup in
  let f2 x := Focusable._acceptElement api w x accept2 ignoreLayer
                ignoreGroup in
  (∀ x, f1 x = Some FILTER_ACCEPT → f2 x = Some FILTER_ACCEPT)
  ∧ (∀ x, f1 x = Some FILTER_SKIP →
          f2 x = Some FILTER_SKIP ∨ f2 x = Some FILTER_ACCEPT)
  ∧ (∀ x, f1 x = Some FILTER_REJECT → f2 x = Some FILTER_REJECT).
Proof.
  intros Hwider. cbv zeta. unfold Focusable._acceptElement.
  split; [|split]; intros x;
    (destruct (_ || _ || _ || _ || _);
     [destruct (if ignoreGroup then _ else _) as [[]|]; simpl; try done;
      pose proof (Hwider x) as Hx;
      destruct (accept1 x), (accept2 x); simpl; try done; auto;
      by specialize (Hx eq_refl)
     |destruct (getLayerFor w x); auto]).
Qed.

(** [findDefault] returns an element below the context that is focusable
    and declares itself default; whenever it finds one, [findFirst] finds an
    element too; and when layers and groups are ignored it returns the first
    default focusable element below the context in document order. *)
Theorem findDefault_returns_default_focusable
  (api : FocusableApi) (w : World)
  (focusableOn : gmap HTMLElement FocusableProps.t)
  (context : option HTMLElement)
  (includeProgrammaticallyFocusable ignoreLayer ignoreGroup : bool) :
  let container := match context with Some c => Some c | None => _body w end in
  (∀ x, Focusable.findDefault api w focusableOn context
          includeProgrammaticallyFocusable ignoreLayer ignoreGroup
        = Some (Some x) →
        api_isFocusable api w x includeProgrammaticallyFocusable = true
        ∧ FocusableProps.isDefault (Focusable.getProps focusableOn x) = true
        ∧ (∃ c, container = Some c ∧ x ∈ descendants (document w) c)
        ∧ (∃ y, Focusable.findFirst api w context
                  includeProgrammaticallyFocusable ignoreLayer ignoreGroup
                = Some (Some y)))
  ∧ (∀ c, container = Some c →
          Focusable.findDefault api w focusableOn context
            includeProgrammaticallyFocusable true true
          = Some (head (filter
                          (λ x, api_isFocusable api w x
                                  includeProgrammaticallyFocusable
                                && FocusableProps.isDefault
                                     (Focusable.getProps focusableOn x)
                                = true)
                          (descendants (document w) c)))).
Proof.
  intros container. unfold Focusable.findDefault, Focusable.findFirst.
  fold container. split.
  - intros x Hfound.
    destruct (findElement_found _ _ _ _ _ _ _ _ Hfound)
      as (c & Hc & Hin & [Hfoc Hdef]%andb_true_iff).
    split; [done|]. split; [done|]. split; [eauto|].
    rewrite Hc in Hfound |- *.
    unfold Focusable._findElement, nextNodeFromRoot in Hfound |- *.
    destruct (subtreeIn c (document w)) as [t|]; [|done].
    destruct (acceptElement_wider api w
                (λ el, api_isFocusable api w el
                         includeProgrammaticallyFocusable
                       && FocusableProps.isDefault
                            (Focusable.getProps focusableOn el))
                (λ el, api_isFocusable api w el
                         includeProgrammaticallyFocusable)
                ignoreLayer ignoreGroup)
      as (Hacc & Hskip & Hrej).
    { by intros el [? _]%andb_true_iff. }
    destruct (walkNodes_wider _ _ Hacc Hskip Hrej _ _ Hfound)
      as (r' & Hwalk & Hsome).
    destruct Hsome as [y ->]; [eauto|]. by exists y.
  - intros c ->. apply findElement_ignoring.
Qed.

(** The theorem at a concrete input. *)
Lemma findDefault_returns_default_focusable_witness :
  Focusable.findDefault Examples.buttonsAndItems Examples.emptyWorld
    Examples.defaultButton None false false false = Some (Some 112)
  ∧ FocusableProps.isDefault
      (Focusable.getProps Examples.defaultButton 112) = true.
Proof.
  assert (Focusable.findDefault Examples.buttonsAndItems Examples.emptyWorld
            Examples.defaultButton None false false false = Some (Some 112))
    as Hrun by (vm_compute; reflexivity).
  split; [exact Hrun|].
  destruct (findDefault_returns_default_focusable Examples.buttonsAndItems
              Examples.emptyWorld Examples.defaultButton None false false
              false) as [Hfound _].
  destruct (Hfound 112 Hrun) as (_ & Hdefault & _). exact Hdefault.
Defined.

(** ** Navigation between the groups of a container *)

Lemma head_filter_Some {A} (P : A → Prop) `{!∀ x, Decision (P x)} l x :
  head (filter P l) = Some x
  ↔ ∃ l1 l2, l = l1 ++ x :: l2 ∧ Forall (λ y, ¬ P y) l1 ∧ P x.
Proof.
  induction l as [|a l IH]; simpl.
  - split; [done|]. intros (l1 & l2 & Hl & _). by destruct l1.
  - rewrite filter_cons. destruct (decide (P a)) as [Ha|Ha]; simpl.
    + split.
      * intros [= ->]. exists [], l. split; [done|]. split; [constructor|done].
      * intros (l1 & l2 & Hl & Hnot & Hx).
        destruct l1 as [|b l1]; simpl in Hl; injection Hl as -> ->; [done|].
        apply Forall_cons in Hnot as [Hb _]. done.
    + rewrite IH. split.
      * intros (l1 & l2 & -> & Hnot & Hx). exists (a :: l1), l2.
        split; [done|]. split; [by constructor|done].
      * intros (l1 & l2 & Hl & Hnot & Hx).
        destruct l1 as [|b l1]; simpl in Hl; injection Hl as -> ->; [done|].
        apply Forall_cons in Hnot as [_ Hnot]. eauto.
Qed.

Lemma filter_none {A} (P : A → Prop) `{!∀ x, Decision (P x)} l :
  Forall (λ y, ¬ P y) l → filter P l = [].
Proof.
  induction 1 as [|a l Ha _ IH]; [done|].
  rewrite filter_cons. by destruct (decide (P a)).
Qed.

(** Scanning the siblings after an element and scanning the siblings
    before the element found are inverse to each other. *)
Lemma sibling_scans_inverse (T : HTMLElement → Prop)
  `{!∀ x, Decision (T x)} (l : list HTMLElement) (cur other : HTMLElement) :
  NoDup l → T cur →
  (head (filter T (elementsAfter cur l)) = Some other →
   head (filter T (elementsBefore other l [])) = Some cur)
  ∧ (head (filter T (elementsBefore cur l [])) = Some other →
     head (filter T (elementsAfter other l)) = Some cur).
Proof.
  intros Hnd Hcur. split.
  - intros (l1 & l2 & Hafter & Hnot & Hother)%head_filter_Some.
    destruct (decide (cur ∈ l)) as [Hin|Hnotin].
    + apply list_elem_of_split_l in Hin as (a & b & -> & Ha).
      rewrite elementsAfter_split in Hafter by done. subst b.
      replace (a ++ cur :: l1 ++ other :: l2)
        with ((a ++ cur :: l1) ++ other :: l2) in Hnd |- *
        by (by rewrite <-app_assoc).
      rewrite elementsBefore_split by (by apply NoDup_split_notin in Hnd).
      rewrite app_nil_r, reverse_app, reverse_cons, <-app_assoc.
      rewrite filter_app, (filter_none T (reverse l1))
        by (by apply Forall_reverse).
      simpl. rewrite filter_cons. by destruct (decide (T cur)).
    + assert (elementsAfter cur l = []) as Hnone.
      { clear -Hnotin. induction l as [|x l IH]; simpl; [done|].
        apply not_elem_of_cons in Hnotin as [Hne Hnotin].
        destruct (decide (x = cur)); [congruence|]. auto. }
      rewrite Hnone in Hafter. by destruct l1.
  - intros (l1 & l2 & Hbefore & Hnot & Hother)%head_filter_Some.
    destruct (decide (cur ∈ l)) as [Hin|Hnotin].
    + apply list_elem_of_split_l in Hin as (a & b & -> & Ha).
      rewrite elementsBefore_split, app_nil_r in Hbefore by done.
      assert (a = reverse l2 ++ other :: reverse l1) as ->.
      { rewrite <-(reverse_involutive a), Hbefore, reverse_app, reverse_cons.
        by rewrite <-app_assoc. }
      rewrite <-app_assoc in Hnd |- *. simpl in Hnd |- *.
      rewrite elementsAfter_split by (by apply NoDup_split_notin in Hnd).
      rewrite filter_app, (filter_none T (reverse l1))
        by (by apply Forall_reverse).
      simpl. rewrite filter_cons. by destruct (decide (T cur)).
    + rewrite elementsBefore_notin in Hbefore by done. by destruct l1.
Qed.

Section GroupNavigation.
Variable api : FocusableApi.
Variable host : Host.
Variable w : World.
Hypothesis well_formed : wellFormed (document w).
Hypothesis consistent : groupsOnTheirElements w = true.

Lemma findGroup_of_owner x :
  groupOn w x ≠ None → Focusable.findGroup w x = Some x.
Proof.
  intros Howns. unfold Focusable.findGroup, Focusable._findGroup.
  destruct (inclusiveAncestors_head (document w) x) as [rest ->]. simpl.
  destruct (groupOn w x) as [g|] eqn:Hg; [|done]. simpl.
  by apply groupsOnTheirElements_spec.
Qed.

Lemma isGroupTarget_owner ignoreLayer x :
  Focusable.isGroupTarget api host w ignoreLayer x = true →
  groupOn w x ≠ None.
Proof.
  unfold Focusable.isGroupTarget.
  intros [[Howns _]%andb_true_iff _]%andb_true_iff.
  by apply bool_decide_eq_true in Howns.
Qed.

(** The scan of [_findNextGroup] over the siblings on one side of the
    group element found from [context]. *)
Lemma findNextGroup_scan (side : HTMLElement → list HTMLElement) context
  ignoreLayer other :
  Focusable._findNextGroup api host w context (λ _ initial, side initial)
    ignoreLayer = Some other →
  ∃ cur p c,
    Focusable.findGroup w context = Some cur
    ∧ parentElement (document w) cur = Some p
    ∧ containerOn w p ≫= (λ r, containerObjects w !! r) = Some c
    ∧ head (filter (λ el, Focusable.isGroupTarget api host w ignoreLayer el
                          = true) (side cur)) = Some other.
Proof.
  unfold Focusable._findNextGroup.
  destruct (Focusable.findGroup w context) as [cur|]; [|done].
  destruct (parentElement (document w) cur) as [p|] eqn:Hp; [|done].
  destruct (containerOn w p ≫= _) as [c|] eqn:Hc; [|done].
  intros Hscan. by exists cur, p, c.
Qed.

Lemma findNextGroup_from (side : HTMLElement → list HTMLElement) x p c
  ignoreLayer :
  groupOn w x ≠ None →
  parentElement (document w) x = Some p →
  containerOn w p ≫= (λ r, containerObjects w !! r) = Some c →
  Focusable._findNextGroup api host w x (λ _ initial, side initial)
    ignoreLayer
  = head (filter (λ el, Focusable.isGroupTarget api host w ignoreLayer el
                        = true) (side x)).
Proof.
  intros Howns Hp Hc. unfold Focusable._findNextGroup.
  by rewrite (findGroup_of_owner x Howns), Hp, Hc.
Qed.

End GroupNavigation.

(** On a tree without repeated elements whose groups sit on their
    elements, [findNextGroup] and [findPrevGroup] are inverse to each other:
    from the group they return, the other one returns the group they
    started from, provided that group is itself a target of the scan. *)
Theorem findNextGroup_findPrevGroup_inverse
  (api : FocusableApi) (host : Host) (w : World)
  (context cur other : HTMLElement) (ignoreLayer : bool) :
  wellFormed (document w) →
  groupsOnTheirElements w = true →
  Focusable.findGroup w context = Some cur →
  Focusable.isGroupTarget api host w ignoreLayer cur = true →
  (Focusable.findNextGroup api host w context ignoreLayer = Some other →
   Focusable.findPrevGroup api host w other ignoreLayer = Some cur)
  ∧ (Focusable.findPrevGroup api host w context ignoreLayer = Some other →
     Focusable.findNextGroup api host w other ignoreLayer = Some cur).
Proof.
  intros Hwf Hcons Hcur Htarget.
  assert (∀ p, parentElement (document w) cur = Some p →
               ∀ x, x ∈ childElements (document w) p →
                    parentElement (document w) x = Some p) as Hchild.
  { intros p _ x Hx. by apply child_parentElement. }
  split.
  - intros (cur' & p & c & Hcur' & Hp & Hc & Hscan)%findNextGroup_scan.
    rewrite Hcur in Hcur'. injection Hcur' as <-.
    assert (other ∈ childElements (document w) p
            ∧ Focusable.isGroupTarget api host w ignoreLayer other = true)
      as [Hin Hother].
    { apply head_Some_elem_of, list_elem_of_filter in Hscan as [? Hin].
      split; [|done]. unfold nextSiblings, siblingsOf in Hin.
      rewrite Hp in Hin. by eapply elementsAfter_subseteq. }
    unfold Focusable.findPrevGroup.
    rewrite (findNextGroup_from api host w Hcons
               (previousSiblings (document w)) other p c);
      [|by eapply isGroupTarget_owner|by eapply Hchild|done].
    unfold nextSiblings, previousSiblings, siblingsOf in *.
    rewrite Hp in Hscan. rewrite (Hchild p Hp other Hin).
    by apply (sibling_scans_inverse _ (childElements (document w) p) cur other);
      [apply childElements_NoDup|..].
  - intros (cur' & p & c & Hcur' & Hp & Hc & Hscan)%findNextGroup_scan.
    rewrite Hcur in Hcur'. injection Hcur' as <-.
    assert (other ∈ childElements (document w) p
            ∧ Focusable.isGroupTarget api host w ignoreLayer other = true)
      as [Hin Hother].
    { apply head_Some_elem_of, list_elem_of_filter in Hscan as [? Hin].
      split; [|done]. unfold previousSiblings, siblingsOf in Hin.
      rewrite Hp in Hin.
      destruct (decide (cur ∈ childElements (document w) p)) as [Hc'|Hc'];
        [|rewrite elementsBefore_notin in Hin by done;
          by apply elem_of_nil in Hin].
      apply list_elem_of_split_l in Hc' as (a & b & Hl & Ha).
      rewrite Hl in Hin |- *.
      rewrite elementsBefore_split, app_nil_r in Hin by done.
      apply elem_of_app. left. by apply elem_of_reverse. }
    unfold Focusable.findNextGroup.
    rewrite (findNextGroup_from api host w Hcons
               (nextSiblings (document w)) other p c);
      [|by eapply isGroupTarget_owner|by eapply Hchild|done].
    unfold nextSiblings, previousSiblings, siblingsOf in *.
    rewrite Hp in Hscan. rewrite (Hchild p Hp other Hin).
    by apply (sibling_scans_inverse _ (childElements (document w) p) cur other);
      [apply childElements_NoDup|..].
Qed.

(** The theorem at a concrete input. *)
Lemma findNextGroup_findPrevGroup_inverse_witness :
  Focusable.findNextGroup Examples.buttonsAndItems Examples.rendered
    Examples.threeGroups 111 false = Some 12
  ∧ Focusable.findPrevGroup Examples.buttonsAndItems Examples.rendered
      Examples.threeGroups 12 false = Some 11.
Proof.
  assert (Focusable.findNextGroup Examples.buttonsAndItems Examples.rendered
            Examples.threeGroups 111 false = Some 12) as Hnext
    by (vm_compute; reflexivity).
  split; [exact Hnext|].
  destruct (findNextGroup_findPrevGroup_inverse Examples.buttonsAndItems
              Examples.rendered Examples.threeGroups 111 11 12 false)
    as [Hback _].
  - exact exampleDocument_wellFormed.
  - vm_compute. reflexivity.
  - vm_compute. reflexivity.
  - vm_compute. reflexivity.
  - exact (Hback Hnext).
Defined.

Lemma containersOnTheirElements_spec w :
  containersOnTheirElements w = true
  ↔ ∀ p c, containerOn w p ≫= (λ r, containerObjects w !! r) = Some c →
           _element c = p.
Proof.
  unfold containersOnTheirElements. rewrite forallb_forall. split.
  - intros Hall p c Hc. unfold containerOn in Hc.
    destruct (abilityHelpers w !! p) as [ah|] eqn:Hah; [|done].
    simpl in Hc.
    specialize (Hall (p, ah)). simpl in Hall. rewrite Hc in Hall.
    eapply bool_decide_eq_true_1, Hall, list_elem_of_In.
    by apply elem_of_map_to_list.
  - intros Hspec [p ah] Hin%list_elem_of_In%elem_of_map_to_list. simpl.
    destruct (focusableGroupContainer ah ≫= _) as [c|] eqn:Hc; [|done].
    apply bool_decide_eq_true_2, Hspec. unfold containerOn. by rewrite Hin.
Qed.

(** On a consistent tree the group that [findFirstGroup] returns has no
    previous group, and the group that [findLastGroup] returns has no next
    group. *)
Theorem first_group_has_no_previous_and_last_no_next
  (api : FocusableApi) (host : Host) (w : World)
  (context found : HTMLElement) (ignoreLayer : bool) :
  wellFormed (document w) →
  groupsOnTheirElements w = true →
  containersOnTheirElements w = true →
  (Focusable.findFirstGroup api host w context ignoreLayer = Some found →
   Focusable.findPrevGroup api host w found ignoreLayer = None)
  ∧ (Focusable.findLastGroup api host w context ignoreLayer = Some found →
     Focusable.findNextGroup api host w found ignoreLayer = None).
Proof.
  intros Hwf Hcons Hcont. rewrite containersOnTheirElements_spec in Hcont.
  assert (∀ side : ContainerObject.t → list HTMLElement,
            Focusable._findNextGroup api host w context
              (λ container _, side container) ignoreLayer = Some found →
            ∃ p c,
              containerOn w p ≫= (λ r, containerObjects w !! r) = Some c
              ∧ _element c = p
              ∧ head (filter (λ el, Focusable.isGroupTarget api host w
                                      ignoreLayer el = true) (side c))
                = Some found) as Hscan.
  { intros side. unfold Focusable._findNextGroup.
    destruct (Focusable.findGroup w context) as [cur|]; [|done].
    destruct (parentElement (document w) cur) as [p|] eqn:Hp; [|done].
    destruct (containerOn w p ≫= _) as [c|] eqn:Hc; [|done].
    intros Hhead. exists p, c. split; [done|]. split; [by apply Hcont|done]. }
  split.
  - intros (p & c & Hc & Hel & (l1 & l2 & Hkids & Hnone & Htarget)%head_filter_Some)
      %(Hscan (λ container,
                 childElements (document w) (_element container))).
    rewrite Hel in Hkids.
    assert (found ∈ childElements (document w) p) as Hin.
    { rewrite Hkids. apply elem_of_app. right. apply list_elem_of_here. }
    unfold Focusable.findPrevGroup.
    rewrite (findNextGroup_from api host w Hcons
               (previousSiblings (document w)) found p c);
      [|by eapply isGroupTarget_owner|by apply child_parentElement|done].
    unfold previousSiblings, siblingsOf.
    rewrite (child_parentElement _ p found Hwf Hin), Hkids.
    rewrite elementsBefore_split, app_nil_r.
    + rewrite filter_none; [done|]. by apply Forall_reverse.
    + apply (NoDup_split_notin l1 l2). rewrite <-Hkids.
      by apply childElements_NoDup.
  - intros (p & c & Hc & Hel & (l1 & l2 & Hkids & Hnone & Htarget)%head_filter_Some)
      %(Hscan (λ container,
                 reverse (childElements (document w) (_element container)))).
    rewrite Hel in Hkids.
    assert (childElements (document w) p = reverse l2 ++ found :: reverse l1)
      as Hkids'.
    { rewrite <-(reverse_involutive (childElements _ _)), Hkids.
      by rewrite reverse_app, reverse_cons, <-app_assoc. }
    assert (found ∈ childElements (document w) p) as Hin.
    { rewrite Hkids'. apply elem_of_app. right. apply list_elem_of_here. }
    unfold Focusable.findNextGroup.
    rewrite (findNextGroup_from api host w Hcons
               (nextSiblings (document w)) found p c);
      [|by eapply isGroupTarget_owner|by apply child_parentElement|done].
    unfold nextSiblings, siblingsOf.
    rewrite (child_parentElement _ p found Hwf Hin), Hkids'.
    rewrite elementsAfter_split.
    + rewrite filter_none; [done|]. by apply Forall_reverse.
    + apply (NoDup_split_notin (reverse l2) (reverse l1)). rewrite <-Hkids'.
      by apply childElements_NoDup.
Qed.

(** The theorem at a concrete input. *)
Lemma first_group_has_no_previous_and_last_no_next_witness :
  Focusable.findFirstGroup Examples.buttonsAndItems Examples.rendered
    Examples.threeGroups 12 false = Some 11
  ∧ Focusable.findPrevGroup Examples.buttonsAndItems Examples.rendered
      Examples.threeGroups 11 false = None
  ∧ Focusable.findLastGroup Examples.buttonsAndItems Examples.rendered
      Examples.threeGroups 12 false = Some 13
  ∧ Focusable.findNextGroup Examples.buttonsAndItems Examples.rendered
      Examples.threeGroups 13 false = None.
Proof.
  assert (Focusable.findFirstGroup Examples.buttonsAndItems Examples.rendered
            Examples.threeGroups 12 false = Some 11) as Hfirst
    by (vm_compute; reflexivity).
  assert (Focusable.findLastGroup Examples.buttonsAndItems Examples.rendered
            Examples.threeGroups 12 false = Some 13) as Hlast
    by (vm_compute; reflexivity).
  split; [exact Hfirst|].
  split.
  - destruct (first_group_has_no_previous_and_last_no_next
                Examples.buttonsAndItems Examples.rendered
                Examples.threeGroups 12 11 false) as [Hprev _].
    + exact exampleDocument_wellFormed.
    + vm_compute. reflexivity.
    + vm_compute. reflexivity.
    + exact (Hprev Hfirst).
  - split; [exact Hlast|].
    destruct (first_group_has_no_previous_and_last_no_next
                Examples.buttonsAndItems Examples.rendered
                Examples.threeGroups 12 13 false) as [_ Hnext].
    + exact exampleDocument_wellFormed.
    + vm_compute. reflexivity.
    + vm_compute. reflexivity.
    + exact (Hnext Hlast).
Defined.

(** ** Focus arriving where it already is *)

Lemma groupSetters_frame w g b :
  (document (FocusableGroup.setFocused w g b) = document w
   ∧ abilityHelpers (FocusableGroup.setFocused w g b) = abilityHelpers w)
  ∧ (document (FocusableGroup.setUnlimited w g b) = document w
     ∧ abilityHelpers (FocusableGroup.setUnlimited w g b) = abilityHelpers w).
Proof.
  unfold FocusableGroup.setFocused, FocusableGroup.setUnlimited.
  destruct (FocusableGroup.containerOf w g) as [r|]; [|done].
  split.
  - destruct (onContainer_frame r
                (λ c, FocusableGroupContainer.setFocusedGroup c
                        (if b then Some g else None)) w) as (? & ? & _).
    done.
  - destruct (FocusableGroup.limitedMode w g); [|done].
    destruct (onContainer_frame r
                (λ c, FocusableGroupContainer.setUnlimitedGroup c
                        (if b then Some g else None)) w) as (? & ? & _).
    done.
Qed.

Lemma leaveGroups_table w old new :
  document (Focusable.leaveGroups w old new) = document w
  ∧ abilityHelpers (Focusable.leaveGroups w old new) = abilityHelpers w.
Proof.
  unfold Focusable.leaveGroups. revert w.
  induction old as [|[k h] old IH]; intros w; simpl; [done|].
  destruct (obj_has k new); [apply IH|].
  destruct (IH (Focusable.leaveGroup w h)) as [-> ->].
  unfold Focusable.leaveGroup.
  destruct (groupSetters_frame (FocusableGroup.setFocused w h false) h false)
    as [_ [-> ->]].
  by destruct (groupSetters_frame w h false) as [[-> ->] _].
Qed.

Lemma enterGroups_table api element w old entries :
  document (Focusable.enterGroups api element w old entries) = document w
  ∧ abilityHelpers (Focusable.enterGroups api element w old entries)
    = abilityHelpers w.
Proof.
  unfold Focusable.enterGroups. revert w.
  induction entries as [|[k h] entries IH]; intros w; simpl; [done|].
  destruct (obj_has k old); [apply IH|].
  destruct (IH (Focusable.enterGroup api element w h)) as [-> ->].
  unfold Focusable.enterGroup.
  destruct (getElement w h) as [ge|]; [|done].
  destruct (groupSetters_frame w h true) as [[Hd Ha] _].
  destruct (decide _); [|done].
  destruct (groupSetters_frame (FocusableGroup.setFocused w h true) h true)
    as [_ [-> ->]].
  done.
Qed.

(** A focus event for the element that already has the focus changes
    nothing: no group leaves or enters the chain, and no flag is touched. *)
Theorem onFocus_on_focused_element_changes_nothing
  (api : FocusableApi) (w : World) (element : option HTMLElement) :
  let w' := Focusable._onFocus api w element in
  Focusable._onFocus api w' element = w'.
Proof.
  intros w'. destruct element as [element|]; [|done].
  set (new := Focusable.newFocusedGroupsOf w element).
  assert (_focusedGroups w' = new
          ∧ document w' = document w
          ∧ abilityHelpers w' = abilityHelpers w) as (Hf & Hd & Ha).
  { unfold w', Focusable._onFocus. fold new.
    destruct (enterGroups_table api element
                (Focusable.leaveGroups w (_focusedGroups w) new)
                (_focusedGroups w) new) as [Hd Ha].
    destruct (leaveGroups_table w (_focusedGroups w) new) as [Hd' Ha'].
    rewrite Hd', Ha' in *.
    by destruct (Focusable.enterGroups _ _ _ _ _). }
  assert (Focusable.newFocusedGroupsOf w' element = new) as Hnew.
  { unfold new, Focusable.newFocusedGroupsOf. rewrite Hd.
    generalize (inclusiveAncestors (document w) element).
    generalize (@nil (nat * GroupRef)).
    intros acc l. revert acc.
    induction l as [|x l IH]; intros acc; simpl; [done|].
    assert (groupOn w' x = groupOn w x) as ->
      by (unfold groupOn; by rewrite Ha).
    apply IH. }
  unfold Focusable._onFocus at 1. rewrite Hnew, Hf.
  assert (∀ w0 (entries : JsObj GroupRef),
            (∀ kv, kv ∈ entries → obj_has kv.1 new = true) →
            Focusable.leaveGroups w0 entries new = w0) as Hleave.
  { intros w0 entries. unfold Focusable.leaveGroups. revert w0.
    induction entries as [|kv entries IH]; intros w0 Hall; simpl; [done|].
    rewrite (Hall kv) by apply list_elem_of_here.
    apply IH. intros kv' ?. by apply Hall, list_elem_of_further. }
  assert (∀ w0 (entries : JsObj GroupRef),
            (∀ kv, kv ∈ entries → obj_has kv.1 new = true) →
            Focusable.enterGroups api element w0 new entries = w0) as Henter.
  { intros w0 entries. unfold Focusable.enterGroups. revert w0.
    induction entries as [|kv entries IH]; intros w0 Hall; simpl; [done|].
    rewrite (Hall kv) by apply list_elem_of_here.
    apply IH. intros kv' ?. by apply Hall, list_elem_of_further. }
  assert (∀ kv : nat * GroupRef, kv ∈ new → obj_has kv.1 new = true) as Hall
    by (intros [k v] ?; by eapply elem_obj_has).
  rewrite Hleave, Henter by done.
  rewrite <-Hf. by destruct w'.
Qed.

(** ** Membership of a container *)

Lemma obj_delete_fresh {V} k (o : JsObj V) :
  obj_has k o = false → obj_delete k o = o.
Proof.
  unfold obj_has. induction o as [|[k' v] o IH]; simpl; [done|].
  destruct (decide (k = k')); [done|]. intros Hk. by rewrite IH.
Qed.

Lemma obj_delete_set_fresh {V} k (v : V) (o : JsObj V) :
  obj_has k o = false → obj_delete k (obj_set k v o) = o.
Proof.
  unfold obj_has. induction o as [|[k' v'] o IH]; simpl.
  - by destruct (decide (k = k)).
  - destruct (decide (k = k')) as [-> | Hne]; [done|]. simpl.
    destruct (decide (k = k')); [done|]. intros Hk. by rewrite IH.
Qed.

Lemma obj_set_again {V} k (v : V) (o : JsObj V) :
  obj_set k v (obj_set k v o) = obj_set k v o.
Proof.
  induction o as [|[k' v'] o IH]; simpl.
  - by destruct (decide (k = k)).
  - destruct (decide (k = k')) as [-> | Hne]; simpl.
    + by destruct (decide (k' = k')).
    + destruct (decide (k = k')); [done|]. by rewrite IH.
Qed.

Lemma obj_has_delete_ne {V} k k' (o : JsObj V) :
  k ≠ k' → obj_has k (obj_delete k' o) = obj_has k o.
Proof.
  intros Hne. unfold obj_has.
  induction o as [|[k0 v] o IH]; simpl; [done|].
  destruct (decide (k' = k0)) as [<- | Hk0]; simpl.
  - destruct (decide (k = k')); [done|]. exact IH.
  - destruct (decide (k = k0)); [done|]. exact IH.
Qed.

(** [addGroup] makes the group a member and [removeGroup] makes it none;
    adding a group and removing it again restores the membership, with the
    order of the other members; adding a member again changes nothing of the
    membership; and a container is empty exactly when it has no member. *)
Theorem container_membership_add_remove
  (w1 w2 : World) (c : ContainerObject.t) (g : GroupRef) :
  let added := FocusableGroupContainer.addGroup w1 c g in
  let removed := FocusableGroupContainer.removeGroup w2 added g in
  obj_has g (_groups added) = true
  ∧ FocusableGroupContainer.isEmpty added = false
  ∧ obj_has g (_groups removed) = false
  ∧ (∀ h, h ≠ g → obj_has h (_groups added) = obj_has h (_groups c)
                   ∧ obj_has h (_groups removed) = obj_has h (_groups c))
  ∧ (obj_has g (_groups c) = false → _groups removed = _groups c)
  ∧ _groups (FocusableGroupContainer.addGroup w2 added g) = _groups added
  ∧ (FocusableGroupContainer.isEmpty c = true
     ↔ ∀ h, obj_has h (_groups c) = false).
Proof.
  intros added removed.
  destruct (addGroup_fields w1 c g) as (Hadded & _).
  fold added in Hadded.
  assert (_groups removed = obj_delete g (_groups added)) as Hremoved
    by apply removeGroup_groups.
  pose proof (λ (o : JsObj GroupRef) h (Hne : h ≠ g),
                obj_has_delete_ne h g o Hne) as Hdel.
  split; [rewrite Hadded; apply obj_has_set_eq|].
  split.
  { unfold FocusableGroupContainer.isEmpty, obj_keys. rewrite Hadded.
    apply bool_decide_eq_false. rewrite length_fmap.
    destruct (_groups c) as [|[k v] o]; simpl; [lia|].
    case_decide; simpl; lia. }
  split; [rewrite Hremoved; apply obj_has_delete_eq|].
  split.
  { intros h Hne.
    assert (obj_has h (_groups added) = obj_has h (_groups c)) as Hh.
    { rewrite Hadded, obj_has_set. by rewrite bool_decide_eq_false_2. }
    split; [done|]. by rewrite Hremoved, Hdel. }
  split; [intros Hfresh; rewrite Hremoved, Hadded;
          by apply obj_delete_set_fresh|].
  split.
  { destruct (addGroup_fields w2 added g) as (-> & _).
    rewrite Hadded. apply obj_set_again. }
  unfold FocusableGroupContainer.isEmpty, obj_keys.
  rewrite bool_decide_eq_true, length_fmap.
  destruct (_groups c) as [|[k v] o]; simpl.
  - split; [done|]. done.
  - split; [done|]. intros Hall. specialize (Hall k).
    unfold obj_has in Hall. simpl in Hall. by destruct (decide (k = k)).
Qed.

(** ** Moving a group *)

(** [moveGroup] of a group that sits in the container of its parent, onto
    an element with a parent.  When the new parent carries the same
    container, only the element of the group changes: the container and its
    first and last pointers are left as they are.  Otherwise the group
    leaves its container and joins the one on the new parent, which is
    created when the parent has none. *)
Theorem moveGroup_rebinds_group_to_container_of_new_parent
  (w : World) (from to p q : HTMLElement) (g : GroupRef) (o : GroupObject.t)
  (r : ContainerRef) (c : ContainerObject.t) :
  from ≠ to →
  groupOn w from = Some g →
  groupObjects w !! g = Some o →
  GroupObject._element o = from →
  GroupObject._container o = Some r →
  parentElement (document w) from = Some p →
  containerOn w p = Some r →
  containerObjects w !! r = Some c →
  parentElement (document w) to = Some q →
  (∀ r', containerOn w q = Some r' → is_Some (containerObjects w !! r')) →
  containerObjects w !! S (_lastId w) = None →
  let w' := Focusable.moveGroup w from to in
  let r' : ContainerRef := default (S (_lastId w)) (containerOn w q) in
  getElement w' g = Some to
  ∧ FocusableGroup.containerOf w' g = Some r'
  ∧ containerOn w' q = Some r'
  ∧ if decide (r' = r)
    then containerObjects w' = containerObjects w
    else ∃ c' c'',
        containerObjects w' !! r' = Some c'
        ∧ obj_has g (_groups c') = true
        ∧ containerObjects w' !! r = Some c''
        ∧ obj_has g (_groups c'') = false
        ∧ ∀ h, h ≠ g → obj_has h (_groups c'') = obj_has h (_groups c).
Proof.
  intros Hne Hg Ho He Hcont Hp Hcp Hc Hq Hexists Hfresh w' r'.
  assert (r ≠ S (_lastId w)) as Hrfresh.
  { intros ->. assert (Some c = None) as Habs; [|done].
    rewrite <-Hc. exact Hfresh. }
  (* the first [setupContainer] of [moveTo] finds nothing to do *)
  assert (FocusableGroup.setupContainer w g true = w) as Hw1.
  { apply (setupContainer_unchanged w g true o p); [done|by rewrite He|
                                                    congruence|by left]. }
  set (o2 := {| GroupObject._element := to;
                GroupObject._container := GroupObject._container o;
                GroupObject._props := GroupObject._props o |}).
  set (w2 := FocusableGroup.set_element g to w).
  assert (document w2 = document w
          ∧ abilityHelpers w2 = abilityHelpers w
          ∧ containerObjects w2 = containerObjects w
          ∧ mutationListener w2 = mutationListener w
          ∧ _lastId w2 = _lastId w
          ∧ groupObjects w2 = <[g := o2]> (groupObjects w))
    as (Hd2 & Ha2 & Hc2 & Hm2 & Hl2 & Hg2).
  { unfold w2, FocusableGroup.set_element. rewrite Ho. by destruct w. }
  assert (groupObjects w2 !! g = Some o2) as Ho2
    by (rewrite Hg2; apply lookup_insert_eq).
  assert (∀ x, containerOn w2 x = containerOn w x) as Hco2
    by (intros x; unfold containerOn; by rewrite Ha2).
  assert (getElement w g ≠ Some to) as Hmoved.
  { unfold getElement. rewrite Ho. simpl. congruence. }
  (* the world that the dispatched mutation events find *)
  assert (∀ w3 o3,
            groupObjects w3 !! g = Some o3 →
            GroupObject._element o3 = to →
            document w3 = document w →
            containerOn w3 q = GroupObject._container o3 →
            is_Some (containerOn w3 q) →
            Focusable.dispatchMutationEvent
              (Focusable.dispatchMutationEvent w3 from g true) to g false
            = w3) as Hquiet.
  { intros w3 o3 Ho3 He3 Hd3 Hsame Hsome.
    assert (∀ b, Focusable.dispatchMutationEvent w3 from g b = w3
                 ∧ Focusable.dispatchMutationEvent w3 to g b = w3)
      as Hboth.
    { intros b.
      unfold Focusable.dispatchMutationEvent, Focusable._onMutation.
      destruct (mutationListener w3); [|done].
      rewrite (setupContainer_unchanged w3 g b o3 q); [done|done| |done|].
      - by rewrite He3, Hd3.
      - by right. }
    destruct (Hboth true) as [-> _]. by destruct (Hboth false) as [_ ->]. }
  assert (w' = Focusable.dispatchMutationEvent
                 (Focusable.dispatchMutationEvent
                    (FocusableGroup.setupContainer w2 g false) from g true)
                 to g false) as Hrun.
  { unfold w', Focusable.moveGroup.
    destruct (decide (from ≠ to)); [|done]. rewrite Hg.
    unfold FocusableGroup.moveTo.
    destruct (decide (getElement w g ≠ Some to)); [|done].
    by rewrite Hw1. }
  destruct (containerOn w q) as [rq|] eqn:Hcq.
  - (* the new parent carries a container *)
    destruct (Hexists rq eq_refl) as [cq Hcqo].
    change r' with rq in *. clear r'.
    destruct (decide (rq = r)) as [-> | Hother].
    + (* the same container *)
      assert (FocusableGroup.setupContainer w2 g false = w2) as Hw3.
      { apply (setupContainer_unchanged w2 g false o2 q); [done| | |].
        - simpl. by rewrite Hd2.
        - rewrite Hco2, Hcq. simpl. congruence.
        - right. rewrite Hco2, Hcq. eauto. }
      rewrite Hw3 in Hrun.
      rewrite (Hquiet w2 o2) in Hrun; [|done|done|done| |].
      * rewrite Hrun. split; [unfold getElement; by rewrite Ho2|].
        split; [unfold FocusableGroup.containerOf; rewrite Ho2; simpl;
                congruence|].
        split; [by rewrite Hco2|done].
      * rewrite Hco2, Hcq. simpl. congruence.
      * rewrite Hco2, Hcq. eauto.
    + (* another container *)
      set (wr := onContainer r
                   (λ c0, FocusableGroupContainer.removeGroup w2 c0 g) w2).
      destruct (onContainer_frame r
                  (λ c0, FocusableGroupContainer.removeGroup w2 c0 g) w2)
        as (Hdr & Har & Hgr & Hmr & Hlr).
      fold wr in Hdr, Har, Hgr, Hmr, Hlr.
      assert (groupObjects wr !! g = Some o2) as Hor by (by rewrite Hgr).
      assert (containerObjects wr !! rq = Some cq) as Hcr.
      { unfold wr. rewrite onContainer_lookup, Hc2, Hcqo.
        by destruct (decide (rq = r)). }
      assert (containerObjects wr !! r
              = Some (FocusableGroupContainer.removeGroup w2 c g)) as Hrr.
      { unfold wr. rewrite onContainer_lookup, Hc2, Hc.
        by destruct (decide (r = r)). }
      destruct (attach_group wr g o2 rq cq Hor Hcr)
        as (Hd4 & Hm4 & Ha4 & Hg4 & Hc4 & Hc4').
      set (w3 := FocusableGroup.set_container g (Some rq) wr) in *.
      set (w4 := onContainer rq
                   (λ c0, FocusableGroupContainer.addGroup w3 c0 g) w3) in *.
      assert (FocusableGroup.setupContainer w2 g false = w4) as Hsetup.
      { unfold FocusableGroup.setupContainer. rewrite Ho2.
        change (GroupObject._element o2) with to.
        change (GroupObject._container o2) with (GroupObject._container o).
        rewrite Hd2, Hq, Hco2, Hcq, Hcont.
        destruct (decide (Some r ≠ Some rq)) as [_|Hn]; [done|].
        exfalso. apply Hn. congruence. }
      set (o4 := {| GroupObject._element := to;
                    GroupObject._container := Some rq;
                    GroupObject._props := GroupObject._props o |}).
      assert (groupObjects w4 !! g = Some o4) as Ho4
        by (rewrite Hg4; apply lookup_insert_eq).
      assert (containerOn w4 q = Some rq) as Hcq4.
      { unfold containerOn. rewrite Ha4, Har, Ha2. exact Hcq. }
      rewrite Hsetup in Hrun.
      rewrite (Hquiet w4 o4) in Hrun; [|done|done|congruence|done|eauto].
      rewrite Hrun. split; [unfold getElement; by rewrite Ho4|].
      split; [unfold FocusableGroup.containerOf; by rewrite Ho4|].
      split; [done|].
      exists (FocusableGroupContainer.addGroup w3 cq g),
             (FocusableGroupContainer.removeGroup w2 c g).
      split; [done|].
      destruct (addGroup_fields w3 cq g) as (-> & _).
      split; [apply obj_has_set_eq|].
      split; [rewrite Hc4' by done; exact Hrr|].
      rewrite removeGroup_groups.
      split; [apply obj_has_delete_eq|].
      intros h Hh. by apply obj_has_delete_ne.
  - (* the new parent carries no container: one is created *)
    change r' with (S (_lastId w)) in *. clear r'.
    case_decide as Heq; [by rewrite Heq in Hrfresh|]. clear Heq.
    destruct (containerConstruct_frame w2 q)
      as (Hrid & Hds & Hgs & Hms & _ & Hgos & Hcos & Hcs).
    destruct (FocusableGroupContainer.construct w2 q) as [ws rs] eqn:Hcons.
    simpl in Hrid, Hds, Hgs, Hms, Hgos, Hcos, Hcs.
    rewrite Hl2 in Hrid. subst rs.
    set (rq := S (_lastId w)) in *.
    set (wr := onContainer r
                 (λ c0, FocusableGroupContainer.removeGroup ws c0 g) ws).
    destruct (onContainer_frame r
                (λ c0, FocusableGroupContainer.removeGroup ws c0 g) ws)
      as (Hdr & Har & Hgr & Hmr & Hlr).
    fold wr in Hdr, Har, Hgr, Hmr, Hlr.
    assert (groupObjects wr !! g = Some o2) as Hor by (by rewrite Hgr, Hgs).
    assert (containerObjects wr !! rq
            = Some (FocusableGroupContainer.create q)) as Hcr.
    { unfold wr. rewrite onContainer_lookup, Hcs, lookup_insert_eq.
      case_decide as Heq; [|done]. by rewrite Heq in Hrfresh. }
    assert (containerObjects wr !! r
            = Some (FocusableGroupContainer.removeGroup ws c g)) as Hrr.
    { unfold wr. rewrite onContainer_lookup, Hcs, lookup_insert_ne, Hc2, Hc
        by (intros Heq; by rewrite Heq in Hrfresh).
      by destruct (decide (r = r)). }
    destruct (attach_group wr g o2 rq (FocusableGroupContainer.create q)
                Hor Hcr) as (Hd4 & Hm4 & Ha4 & Hg4 & Hc4 & Hc4').
    match type of Hd4 with document ?x = _ => set (w4 := x) in * end.
    match type of Hc4 with _ = Some ?x => set (c4 := x) in * end.
    assert (FocusableGroup.setupContainer w2 g false = w4) as Hsetup.
    { unfold FocusableGroup.setupContainer. rewrite Ho2.
      change (GroupObject._element o2) with to.
      change (GroupObject._container o2) with (GroupObject._container o).
      rewrite Hd2, Hq, Hco2, Hcq, Hcont, Hcons.
      case_decide as Hn; [done|].
      injection Hn as Heq. by rewrite Heq in Hrfresh. }
    set (o4 := {| GroupObject._element := to;
                  GroupObject._container := Some rq;
                  GroupObject._props := GroupObject._props o |}).
    assert (groupObjects w4 !! g = Some o4) as Ho4
      by (rewrite Hg4; apply lookup_insert_eq).
    assert (containerOn w4 q = Some rq) as Hcq4.
    { assert (containerOn w4 q = containerOn ws q) as ->
        by (unfold containerOn; by rewrite Ha4, Har).
      rewrite Hcos. by destruct (decide (q = q)). }
    rewrite Hsetup in Hrun.
    rewrite (Hquiet w4 o4) in Hrun; [|done|done|congruence|done|eauto].
    rewrite Hrun. split; [unfold getElement; by rewrite Ho4|].
    split; [unfold FocusableGroup.containerOf; by rewrite Ho4|].
    split; [done|].
    exists c4, (FocusableGroupContainer.removeGroup ws c g).
    split; [done|].
    split.
    { unfold c4.
      match goal with
      | |- context [FocusableGroupContainer.addGroup ?a ?b ?h] =>
          destruct (addGroup_fields a b h) as (-> & _)
      end.
      apply obj_has_set_eq. }
    split; [rewrite Hc4' by (intros Heq; by rewrite Heq in Hrfresh);
            exact Hrr|].
    rewrite removeGroup_groups.
    split; [apply obj_has_delete_eq|].
    intros h Hh. by apply obj_has_delete_ne.
Qed.

(** The theorem at a concrete input. *)
Lemma moveGroup_rebinds_group_to_container_of_new_parent_witness :
  let w' := Focusable.moveGroup Examples.threeGroups 11 20 in
  FocusableGroup.containerOf w' 1 = Some 5
  ∧ containerOn w' 1 = Some 5
  ∧ ∃ c'', containerObjects w' !! 2 = Some c''
           ∧ obj_has 1 (_groups c'') = false.
Proof.
  assert (default (S (_lastId Examples.threeGroups))
            (containerOn Examples.threeGroups 1) = 5) as Hnew
    by (vm_compute; reflexivity).
  destruct (moveGroup_rebinds_group_to_container_of_new_parent
              Examples.threeGroups 11 20 10 1 1
              {| GroupObject._element := 11;
                 GroupObject._container := Some 2;
                 GroupObject._props := Examples.observed None None |}
              2 (Examples.listContainerOf Examples.threeGroups))
    as (_ & Hof & Hon & Hrest).
  - discriminate.
  - vm_compute. reflexivity.
  - vm_compute. reflexivity.
  - reflexivity.
  - reflexivity.
  - vm_compute. reflexivity.
  - vm_compute. reflexivity.
  - vm_compute. reflexivity.
  - vm_compute. reflexivity.
  - intros r' Hr'. vm_compute in Hr'. discriminate Hr'.
  - vm_compute. reflexivity.
  - rewrite Hnew in Hof, Hon, Hrest.
    split; [exact Hof|]. split; [exact Hon|].
    destruct (decide _) as [Heq|_] in Hrest; [discriminate Heq|].
    destruct Hrest as (c' & c'' & _ & _ & Hc'' & Hgone & _).
    exists c''. split; [exact Hc''|exact Hgone].
Defined.
